(** * koioj judger: a shallow embedding of [crates/theoj-judge/src/judger.cpp]

    The judger is one C++ translation unit run as three nested processes:
    the supervisor ([main]), the container init ([container_init]) and the
    executor ([sandbox_executor]).  The processes are ordered by barrier
    pipes and [waitpid], so the embedding runs them one after the other over
    a single [world] that holds the file descriptors and the directories
    they touch.  Kernel answers (system-call results, the files the kernel
    and the judged program leave behind) are fields of an oracle record.
    A process that waits for something that never comes is an outcome of its
    own, [Blocks].

    [write_full] and [read_full] act on the world in one step; their loops,
    and the one of [write_bin_file], are also given call by call
    ([write_full_loop], [read_full_loop], [write_bin_file_loop]) and related
    to the one-step versions.  The world counts the bytes the result pipe
    can still hold; the buffers a pipe keeps them in are given beside it
    ([pipe_write], [pipe_fits]) and bound what it really takes.  An [open]
    that never returns is an answer of the kernel like the others
    ([io_hangs]). *)

From Stdlib Require Import ZArith Ascii String Lia.
From Equations Require Import Equations.
From Equations.Prop Require Import Logic.
From stdpp Require Import base option list strings pretty gmap.

Local Open Scope Z_scope.

(** ** Machine integers and bytes *)

(** [char] is the element type of [std::string] and [std::vector<char>]. *)
Definition char : Type := ascii.

Definition INT_MAX : Z := 2147483647.
Definition INT_MIN : Z := -2147483648.
Definition LLONG_MAX : Z := 9223372036854775807.
Definition LLONG_MIN : Z := -9223372036854775808.

(** Two's complement reading of [u] in [w] bits. *)
Definition sint (w : Z) (u : Z) : Z :=
  let m := u mod 2 ^ w in
  if m <? 2 ^ (w - 1) then m else m - 2 ^ w.

(** Conversion of an integer value to [int] ([long long]): reduction modulo
    [2^32] ([2^64]). *)
Definition to_int (z : Z) : Z := sint 32 z.
Definition to_llong (z : Z) : Z := sint 64 z.

Definition char_of_Z (z : Z) : char := ascii_of_N (Z.to_N (z mod 256)).
Definition Z_of_char (c : char) : Z := Z.of_N (N_of_ascii c).

(** Object representation of an integer in [n] bytes, little endian (the
    judger runs on x86-64 Linux). *)
Fixpoint le_bytes (n : nat) (z : Z) : list char :=
  match n with
  | O => []
  | S n' => char_of_Z z :: le_bytes n' (z / 256)
  end.

Fixpoint le_value (bs : list char) : Z :=
  match bs with
  | [] => 0
  | b :: bs' => Z_of_char b + 256 * le_value bs'
  end.

Definition sizeof_int : nat := 4.
Definition sizeof_llong : nat := 8.

Definition int_of_bytes (bs : list char) : Z := sint 32 (le_value bs).
Definition llong_of_bytes (bs : list char) : Z := sint 64 (le_value bs).

(** ** Constants, enumerations and records of the source *)

Definition EXTRA_TIME : Z := 1000.
Definition STACK_SIZE : Z := 1024 * 1024.

Inductive Verdict : Set :=
| VERDICT_OK
| VERDICT_TLE
| VERDICT_MLE
| VERDICT_RE
| VERDICT_UKE.

Definition Verdict_value (v : Verdict) : Z :=
  match v with
  | VERDICT_OK => 0
  | VERDICT_TLE => 1
  | VERDICT_MLE => 2
  | VERDICT_RE => 3
  | VERDICT_UKE => 4
  end.

Record FileInfo : Type := mkFileInfo {
  filename : string;
  content : list char;
  mode : Z
}.

Record JudgeConfig : Type := mkJudgeConfig {
  time_limit : Z;
  memory_limit : Z;
  pids_limit : Z;
  rootfs : string;
  tmpfs_size : string;
  cgroup : string;
  sandbox_id : string;
  stdin_content : string;
  cmdline : list string;
  input_files : list FileInfo;
  output_filenames : list string
}.

Record JudgeResult : Type := mkJudgeResult {
  verdict : Z;
  time : Z;
  memory : Z;
  stdout_content : string;
  stderr_content : string;
  output_files : list FileInfo
}.

(** ** Exceptions *)

(** Every exception the program can raise derives from [std::exception];
    [what] is its message.  The two standard-library messages are those of
    libstdc++; no proof depends on their text. *)
Inductive exn : Type :=
| runtime_error (msg : string)
| length_error (msg : string)
| invalid_argument (msg : string)
| out_of_range (msg : string).

Definition what (e : exn) : string :=
  match e with
  | runtime_error m | length_error m | invalid_argument m | out_of_range m => m
  end.

Definition string_length_error : exn := length_error "basic_string::_M_create".
Definition vector_length_error : exn := length_error "vector::_M_default_append".

(** What a computation ends in: a value, an exception, or a wait that
    never ends (a [write] on a full pipe that nobody reads). *)
Inductive result (A : Type) : Type :=
| Ok (a : A)
| Throw (e : exn)
| Blocked.
Arguments Ok {A} a.
Arguments Throw {A} e.
Arguments Blocked {A}.

(** ** The world the three processes act on *)

Inductive fd : Set :=
| STDIN      (* descriptor 0 of the supervisor *)
| STDOUT     (* descriptor 1 of the supervisor *)
| RESULT_R   (* ctx.result_pipe[0] *)
| RESULT_W.  (* ctx.result_pipe[1] *)

Record world : Type := mkWorld {
  w_stdin : list char;          (* bytes not yet read from descriptor 0 *)
  w_result : list char;         (* bytes in flight in the result pipe *)
  w_result_room : option N;     (* bytes the result pipe still takes at most
                                   before a writer blocks; [None]: no limit *)
  w_stdout : list char;         (* bytes accepted so far by descriptor 1 *)
  w_stdout_room : option N;     (* bytes descriptor 1 still accepts before
                                   [write] starts to fail; [None]: no limit *)
  w_reads : nat;                (* number of [read_full] calls so far *)
  w_dirs : gset string          (* directories that exist on the host *)
}.

Definition set_stdin (x : list char) (w : world) : world :=
  mkWorld x (w_result w) (w_result_room w) (w_stdout w) (w_stdout_room w)
          (w_reads w) (w_dirs w).
Definition set_result (x : list char) (r : option N) (w : world) : world :=
  mkWorld (w_stdin w) x r (w_stdout w) (w_stdout_room w) (w_reads w)
          (w_dirs w).
Definition set_stdout (x : list char) (r : option N) (w : world) : world :=
  mkWorld (w_stdin w) (w_result w) (w_result_room w) x r (w_reads w)
          (w_dirs w).
Definition set_reads (n : nat) (w : world) : world :=
  mkWorld (w_stdin w) (w_result w) (w_result_room w) (w_stdout w)
          (w_stdout_room w) n (w_dirs w).
Definition set_dirs (d : gset string) (w : world) : world :=
  mkWorld (w_stdin w) (w_result w) (w_result_room w) (w_stdout w)
          (w_stdout_room w) (w_reads w) d.

(** Room left after [n] more bytes went in, and after [n] bytes came out. *)
Definition less_room (room : option N) (n : nat) : option N :=
  match room with
  | None => None
  | Some c => Some (c - N.of_nat n)%N
  end.
Definition more_room (room : option N) (n : nat) : option N :=
  match room with
  | None => None
  | Some c => Some (c + N.of_nat n)%N
  end.

(** Computations that read and write the world and may throw or block.
    The world is kept when they do: what was written stays written. *)
Definition M (A : Type) : Type := world -> result A * world.

#[global] Instance M_ret : MRet M := fun A a w => (Ok a, w).
#[global] Instance M_bind : MBind M := fun A B f m w =>
  match m w with
  | (Ok a, w') => f a w'
  | (Throw e, w') => (Throw e, w')
  | (Blocked, w') => (Blocked, w')
  end.

Definition throw {A : Type} (e : exn) : M A := fun w => (Throw e, w).

(** ** utils *)

(** [write_full]: the loop hands every byte to [write] unless a call
    fails.  Descriptor 1 accepts [w_stdout_room] more bytes and fails from
    then on; the result pipe takes at most [w_result_room] more bytes and
    then makes the writer wait for a reader.  That count of bytes is the
    most the pipe can hold: a pipe stores each write in page-sized buffers
    and can run out of buffers before it runs out of bytes, so a write that
    goes through here may still wait on a real pipe.  [pipe_write] below
    has the buffers; the statements that conclude that a frame went through
    the pipe assume [pipe_fits] for it. *)
Definition write_full (f : fd) (buf : list char) : M unit := fun w =>
  match f with
  | STDOUT =>
      match w_stdout_room w with
      | None => (Ok tt, set_stdout (w_stdout w ++ buf) None w)
      | Some room =>
          if decide (N.of_nat (length buf) <= room)%N
          then (Ok tt, set_stdout (w_stdout w ++ buf)
                         (Some (room - N.of_nat (length buf))%N) w)
          else (Throw (runtime_error "Write failed"),
                set_stdout (w_stdout w ++ take (N.to_nat room) buf)
                           (Some 0%N) w)
      end
  | RESULT_W =>
      match w_result_room w with
      | None => (Ok tt, set_result (w_result w ++ buf) None w)
      | Some room =>
          if decide (N.of_nat (length buf) <= room)%N
          then (Ok tt, set_result (w_result w ++ buf)
                         (Some (room - N.of_nat (length buf))%N) w)
          else (Blocked,
                set_result (w_result w ++ take (N.to_nat room) buf)
                           (Some 0%N) w)
      end
  | STDIN | RESULT_R =>
      match buf with
      | [] => (Ok tt, w)
      | _ :: _ => (Throw (runtime_error "Write failed"), w)
      end
  end.

(** [read_full]: the loop returns [size] bytes, or throws once the stream
    ends before that.  No signal handler is installed, so no [read] or
    [write] is interrupted and the [EINTR] retries never run. *)
Definition read_from (src : list char) (size : nat) : result (list char) * list char :=
  if decide (size <= length src)%nat
  then (Ok (take size src), drop size src)
  else (Throw (runtime_error "Read failed or EOF"), []).

Definition read_full (f : fd) (size : nat) : M (list char) := fun w =>
  let w := set_reads (S (w_reads w)) w in
  match f with
  | STDIN =>
      let '(r, rest) := read_from (w_stdin w) size in (r, set_stdin rest w)
  | RESULT_R =>
      let '(r, rest) := read_from (w_result w) size in
      (r, set_result rest
            (more_room (w_result_room w) (length (w_result w) - length rest)) w)
  | STDOUT | RESULT_W =>
      match size with
      | O => (Ok [], w)
      | S _ => (Throw (runtime_error "Read failed or EOF"), w)
      end
  end.

Definition read_int (f : fd) : M Z :=
  bs ← read_full f sizeof_int; mret (int_of_bytes bs).

Definition read_llong (f : fd) : M Z :=
  bs ← read_full f sizeof_llong; mret (llong_of_bytes bs).

Definition write_int (f : fd) (x : Z) : M unit :=
  write_full f (le_bytes sizeof_int x).

Definition write_llong (f : fd) (x : Z) : M unit :=
  write_full f (le_bytes sizeof_llong x).

(** ** proto *)

Definition read_proto_str (f : fd) : M string :=
  len ← read_int f;
  if len =? 0 then mret ""
  else if len <? 0 then throw string_length_error
  else bs ← read_full f (Z.to_nat len); mret (string_of_list_ascii bs).

(** [int len = s.length()] narrows the [size_t] length to [int]. *)
Definition write_proto_str (f : fd) (s : string) : M unit :=
  let len := to_int (Z.of_nat (String.length s)) in
  _ ← write_int f len;
  if 0 <? len then write_full f (take (Z.to_nat len) (list_ascii_of_string s))
  else mret tt.

Definition write_proto_buf (f : fd) (buf : list char) : M unit :=
  let len := to_int (Z.of_nat (length buf)) in
  _ ← write_int f len;
  if 0 <? len then write_full f (take (Z.to_nat len) buf)
  else mret tt.

(** ** file utils *)

(** What a path names when a process opens it for reading and the [open]
    returns.  An [open] that does not return (a FIFO without a writer) has
    no node: the caller says on which paths that happens, [io_hangs] below,
    and stops there. *)
Inductive node : Type :=
| Regular (bytes : list char)   (* opens and reads back [bytes] *)
| NoOpen                        (* exists, the stream fails to open *)
| NoRead.                       (* opens, reading from it fails *)

(** [std::to_string] on an integer: decimal digits with a leading minus
    sign for negatives. *)
Definition to_string (z : Z) : string := pretty z.

(** [write_file]: throws when the [ofstream] does not open; [open_ok]
    tells which paths open.  The text goes to procfs and cgroupfs control
    files, whose effect is in the kernel's later answers. *)
Definition write_file (open_ok : string -> bool) (path : string)
    (text : string) : result unit :=
  if open_ok path then Ok tt
  else Throw (runtime_error ("Failed to write text: " +:+ path)).

(** [read_file] and [read_bin_file]: what the call returns, for a path
    whose [open] returns. *)
Definition read_file (files : gmap string node) (path : string) : string :=
  match files !! path with
  | None | Some NoOpen => ""
  | Some (Regular bytes) => string_of_list_ascii bytes
  | Some NoRead => ""
  end.

Definition read_bin_file (files : gmap string node) (path : string)
    : list char :=
  match files !! path with
  | None | Some NoOpen => []
  | Some (Regular bytes) => bytes
  | Some NoRead => []
  end.

(** ** [get_cgroup_key] *)

(** [std::isspace] in the "C" locale. *)
Definition isspace (c : char) : bool :=
  let n := Z_of_char c in
  (n =? 32) || ((9 <=? n) && (n <=? 13)).

(** [operator>>(istream&, string&)]: skip leading whitespace, then take
    characters up to the next whitespace or the end of the stream; the
    extraction fails when no character is left after the skip. *)
Fixpoint skipws (ss : list char) : list char :=
  match ss with
  | [] => []
  | c :: ss' => if isspace c then skipws ss' else ss
  end.

Fixpoint word (ss : list char) : list char * list char :=
  match ss with
  | [] => ([], [])
  | c :: ss' =>
      if isspace c then ([], ss)
      else let '(w, r) := word ss' in (c :: w, r)
  end.

Definition extract (ss : list char) : option (string * list char) :=
  match skipws ss with
  | [] => None
  | c :: ss' => let '(w, r) := word ss' in Some (string_of_list_ascii (c :: w), r)
  end.

(** The loop [while (ss >> key >> val) { if (key == k) return val; }]
    followed by [return "0"], on the unread part [ss] of the stream. *)
Equations? get_cgroup_key_loop (ss : list char) (k : string) : string
  by wf (length ss) lt :=
  get_cgroup_key_loop ss k with inspect (extract ss) := {
    | exist _ None _ := "0"
    | exist _ (Some (key, ss1)) Hkey with inspect (extract ss1) := {
        | exist _ None _ := "0"
        | exist _ (Some (val, ss2)) Hval :=
            if String.eqb key k then val else get_cgroup_key_loop ss2 k } }.
Proof.
  assert (Hskip : forall s : list char, (length (skipws s) <= length s)%nat).
  { induction s as [|c s IH]; simpl; [lia|]. destruct (isspace c); simpl; lia. }
  assert (Hword : forall (s w r : list char),
             word s = (w, r) -> (length r <= length s)%nat).
  { induction s as [|c s IH]; simpl; intros w r H.
    - inversion H; simpl; lia.
    - destruct (isspace c).
      + inversion H; simpl; lia.
      + destruct (word s) as [w' r'] eqn:E. inversion H; subst.
        specialize (IH _ _ eq_refl). lia. }
  assert (Hext : forall (s : list char) x r,
             extract s = Some (x, r) -> (length r < length s)%nat).
  { intros s x r. unfold extract. specialize (Hskip s).
    destruct (skipws s) as [|c s'] eqn:E; [discriminate|].
    destruct (word s') as [w' r'] eqn:E'. intros H; inversion H; subst.
    apply Hword in E'. simpl in Hskip. lia. }
  apply Hext in Hkey, Hval. lia.
Qed.

Definition get_cgroup_key (s k : string) : string :=
  get_cgroup_key_loop (list_ascii_of_string s) k.

(** ** [std::stoll] and [std::stoi] *)

Definition digit_of (c : char) : option Z :=
  let n := Z_of_char c in
  if (48 <=? n) && (n <=? 57) then Some (n - 48) else None.

(** Value of the longest prefix of decimal digits, continuing [acc]. *)
Fixpoint digits_value (acc : Z) (ss : list char) : Z :=
  match ss with
  | [] => acc
  | c :: ss' =>
      match digit_of c with
      | Some d => digits_value (10 * acc + d) ss'
      | None => acc
      end
  end.

Definition unsigned_digits (ss : list char) : option Z :=
  match ss with
  | [] => None
  | c :: _ =>
      match digit_of c with
      | Some _ => Some (digits_value 0 ss)
      | None => None
      end
  end.

(** [strtol]/[strtoll] in base 10 without a range: leading whitespace, an
    optional sign, then at least one digit; what follows the digits is
    ignored.  [None]: no conversion could be performed. *)
Definition strtol_value (s : string) : option Z :=
  match skipws (list_ascii_of_string s) with
  | [] => None
  | c :: ss =>
      if Ascii.eqb c "-" then Z.opp <$> unsigned_digits ss
      else if Ascii.eqb c "+" then unsigned_digits ss
      else unsigned_digits (c :: ss)
  end.

Definition stoll (s : string) : result Z :=
  match strtol_value s with
  | None => Throw (invalid_argument "stoll")
  | Some v =>
      if (LLONG_MIN <=? v) && (v <=? LLONG_MAX) then Ok v
      else Throw (out_of_range "stoll")
  end.

Definition stoi (s : string) : result Z :=
  match strtol_value s with
  | None => Throw (invalid_argument "stoi")
  | Some v =>
      if (INT_MIN <=? v) && (v <=? INT_MAX) then Ok v
      else Throw (out_of_range "stoi")
  end.

(** ** Wait statuses and signals (Linux, glibc) *)

Definition WTERMSIG (status : Z) : Z := Z.land status 127.
Definition WIFEXITED (status : Z) : bool := WTERMSIG status =? 0.
Definition WEXITSTATUS (status : Z) : Z := Z.shiftr (Z.land status 65280) 8.

(** The status [waitpid] stores for a process that exited with [code]. *)
Definition W_EXITCODE (code : Z) : Z := Z.shiftl (Z.land code 255) 8.

Definition SIGKILL : Z := 9.
Definition WNOHANG : Z := 1.
Definition EAGAIN : Z := 11.

(** How a process ends: it returns from its entry function or calls
    [exit] (the value becomes the exit status), an exception no handler
    catches reaches [std::terminate], [execve] replaces its image, or it
    does not end because a call never returns. *)
Inductive outcome : Type :=
| Returned (code : Z)
| Terminated
| Replaced (argv : list string)
| Blocks.

(** ** sandbox: the executor *)

(** Process-control calls of the executor, in the order it issues them. *)
Inductive syscall : Type :=
| sys_fork
| sys_sigtimedwait (tv_sec tv_nsec : Z)
| sys_kill (pid sig : Z)
| sys_waitpid (pid options : Z).

(** Kernel answers to the executor. *)
Record executor_oracle : Type := mkExecutorOracle {
  xo_chdir : Z;             (* chdir to the scratch tmp *)
  xo_stdin_opens : bool;    (* whether the ofstream on "stdin" opens *)
  xo_barrier_read : Z;      (* read on the barrier pipe *)
  xo_sigprocmask : Z;
  xo_fork : Z;
  xo_sigtimedwait : Z;
  xo_errno : Z;             (* errno after a failed sigtimedwait *)
  xo_waitpid : Z;           (* waitpid(pid, &status, WNOHANG) *)
  xo_status : Z;            (* status stored by that waitpid *)
  xo_execve : Z             (* execve in the grandchild; it returns on failure only *)
}.

(** The [timespec] of the timed wait.  The sum is computed in [int]; on
    the target an overflowing sum wraps. *)
Definition executor_timeout (cfg : JudgeConfig) : Z * Z :=
  let time_limit_ms := to_int (time_limit cfg + EXTRA_TIME) in
  (Z.quot time_limit_ms 1000, to_int (Z.rem time_limit_ms 1000 * 1000000)).

(** [sandbox_executor]; [fork] answers 0 in the grandchild, which becomes
    the judged program, and the child's pid in the executor itself. *)
Definition sandbox_executor (o : executor_oracle) (cfg : JudgeConfig)
    : list syscall * outcome :=
  if negb (xo_chdir o =? 0) then ([], Returned 1)
  else if negb (xo_stdin_opens o) then ([], Terminated)
  else if xo_barrier_read o <=? 0 then ([], Returned 1)
  else if xo_sigprocmask o =? -1 then ([], Returned 1)
  else
    let pid := xo_fork o in
    if pid <? 0 then ([sys_fork], Returned 1)
    else if pid =? 0 then
      ([sys_fork],
       if xo_execve o <? 0 then Returned 1 else Replaced (cmdline cfg))
    else
      let '(tv_sec, tv_nsec) := executor_timeout cfg in
      let sig_ret := xo_sigtimedwait o in
      if sig_ret <? 0 then
        if xo_errno o =? EAGAIN then
          ([sys_fork; sys_sigtimedwait tv_sec tv_nsec;
            sys_kill pid SIGKILL; sys_waitpid pid 0], Returned 2)
        else
          ([sys_fork; sys_sigtimedwait tv_sec tv_nsec;
            sys_kill pid SIGKILL; sys_waitpid pid 0], Returned 1)
      else
        let status := xo_status o in
        let wait_ret := xo_waitpid o in
        if wait_ret =? pid then
          ([sys_fork; sys_sigtimedwait tv_sec tv_nsec;
            sys_waitpid pid WNOHANG],
           Returned (if WIFEXITED status
                     then (if WEXITSTATUS status =? 0 then 0 else 1)
                     else 3))
        else
          ([sys_fork; sys_sigtimedwait tv_sec tv_nsec;
            sys_waitpid pid WNOHANG; sys_kill pid SIGKILL], Returned 1).

(** ** sandbox: the container init *)

#[global] Instance result_ret : MRet result := fun A a => Ok a.
#[global] Instance result_bind : MBind result := fun A B f r =>
  match r with
  | Ok a => f a
  | Throw e => Throw e
  | Blocked => Blocked
  end.

Definition sandbox_root (cfg : JudgeConfig) : string :=
  "/tmp/judger_sandbox_" +:+ sandbox_id cfg.
Definition tmp_path (cfg : JudgeConfig) : string :=
  sandbox_root cfg +:+ "/tmp".
Definition cgroup_path (cfg : JudgeConfig) : string :=
  cgroup cfg +:+ "/judge." +:+ sandbox_id cfg.

(** Kernel answers to the container init, and the files it finds once
    the executor has exited.  [io_hangs] tells the paths on which an [open]
    does not return: a FIFO whose other end nobody holds, which the judged
    program can leave behind under any name it can write. *)
Record init_oracle : Type := mkInitOracle {
  io_barrier_read : Z;
  io_sethostname : Z;
  io_mount_private : Z;
  io_mkdir_root : Z;
  io_mount_bind : Z;
  io_mount_readonly : Z;
  io_mount_tmpfs : Z;
  io_input_written : string -> bool;  (* whether write_bin_file succeeds *)
  io_mkdir_cgroup : Z;
  io_pipe2 : Z;
  io_opens : string -> bool;          (* whether an ofstream on the path opens *)
  io_clone : Z;
  io_status : Z;                      (* status stored by waitpid(exec_pid) *)
  io_files : gmap string node;
  io_hangs : string -> bool;          (* whether an [open] of the path never
                                         returns *)
  io_rmdir_cgroup : Z;
  io_umount_tmp : Z;
  io_umount_root : Z;
  io_rmdir_root : Z
}.

(** [mkdir] and [rmdir] change the directory set when the call succeeds. *)
Definition mkdir (path : string) (ret : Z) (w : world) : world :=
  if ret =? 0 then set_dirs ({[path]} ∪ w_dirs w) w else w.
Definition rmdir (path : string) (ret : Z) (w : world) : world :=
  if ret =? 0 then set_dirs (w_dirs w ∖ {[path]}) w else w.

(** Lines 352-354: the executor's exit code. *)
Definition exit_code_of (status : Z) : Z :=
  if WIFEXITED status then WEXITSTATUS status else 255.

(** Lines 364-371: the verdict of an exit code. *)
Definition verdict_of_exit_code (exit_code : Z) : Verdict :=
  if exit_code =? 0 then VERDICT_OK
  else if exit_code =? 1 then VERDICT_RE
  else if exit_code =? 2 then VERDICT_TLE
  else VERDICT_UKE.

(** Lines 373-376: the two overrides, in source order. *)
Definition override_verdict (v : Verdict) (oom time time_limit : Z) : Verdict :=
  let v := if negb (oom =? 0) then VERDICT_MLE else v in
  let v := if time >? time_limit then VERDICT_TLE else v in
  v.

(** Lines 381-384. *)
Definition collect_output_files (files : gmap string node) (tmp : string)
    (names : list string) : list FileInfo :=
  (fun fname => mkFileInfo fname (read_bin_file files (tmp +:+ "/" +:+ fname)) 0)
    <$> names.

(** Lines 348-384: the result record, from the executor's wait status and
    the files found.  [stoll] and [stoi] may throw. *)
Definition collect_result (cfg : JudgeConfig) (status : Z)
    (files : gmap string node) : result JudgeResult :=
  let exit_code := exit_code_of status in
  let cpu_stat := read_file files (cgroup_path cfg +:+ "/cpu.stat") in
  let mem_peak := read_file files (cgroup_path cfg +:+ "/memory.peak") in
  let mem_events := read_file files (cgroup_path cfg +:+ "/memory.events") in
  usec ← stoll (get_cgroup_key cpu_stat "user_usec");
  let res_time := to_int (Z.quot usec 1000) in
  peak ← (if String.eqb mem_peak "" then Ok 0 else stoll mem_peak);
  let res_memory := Z.quot (Z.quot peak 1024) 1024 in
  oom ← stoi (get_cgroup_key mem_events "oom_kill");
  let res_verdict :=
    override_verdict (verdict_of_exit_code exit_code) oom res_time
                     (time_limit cfg) in
  mret (mkJudgeResult (Verdict_value res_verdict) res_time res_memory
          (read_file files (tmp_path cfg +:+ "/stdout"))
          (read_file files (tmp_path cfg +:+ "/stderr"))
          (collect_output_files files (tmp_path cfg) (output_filenames cfg))).

(** An [open] that does not return keeps the caller waiting; [r] is what
    the call gives otherwise. *)
Definition opening {A : Type} (o : init_oracle) (path : string)
    (r : result A) : result A :=
  if io_hangs o path then Blocked else r.

(** [write_file] on a path of the cgroup directory. *)
Definition write_file_at (o : init_oracle) (path : string) (text : string)
    : result unit :=
  opening o path (write_file (io_opens o) path text).

(** Lines 302-308: the input files are created one after the other, up to
    the first that cannot be. *)
Fixpoint write_input_files (o : init_oracle) (tmp : string)
    (fs : list FileInfo) : result unit :=
  match fs with
  | [] => Ok tt
  | x :: fs' =>
      _ ← opening o (tmp +:+ "/" +:+ filename x)
            (if io_input_written o (tmp +:+ "/" +:+ filename x) then Ok tt
             else Throw (runtime_error "Failed to create file"));
      write_input_files o tmp fs'
  end.

(** The files opened at lines 356-358, and those opened at lines 378-384,
    in the order of the calls. *)
Definition counter_paths (cfg : JudgeConfig) : list string :=
  [cgroup_path cfg +:+ "/cpu.stat"; cgroup_path cfg +:+ "/memory.peak";
   cgroup_path cfg +:+ "/memory.events"].
Definition capture_paths (cfg : JudgeConfig) : list string :=
  [tmp_path cfg +:+ "/stdout"; tmp_path cfg +:+ "/stderr"]
  ++ ((fun fname => tmp_path cfg +:+ "/" +:+ fname) <$> output_filenames cfg).

(** Lines 401-404. *)
Fixpoint write_output_files (f : fd) (fs : list FileInfo) : M unit :=
  match fs with
  | [] => mret tt
  | x :: fs' =>
      _ ← write_proto_str f (filename x);
      _ ← write_proto_buf f (content x);
      write_output_files f fs'
  end.

(** Lines 392-404. *)
Definition write_result (f : fd) (res : JudgeResult) : M unit :=
  _ ← write_int f (verdict res);
  _ ← write_int f (time res);
  _ ← write_llong f (memory res);
  _ ← write_proto_str f (stdout_content res);
  _ ← write_proto_str f (stderr_content res);
  _ ← write_int f (to_int (Z.of_nat (length (output_files res))));
  write_output_files f (output_files res).

Definition container_init (o : init_oracle) (cfg : JudgeConfig) (w : world)
    : outcome * world :=
  if io_barrier_read o <=? 0 then (Returned 1, w)
  else if negb (io_sethostname o =? 0) || negb (io_mount_private o =? 0)
  then (Returned 1, w)
  else
    let w := mkdir (sandbox_root cfg) (io_mkdir_root o) w in
    if negb (io_mount_bind o =? 0) || negb (io_mount_readonly o =? 0)
    then (Returned 1, w)
    else if negb (io_mount_tmpfs o =? 0) then (Returned 1, w)
    else
      match write_input_files o (tmp_path cfg) (input_files cfg) with
      | Blocked => (Blocks, w)
      | Throw _ => (Returned 1, w)
      | Ok _ =>
      let w := mkdir (cgroup_path cfg) (io_mkdir_cgroup o) w in
      if io_pipe2 o =? -1 then (Returned 1, w)
      else
        match
          _ ← write_file_at o (cgroup_path cfg +:+ "/cpu.max")
                "100000 100000";
          _ ← write_file_at o (cgroup_path cfg +:+ "/pids.max")
                (to_string (pids_limit cfg));
          _ ← write_file_at o (cgroup_path cfg +:+ "/memory.max")
                (to_string (to_llong (memory_limit cfg * 1024 * 1024)));
          write_file_at o (cgroup_path cfg +:+ "/memory.swap.max") "0"
        with
        | Blocked => (Blocks, w)
        | Throw _ => (Returned 1, w)
        | Ok _ =>
            let exec_pid := io_clone o in
            if exec_pid <? 0 then (Returned 1, w)
            else
              match write_file_at o (cgroup_path cfg +:+ "/cgroup.procs")
                      (to_string exec_pid) with
              | Blocked => (Blocks, w)
              | Throw _ => (Terminated, w)
              | Ok _ =>
                  (* lines 356-358 *)
                  if existsb (io_hangs o) (counter_paths cfg) then (Blocks, w)
                  else
                  match collect_result cfg (io_status o) (io_files o) with
                  | Throw _ | Blocked => (Terminated, w)
                  | Ok res =>
                      (* lines 378-384, reached once lines 360-362 have not
                         thrown *)
                      if existsb (io_hangs o) (capture_paths cfg)
                      then (Blocks, w)
                      else
                      let w := rmdir (cgroup_path cfg) (io_rmdir_cgroup o) w in
                      (* a directory that is still a mount point cannot
                         be removed *)
                      let w := rmdir (sandbox_root cfg)
                                 (if (io_umount_tmp o =? 0)
                                     && (io_umount_root o =? 0)
                                  then io_rmdir_root o else -1) w in
                      match write_result RESULT_W res w with
                      | (Throw _, w) => (Terminated, w)
                      | (Blocked, w) => (Blocks, w)
                      | (Ok _, w) => (Returned 0, w)
                      end
                  end
              end
        end
      end.

(** ** The supervisor *)

Definition lift {A : Type} (r : result A) : M A := fun w => (r, w).

(** [for (int i = 0; i < count; ++i) v.push_back(read_proto_str(0))] *)
Fixpoint read_strings (f : fd) (n : nat) : M (list string) :=
  match n with
  | O => mret []
  | S n' =>
      s ← read_proto_str f;
      rest ← read_strings f n';
      mret (s :: rest)
  end.

(** [int sz; read_full(.., &sz, ..); v.resize(sz); if (sz > 0) read_full(..)]:
    a negative [sz] becomes a [size_t] beyond [max_size()]. *)
Definition read_sized_buf (f : fd) : M (list char) :=
  sz ← read_int f;
  if sz <? 0 then throw vector_length_error
  else if 0 <? sz then read_full f (Z.to_nat sz)
  else mret [].

Fixpoint read_input_files (f : fd) (n : nat) : M (list FileInfo) :=
  match n with
  | O => mret []
  | S n' =>
      name ← read_proto_str f;
      bytes ← read_sized_buf f;
      md ← read_int f;
      rest ← read_input_files f n';
      mret (mkFileInfo name bytes md :: rest)
  end.

(** Lines 498-507.  The source leaves [f.mode] uninitialised here and never
    reads it; the embedding fills it with 0. *)
Fixpoint read_out_files (f : fd) (n : nat) : M (list FileInfo) :=
  match n with
  | O => mret []
  | S n' =>
      name ← read_proto_str f;
      bytes ← read_sized_buf f;
      rest ← read_out_files f n';
      mret (mkFileInfo name bytes 0 :: rest)
  end.

(** Lines 414-445. *)
Definition read_config : M JudgeConfig :=
  tl ← read_int STDIN;
  ml ← read_llong STDIN;
  pl ← read_int STDIN;
  rfs ← read_proto_str STDIN;
  tsz ← read_proto_str STDIN;
  cg ← read_proto_str STDIN;
  sid ← read_proto_str STDIN;
  sin ← read_proto_str STDIN;
  count ← read_int STDIN;
  cmd ← read_strings STDIN (Z.to_nat count);
  count ← read_int STDIN;
  ins ← read_input_files STDIN (Z.to_nat count);
  count ← read_int STDIN;
  outs ← read_strings STDIN (Z.to_nat count);
  mret (mkJudgeConfig tl ml pl rfs tsz cg sid sin cmd ins outs).

(** Lines 487-507: the frame read back from the result pipe (the response
    frame has the same layout). *)
Definition read_frame (f : fd) : M (JudgeResult * Z) :=
  v ← read_int f;
  t ← read_int f;
  m ← read_llong f;
  stdout_str ← read_proto_str f;
  stderr_str ← read_proto_str f;
  file_cnt ← read_int f;
  out_files ← read_out_files f (Z.to_nat file_cnt);
  mret (mkJudgeResult v t m stdout_str stderr_str out_files, file_cnt).

(** Lines 509-519. *)
Definition write_frame (f : fd) (res : JudgeResult) (file_cnt : Z) : M unit :=
  _ ← write_int f (verdict res);
  _ ← write_int f (time res);
  _ ← write_llong f (memory res);
  _ ← write_proto_str f (stdout_content res);
  _ ← write_proto_str f (stderr_content res);
  _ ← write_int f file_cnt;
  write_output_files f (output_files res).

(** Kernel answers to the supervisor, and those to the container init it
    clones. *)
Record supervisor_oracle : Type := mkSupervisorOracle {
  so_pipe2_barrier : Z;
  so_pipe2_result : Z;
  so_clone : Z;
  so_opens : string -> bool;   (* whether an ofstream on the path opens *)
  so_uid : Z;
  so_gid : Z;
  so_init : init_oracle
}.

(** The container init runs between the barrier write and the return of
    [waitpid(ns_pid)]; the supervisor ignores its status, and waits for as
    long as the container init does not end. *)
Definition run_container_init (o : init_oracle) (cfg : JudgeConfig) : M unit :=
  fun w =>
    match container_init o cfg w with
    | (Blocks, w') => (Blocked, w')
    | (_, w') => (Ok tt, w')
    end.

(** Lines 414-507 of the [try] block of [main]: everything up to the
    result frame read back from the pipe.  When an ID-map write throws, the
    inner handler kills the container init, which is still blocked on the
    barrier, and rethrows. *)
Definition main_gather (o : supervisor_oracle) : M (JudgeResult * Z) :=
  cfg ← read_config;
  _ ← (if so_pipe2_barrier o <? 0 then throw (runtime_error "pipe") else mret tt);
  _ ← (if so_pipe2_result o <? 0 then throw (runtime_error "pipe") else mret tt);
  let ns_pid := so_clone o in
  _ ← (if ns_pid <? 0 then throw (runtime_error "clone failed") else mret tt);
  _ ← lift (write_file (so_opens o)
              ("/proc/" +:+ to_string ns_pid +:+ "/setgroups") "deny");
  _ ← lift (write_file (so_opens o)
              ("/proc/" +:+ to_string ns_pid +:+ "/uid_map")
              ("0 " +:+ to_string (so_uid o) +:+ " 1"));
  _ ← lift (write_file (so_opens o)
              ("/proc/" +:+ to_string ns_pid +:+ "/gid_map")
              ("0 " +:+ to_string (so_gid o) +:+ " 1"));
  _ ← run_container_init (so_init o) cfg;
  read_frame RESULT_R.

(** The [try] block of [main]: lines 414-507, then the output of lines
    509-519. *)
Definition main_try (o : supervisor_oracle) : M unit :=
  '(res, file_cnt) ← main_gather o;
  write_frame STDOUT res file_cnt.

(** The [catch (const std::exception &e)] block of [main]. *)
Definition main_catch (e : exn) : M unit :=
  let msg := "Internal Error: " +:+ what e in
  _ ← write_int STDOUT (Verdict_value VERDICT_UKE);
  _ ← write_int STDOUT 0;
  _ ← write_llong STDOUT 0;
  _ ← write_proto_str STDOUT "";
  _ ← write_proto_str STDOUT msg;
  write_int STDOUT 0.

(** [main]: an exception thrown inside the handler is caught by nobody. *)
Definition main (o : supervisor_oracle) (w : world) : outcome * world :=
  match main_try o w with
  | (Ok _, w') => (Returned 0, w')
  | (Throw e, w') =>
      match main_catch e w' with
      | (Ok _, w'') => (Returned 1, w'')
      | (Throw _, w'') => (Terminated, w'')
      | (Blocked, w'') => (Blocks, w'')
      end
  | (Blocked, w') => (Blocks, w')
  end.

(** The capacity of a pipe on Linux, unless it was changed: the most
    bytes it holds, reached when every buffer is full. *)
Definition PIPE_CAPACITY : N := 65536.

(** A world at the start of a request: the request bytes wait on
    descriptor 0, nothing was written yet, and the result pipe is a fresh
    pipe. *)
Definition initial_world (request : list char) (room : option N)
    (dirs : gset string) : world :=
  mkWorld request [] (Some PIPE_CAPACITY) [] room O dirs.

(** ** The loops over [read] and [write], call by call *)

Definition EINTR : Z := 4.

(** What the kernel answers to one [read] or [write] call: it transfers
    up to [n] bytes, never more than the call asks for, and returns their
    number; or it returns -1 and sets [errno]. *)
Inductive io_answer : Type :=
| io_bytes (n : nat)
| io_error (errno : Z).

(** [write_full], lines 69-80, against the answers to its successive
    [write] calls.  [total] is the loop variable and [out] what the
    descriptor took so far.  [None]: the loop is still running when the
    answers end. *)
Fixpoint write_full_loop (answers : list io_answer) (buf : list char)
    (total : nat) (out : list char) : option (result unit) * list char :=
  if decide (total < length buf)%nat then
    match answers with
    | [] => (None, out)
    | io_bytes n :: answers' =>
        let ret := Nat.min n (length buf - total) in
        write_full_loop answers' buf (total + ret)
                        (out ++ take ret (drop total buf))
    | io_error errno :: answers' =>
        if errno =? EINTR then write_full_loop answers' buf total out
        else (Some (Throw (runtime_error "Write failed")), out)
    end
  else (Some (Ok tt), out).

(** [read_full], lines 82-93, against the answers to its successive [read]
    calls on a stream that still holds [src]; a call returns 0 at the end
    of the stream, and leaves [errno] as it was when it does not fail.
    [got] is [buf[0..total)]. *)
Fixpoint read_full_loop (answers : list io_answer) (errno : Z)
    (src : list char) (size : nat) (got : list char)
    : option (result (list char)) * list char :=
  if decide (length got < size)%nat then
    match answers with
    | [] => (None, src)
    | io_bytes n :: answers' =>
        let ret := Nat.min n (Nat.min (size - length got) (length src)) in
        match ret with
        | O =>
            if errno =? EINTR then read_full_loop answers' errno src size got
            else (Some (Throw (runtime_error "Read failed or EOF")), src)
        | S _ =>
            read_full_loop answers' errno (drop ret src) size
                           (got ++ take ret src)
        end
    | io_error e :: answers' =>
        if e =? EINTR then read_full_loop answers' e src size got
        else (Some (Throw (runtime_error "Read failed or EOF")), src)
    end
  else (Some (Ok got), src).







(** ** The result pipe, buffer by buffer *)

(** A pipe of Linux is a ring of [PIPE_SLOTS] buffers of one page each.
    What a blocking [write] finds room for depends on how the earlier
    writes were laid out in the buffers: on the slots still free and on
    where the data of the newest buffer ends in its page ([None]: the pipe
    is empty).  Nothing is read from the result pipe before the container
    init has exited, so no slot is given back while it writes. *)
Definition PAGE_SIZE : N := 4096.
Definition PIPE_SLOTS : N := 16.

Record pipe : Type := mkPipe {
  p_free : N;
  p_newest : option N
}.

Definition fresh_pipe : pipe := mkPipe PIPE_SLOTS None.

(** The kernel's [pipe_write] for one blocking [write] of [n] bytes, [0 < n].
    The bytes beyond whole pages join the newest buffer when they fit in
    what is left of its page; every other piece of up to a page takes a
    free slot.  [None]: the writer finds no free slot and waits. *)
Definition pipe_write (p : pipe) (n : N) : option pipe :=
  let chars := (n mod PAGE_SIZE)%N in
  let merged :=
    match p_newest p with
    | Some e =>
        if (0 <? chars)%N && (e + chars <=? PAGE_SIZE)%N
        then Some (e + chars)%N else None
    | None => None
    end in
  match merged with
  | Some e =>
      let pages := ((n - chars) / PAGE_SIZE)%N in
      if (pages =? 0)%N then Some (mkPipe (p_free p) (Some e))
      else if (pages <=? p_free p)%N
           then Some (mkPipe (p_free p - pages) (Some PAGE_SIZE))
           else None
  | None =>
      let pages := ((n + PAGE_SIZE - 1) / PAGE_SIZE)%N in
      if (pages <=? p_free p)%N
      then Some (mkPipe (p_free p - pages)
                        (Some (n - (pages - 1) * PAGE_SIZE)%N))
      else None
  end.

(** Whether the pipe takes a sequence of [write_full] calls of these sizes
    without making the writer wait; [write_full] of no bytes calls [write]
    not at all. *)
Fixpoint pipe_takes (p : pipe) (sizes : list N) : bool :=
  match sizes with
  | [] => true
  | n :: sizes' =>
      if (n =? 0)%N then pipe_takes p sizes'
      else match pipe_write p n with
           | Some p' => pipe_takes p' sizes'
           | None => false
           end
  end.

(** The bytes a pipe in this state still holds at most. *)
Definition pipe_room (p : pipe) : N :=
  (PAGE_SIZE * p_free p
   + match p_newest p with Some e => PAGE_SIZE - e | None => 0 end)%N.

(** ** Pure views used in the statements *)

(** In a buffer the data ends within the page. *)
Definition pipe_wf (p : pipe) : Prop :=
  match p_newest p with
  | Some e => (e <= PAGE_SIZE)%N
  | None => True
  end.

(** There is room for [n] more bytes. *)
Definition has_room (room : option N) (n : nat) : Prop :=
  match room with
  | None => True
  | Some c => (N.of_nat n <= c)%N
  end.

(** Descriptor [f] of [w] takes [n] more bytes; a descriptor that is not
    open for writing takes none. *)
Definition accepts (f : fd) (w : world) (n : nat) : Prop :=
  match f with
  | STDOUT => has_room (w_stdout_room w) n
  | RESULT_W => has_room (w_result_room w) n
  | STDIN | RESULT_R => n = O
  end.

(** [w] after [buf] went out through such a descriptor. *)
Definition emit (f : fd) (buf : list char) (w : world) : world :=
  match f with
  | STDOUT =>
      set_stdout (w_stdout w ++ buf)
                 (less_room (w_stdout_room w) (length buf)) w
  | RESULT_W =>
      set_result (w_result w ++ buf)
                 (less_room (w_result_room w) (length buf)) w
  | STDIN | RESULT_R => w
  end.

(** What a write ends in when the descriptor does not take the bytes. *)
Definition write_failure (f : fd) : result unit :=
  match f with
  | RESULT_W => Blocked
  | STDIN | STDOUT | RESULT_R => Throw (runtime_error "Write failed")
  end.

(** [m] writes exactly [bs] to [f]: it succeeds when [f] takes that many
    bytes, and otherwise fails the way a write on [f] fails. *)
Definition writes (f : fd) (bs : list char) (m : M unit) : Prop :=
  forall w,
    (accepts f w (length bs) -> m w = (Ok tt, emit f bs w)) /\
    (~ accepts f w (length bs) -> exists w', m w = (write_failure f, w')).

(** A computation that leaves descriptor 1 as it found it. *)
Definition keeps_stdout {A : Type} (m : M A) : Prop :=
  forall w r w',
    m w = (r, w') ->
    w_stdout w' = w_stdout w /\ w_stdout_room w' = w_stdout_room w.

(** The bytes [write_proto_str] hands to [write_full] for [s]. *)
Definition proto_str_bytes (s : string) : list char :=
  let len := to_int (Z.of_nat (String.length s)) in
  le_bytes sizeof_int len
  ++ (if 0 <? len then take (Z.to_nat len) (list_ascii_of_string s) else []).

(** The bytes [write_proto_buf] hands to [write_full] for [buf]. *)
Definition proto_buf_bytes (buf : list char) : list char :=
  let len := to_int (Z.of_nat (length buf)) in
  le_bytes sizeof_int len ++ (if 0 <? len then take (Z.to_nat len) buf else []).

(** The reading of a cgroup file in the specification's words: the
    whitespace-separated fields of the file, taken two by two as key and
    value; the value of the first pair with key [k], and ["0"] when no pair
    has that key. *)
Fixpoint fields (ss : list char) : list (list char) :=
  match ss with
  | [] => []
  | c :: ss' =>
      if isspace c then fields ss'
      else
        match ss' with
        | [] => [[c]]
        | c' :: _ =>
            if isspace c' then [c] :: fields ss'
            else match fields ss' with
                 | [] => [[c]]
                 | t :: ts => (c :: t) :: ts
                 end
        end
  end.

Fixpoint key_value_pairs (fs : list (list char)) : list (string * string) :=
  match fs with
  | key :: val :: fs' =>
      (string_of_list_ascii key, string_of_list_ascii val) :: key_value_pairs fs'
  | _ => []
  end.

Fixpoint first_value (kvs : list (string * string)) (k : string) : string :=
  match kvs with
  | [] => "0"
  | (key, val) :: kvs' => if String.eqb key k then val else first_value kvs' k
  end.

Definition spec_cgroup_value (s k : string) : string :=
  first_value (key_value_pairs (fields (list_ascii_of_string s))) k.

(** The bytes [write_output_files] hands to [write_full]: for each entry
    its name, then its content; the [mode] field is not written. *)
Definition output_files_bytes (fs : list FileInfo) : list char :=
  flat_map (fun x => proto_str_bytes (filename x) ++ proto_buf_bytes (content x))
           fs.

(** The bytes [write_result] hands to [write_full]. *)
Definition result_bytes (res : JudgeResult) : list char :=
  le_bytes sizeof_int (verdict res)
  ++ le_bytes sizeof_int (time res)
  ++ le_bytes sizeof_llong (memory res)
  ++ proto_str_bytes (stdout_content res)
  ++ proto_str_bytes (stderr_content res)
  ++ le_bytes sizeof_int (to_int (Z.of_nat (length (output_files res))))
  ++ output_files_bytes (output_files res).

(** The buffers of the successive [write_full] calls of [write_proto_str],
    of [write_proto_buf] and of lines 393-404. *)
Definition proto_str_chunks (s : string) : list (list char) :=
  let len := to_int (Z.of_nat (String.length s)) in
  le_bytes sizeof_int len
  :: (if 0 <? len then [take (Z.to_nat len) (list_ascii_of_string s)] else []).

Definition proto_buf_chunks (buf : list char) : list (list char) :=
  let len := to_int (Z.of_nat (length buf)) in
  le_bytes sizeof_int len :: (if 0 <? len then [take (Z.to_nat len) buf] else []).

Definition result_chunks (res : JudgeResult) : list (list char) :=
  [le_bytes sizeof_int (verdict res); le_bytes sizeof_int (time res);
   le_bytes sizeof_llong (memory res)]
  ++ proto_str_chunks (stdout_content res)
  ++ proto_str_chunks (stderr_content res)
  ++ [le_bytes sizeof_int (to_int (Z.of_nat (length (output_files res))))]
  ++ flat_map (fun x => proto_str_chunks (filename x)
                        ++ proto_buf_chunks (content x))
              (output_files res).

(** One [write_full] per buffer. *)
Fixpoint write_chunks (f : fd) (chunks : list (list char)) : M unit :=
  match chunks with
  | [] => mret tt
  | c :: chunks' => _ ← write_full f c; write_chunks f chunks'
  end.

(** A fresh pipe takes the result frame of [res], written the way
    [write_result] writes it, without making the writer wait. *)
Definition pipe_fits (res : JudgeResult) : Prop :=
  pipe_takes fresh_pipe ((fun c => N.of_nat (length c)) <$> result_chunks res)
  = true.


(** The bytes [write_frame] hands to [write_full]. *)
Definition frame_bytes (res : JudgeResult) (file_cnt : Z) : list char :=
  le_bytes sizeof_int (verdict res)
  ++ le_bytes sizeof_int (time res)
  ++ le_bytes sizeof_llong (memory res)
  ++ proto_str_bytes (stdout_content res)
  ++ proto_str_bytes (stderr_content res)
  ++ le_bytes sizeof_int file_cnt
  ++ output_files_bytes (output_files res).

(** The result the handler of [main] reports for the exception [e]. *)
Definition uke_result (e : exn) : JudgeResult :=
  mkJudgeResult (Verdict_value VERDICT_UKE) 0 0 ""
                ("Internal Error: " +:+ what e) [].

(** A request frame as a client lays it out, field by field in the order
    [read_config] reads them. *)
Definition request_bytes (cfg : JudgeConfig) : list char :=
  le_bytes sizeof_int (time_limit cfg)
  ++ le_bytes sizeof_llong (memory_limit cfg)
  ++ le_bytes sizeof_int (pids_limit cfg)
  ++ proto_str_bytes (rootfs cfg)
  ++ proto_str_bytes (tmpfs_size cfg)
  ++ proto_str_bytes (cgroup cfg)
  ++ proto_str_bytes (sandbox_id cfg)
  ++ proto_str_bytes (stdin_content cfg)
  ++ le_bytes sizeof_int (Z.of_nat (length (cmdline cfg)))
  ++ flat_map proto_str_bytes (cmdline cfg)
  ++ le_bytes sizeof_int (Z.of_nat (length (input_files cfg)))
  ++ flat_map (fun x => proto_str_bytes (filename x)
                        ++ proto_buf_bytes (content x)
                        ++ le_bytes sizeof_int (mode x))
              (input_files cfg)
  ++ le_bytes sizeof_int (Z.of_nat (length (output_filenames cfg)))
  ++ flat_map proto_str_bytes (output_filenames cfg).

(** Sizes and values that the frame's [int] and [long long] fields can
    carry. *)
Definition file_fits (x : FileInfo) : Prop :=
  Z.of_nat (String.length (filename x)) <= INT_MAX /\
  Z.of_nat (length (content x)) <= INT_MAX /\
  mode x = 0.

Definition result_fits (res : JudgeResult) : Prop :=
  INT_MIN <= verdict res <= INT_MAX /\
  INT_MIN <= time res <= INT_MAX /\
  LLONG_MIN <= memory res <= LLONG_MAX /\
  Z.of_nat (String.length (stdout_content res)) <= INT_MAX /\
  Z.of_nat (String.length (stderr_content res)) <= INT_MAX /\
  Z.of_nat (length (output_files res)) <= INT_MAX /\
  Forall file_fits (output_files res).


(** Every call of the container init up to the wait for the executor
    succeeds. *)
Definition init_calls_succeed (o : init_oracle) (cfg : JudgeConfig) : Prop :=
  0 < io_barrier_read o /\
  io_sethostname o = 0 /\ io_mount_private o = 0 /\
  io_mount_bind o = 0 /\ io_mount_readonly o = 0 /\ io_mount_tmpfs o = 0 /\
  forallb (fun x => io_input_written o (tmp_path cfg +:+ "/" +:+ filename x))
          (input_files cfg) = true /\
  io_pipe2 o <> -1 /\
  (forall path, io_opens o path = true) /\
  0 <= io_clone o.

(** The bytes a sequence of answers offers to move; an answer after which
    [write_full] calls [write] again; an answer that moves at least one
    byte. *)
Fixpoint offered (answers : list io_answer) : nat :=
  match answers with
  | [] => O
  | io_bytes n :: answers' => (n + offered answers')%nat
  | io_error _ :: answers' => offered answers'
  end.

Definition goes_on (a : io_answer) : bool :=
  match a with
  | io_bytes _ => true
  | io_error e => e =? EINTR
  end.

Definition transfers (a : io_answer) : bool :=
  match a with
  | io_bytes (S _) => true
  | io_bytes O | io_error _ => false
  end.

(** The bytes a read on [f] has before it. *)
Definition pending (f : fd) (w : world) : list char :=
  match f with
  | STDIN => w_stdin w
  | RESULT_R => w_result w
  | STDOUT | RESULT_W => []
  end.

(** What a read on [f] leaves as it was. *)
Definition others_kept (f : fd) (w w' : world) : Prop :=
  w_stdout w' = w_stdout w /\ w_stdout_room w' = w_stdout_room w /\
  w_dirs w' = w_dirs w /\
  match f with
  | STDIN => w_result w' = w_result w /\ w_result_room w' = w_result_room w
  | RESULT_R | STDOUT | RESULT_W => w_stdin w' = w_stdin w
  end.

(** [m] reads exactly [bs] from [f] and returns [a]: on any stream that
    starts with [bs] it succeeds and leaves what follows [bs]. *)
Definition reads_exactly {A : Type} (f : fd) (bs : list char) (a : A)
    (m : M A) : Prop :=
  forall w rest,
    pending f w = bs ++ rest ->
    exists w', m w = (Ok a, w') /\ pending f w' = rest /\ others_kept f w w'.

(** The exceptions the parsing of a frame can end in. *)
Definition parse_error (e : exn) : Prop :=
  e = runtime_error "Read failed or EOF" \/
  e = string_length_error \/ e = vector_length_error.

(** [m] only reads descriptor 0, and ends in a value or a [parse_error]. *)
Definition parses {A : Type} (m : M A) : Prop :=
  forall w r w',
    m w = (r, w') ->
    others_kept STDIN w w' /\
    match r with
    | Ok _ => True
    | Throw e => parse_error e
    | Blocked => False
    end.

(** Sizes and values that the request frame's fields can carry. *)
Definition string_fits (s : string) : Prop :=
  Z.of_nat (String.length s) <= INT_MAX.

Definition input_file_fits (x : FileInfo) : Prop :=
  string_fits (filename x) /\
  Z.of_nat (length (content x)) <= INT_MAX /\
  INT_MIN <= mode x <= INT_MAX.

Definition request_fits (cfg : JudgeConfig) : Prop :=
  INT_MIN <= time_limit cfg <= INT_MAX /\
  LLONG_MIN <= memory_limit cfg <= LLONG_MAX /\
  INT_MIN <= pids_limit cfg <= INT_MAX /\
  string_fits (rootfs cfg) /\ string_fits (tmpfs_size cfg) /\
  string_fits (cgroup cfg) /\ string_fits (sandbox_id cfg) /\
  string_fits (stdin_content cfg) /\
  Z.of_nat (length (cmdline cfg)) <= INT_MAX /\
  Forall string_fits (cmdline cfg) /\
  Z.of_nat (length (input_files cfg)) <= INT_MAX /\
  Forall input_file_fits (input_files cfg) /\
  Z.of_nat (length (output_filenames cfg)) <= INT_MAX /\
  Forall string_fits (output_filenames cfg).

(** Every call of the supervisor up to the barrier write succeeds. *)
Definition supervisor_calls_succeed (o : supervisor_oracle) : Prop :=
  0 <= so_pipe2_barrier o /\ 0 <= so_pipe2_result o /\ 0 <= so_clone o /\
  (forall path, so_opens o path = true).

(** The ID-map files of the container init, under [/proc/<pid>]. *)
Definition proc_path (pid : Z) (name : string) : string :=
  "/proc/" +:+ to_string pid +:+ "/" +:+ name.

(** A word of a cgroup file: not empty, no whitespace in it. *)
Definition is_token (s : string) : Prop :=
  s <> "" /\ forallb (fun c => negb (isspace c)) (list_ascii_of_string s) = true.

(** A flat-keyed cgroup file as the kernel prints it: one line per key,
    the key, a space, the value. *)
Fixpoint flat_keyed (kvs : list (string * string)) : string :=
  match kvs with
  | [] => ""
  | (k, v) :: kvs' => k +:+ " " +:+ v +:+ String "010"%char (flat_keyed kvs')
  end.

(** ** Concrete inputs *)

Definition cfg0 : JudgeConfig :=
  mkJudgeConfig 1000 64 16 "/srv/rootfs" "64M" "/sys/fs/cgroup/judge" "t1" ""
                ["/bin/true"] [] ["out.txt"].

Definition with_time_limit (t : Z) (cfg : JudgeConfig) : JudgeConfig :=
  mkJudgeConfig t (memory_limit cfg) (pids_limit cfg) (rootfs cfg)
                (tmpfs_size cfg) (cgroup cfg) (sandbox_id cfg)
                (stdin_content cfg) (cmdline cfg) (input_files cfg)
                (output_filenames cfg).

(** The judged program exits with code 0 before the deadline. *)
Definition xo_exit0 : executor_oracle :=
  mkExecutorOracle 0 true 1 0 7 17 0 7 0 0.

(** SIGCHLD arrives, but the non-blocking [waitpid] reports that the
    grandchild (pid 7) has not changed state. *)
Definition xo_race : executor_oracle :=
  mkExecutorOracle 0 true 1 0 7 17 0 0 0 0.

(** What the container init finds after a run of [cfg0] that used 1200 us
    of user CPU time and peaked at 3 MiB. *)
Definition files0 : gmap string node :=
  list_to_map
    [("/sys/fs/cgroup/judge/judge.t1/cpu.stat",
      Regular (list_ascii_of_string "usage_usec 1500
user_usec 1200
system_usec 300
"));
     ("/sys/fs/cgroup/judge/judge.t1/memory.peak",
      Regular (list_ascii_of_string "3145728
"));
     ("/sys/fs/cgroup/judge/judge.t1/memory.events",
      Regular (list_ascii_of_string "low 0
high 0
max 0
oom 0
oom_kill 0
"));
     ("/tmp/judger_sandbox_t1/tmp/stdout", Regular (list_ascii_of_string "hi"));
     ("/tmp/judger_sandbox_t1/tmp/stderr", Regular []);
     ("/tmp/judger_sandbox_t1/tmp/out.txt", Regular (list_ascii_of_string "42"))].

Definition res0 : JudgeResult :=
  mkJudgeResult 0 1 3 "hi" "" [mkFileInfo "out.txt" (list_ascii_of_string "42") 0].

(** The same run, except that the cgroup recorded one memory kill and
    2 000 000 us of user CPU time, twice the limit of [cfg0]. *)
Definition files_oom_slow : gmap string node :=
  <["/sys/fs/cgroup/judge/judge.t1/cpu.stat" :=
      Regular (list_ascii_of_string "user_usec 2000000
")]>
  (<["/sys/fs/cgroup/judge/judge.t1/memory.events" :=
      Regular (list_ascii_of_string "oom 1
oom_kill 1
")]> files0).

(** The same run with one memory kill and the CPU time of [files0]. *)
Definition files_oom : gmap string node :=
  <["/sys/fs/cgroup/judge/judge.t1/memory.events" :=
      Regular (list_ascii_of_string "oom 1
oom_kill 1
")]> files0.

(** Every call of the container init succeeds, the executor exits with
    status 0 and leaves [files0]. *)
Definition io_ok : init_oracle :=
  {| io_barrier_read := 1; io_sethostname := 0; io_mount_private := 0;
     io_mkdir_root := 0; io_mount_bind := 0; io_mount_readonly := 0;
     io_mount_tmpfs := 0; io_input_written := fun _ => true;
     io_mkdir_cgroup := 0; io_pipe2 := 0; io_opens := fun _ => true;
     io_clone := 5; io_status := 0; io_files := files0;
     io_rmdir_cgroup := 0; io_umount_tmp := 0; io_umount_root := 0;
     io_rmdir_root := 0;
     io_hangs := fun _ => false |}.

(** The bind mount of the root filesystem fails (for instance the [rootfs]
    path of the request does not exist); no later call is reached. *)
Definition io_bind_fails : init_oracle :=
  {| io_barrier_read := 1; io_sethostname := 0; io_mount_private := 0;
     io_mkdir_root := 0; io_mount_bind := -1; io_mount_readonly := 0;
     io_mount_tmpfs := 0; io_input_written := fun _ => true;
     io_mkdir_cgroup := 0; io_pipe2 := 0; io_opens := fun _ => true;
     io_clone := 5; io_status := 0; io_files := ∅;
     io_rmdir_cgroup := 0; io_umount_tmp := 0; io_umount_root := 0;
     io_rmdir_root := 0;
     io_hangs := fun _ => false |}.

(** The cgroup directory is created but its control files do not open
    (for instance a controller is not delegated). *)
Definition io_cgroup_write_fails : init_oracle :=
  {| io_barrier_read := 1; io_sethostname := 0; io_mount_private := 0;
     io_mkdir_root := 0; io_mount_bind := 0; io_mount_readonly := 0;
     io_mount_tmpfs := 0; io_input_written := fun _ => true;
     io_mkdir_cgroup := 0; io_pipe2 := 0; io_opens := fun _ => false;
     io_clone := 5; io_status := 0; io_files := ∅;
     io_rmdir_cgroup := 0; io_umount_tmp := 0; io_umount_root := 0;
     io_rmdir_root := 0;
     io_hangs := fun _ => false |}.

(** The run of [files0], except that the judged program printed as many
    bytes as a pipe holds. *)
Definition files_big : gmap string node :=
  <["/tmp/judger_sandbox_t1/tmp/stdout" :=
      Regular (repeat "a"%char (N.to_nat PIPE_CAPACITY))]> files0.

Definition io_big : init_oracle :=
  {| io_barrier_read := 1; io_sethostname := 0; io_mount_private := 0;
     io_mkdir_root := 0; io_mount_bind := 0; io_mount_readonly := 0;
     io_mount_tmpfs := 0; io_input_written := fun _ => true;
     io_mkdir_cgroup := 0; io_pipe2 := 0; io_opens := fun _ => true;
     io_clone := 5; io_status := 0; io_files := files_big;
     io_rmdir_cgroup := 0; io_umount_tmp := 0; io_umount_root := 0;
     io_rmdir_root := 0;
     io_hangs := fun _ => false |}.

Definition so_big : supervisor_oracle :=
  {| so_pipe2_barrier := 0; so_pipe2_result := 0; so_clone := 4;
     so_opens := fun _ => true; so_uid := 1000; so_gid := 1000;
     so_init := io_big |}.

(** Every call of the supervisor succeeds and so does the container init
    it clones. *)
Definition so_ok : supervisor_oracle :=
  {| so_pipe2_barrier := 0; so_pipe2_result := 0; so_clone := 4;
     so_opens := fun _ => true; so_uid := 1000; so_gid := 1000;
     so_init := io_ok |}.

(** A request waiting on descriptor 0 and a result pipe with room for 8
    more bytes: no result frame fits. *)
Definition narrow_world (request : list char) : world :=
  mkWorld request [] (Some 8%N) [] None O ∅.

(** The supervisor's calls succeed; the container init it clones fails to
    bind-mount the root filesystem. *)
Definition so_bind_fails : supervisor_oracle :=
  {| so_pipe2_barrier := 0; so_pipe2_result := 0; so_clone := 4;
     so_opens := fun _ => true; so_uid := 1000; so_gid := 1000;
     so_init := io_bind_fails |}.

(** The ID-map files of the container init do not open. *)
Definition so_no_id_map : supervisor_oracle :=
  {| so_pipe2_barrier := 0; so_pipe2_result := 0; so_clone := 4;
     so_opens := fun _ => false; so_uid := 1000; so_gid := 1000;
     so_init := io_ok |}.

(** The judged program (pid 7) is still running at the deadline. *)
Definition xo_timeout : executor_oracle :=
  mkExecutorOracle 0 true 1 0 7 (-1) EAGAIN 0 0 0.

(** The executor's [fork] returns 0: this is the grandchild, and its
    [execve] succeeds. *)
Definition xo_child : executor_oracle :=
  mkExecutorOracle 0 true 1 0 0 0 0 0 0 0.

(** A run that used 5 000 000 000 000 us of user CPU time, 5 000 000 000
    ms. *)
Definition files_long_run : gmap string node :=
  <["/sys/fs/cgroup/judge/judge.t1/cpu.stat" :=
      Regular (list_ascii_of_string "user_usec 5000000000000
")]> files0.



(** * Properties *)

(** ** Machine integers *)

Lemma Z_of_char_of_Z (z : Z) : Z_of_char (char_of_Z z) = z mod 256.
Proof.
  unfold Z_of_char, char_of_Z.
  assert (0 <= z mod 256 < 256) by (apply Z.mod_pos_bound; lia).
  rewrite N_ascii_embedding by lia. lia.
Qed.

Lemma le_bytes_length (n : nat) (z : Z) : length (le_bytes n z) = n.
Proof.
  revert z; induction n as [|n IH]; intros z; simpl; [reflexivity|].
  now rewrite IH.
Qed.

Lemma le_value_le_bytes (n : nat) (z : Z) :
  le_value (le_bytes n z) = z mod 256 ^ Z.of_nat n.
Proof.
  revert z; induction n as [|n IH]; intros z.
  - simpl. now rewrite Z.mod_1_r.
  - cbn [le_bytes le_value]. rewrite IH, Z_of_char_of_Z.
    rewrite Nat2Z.inj_succ, Z.pow_succ_r by lia.
    rewrite (Z.rem_mul_r z 256 (256 ^ Z.of_nat n)) by lia.
    reflexivity.
Qed.

Lemma sint_id (w z : Z) :
  0 < w -> - 2 ^ (w - 1) <= z < 2 ^ (w - 1) -> sint w z = z.
Proof.
  intros Hw Hz. unfold sint.
  assert (Hp : 2 ^ w = 2 * 2 ^ (w - 1)).
  { replace w with (Z.succ (w - 1)) at 1 by lia.
    rewrite Z.pow_succ_r by lia. reflexivity. }
  assert (Hpos2 : 0 < 2 ^ (w - 1)) by (apply Z.pow_pos_nonneg; lia).
  destruct (Z.ltb_spec (z mod 2 ^ w) (2 ^ (w - 1))) as [Hlt|Hge].
  - destruct (Z.lt_ge_cases z 0) as [Hneg|Hpos].
    + rewrite <- (Z.mod_add z 1 (2 ^ w)) in Hlt by lia.
      rewrite Z.mod_small in Hlt by lia. lia.
    + apply Z.mod_small. lia.
  - destruct (Z.lt_ge_cases z 0) as [Hneg|Hpos].
    + rewrite <- (Z.mod_add z 1 (2 ^ w)) by lia.
      rewrite Z.mod_small by lia. lia.
    + rewrite Z.mod_small in Hge by lia. lia.
Qed.

Lemma sint_mod (w z : Z) : 0 <= w -> sint w (z mod 2 ^ w) = sint w z.
Proof.
  intros Hw. unfold sint. now rewrite Z.mod_mod by (apply Z.pow_nonzero; lia).
Qed.

Lemma to_int_id (z : Z) : INT_MIN <= z <= INT_MAX -> to_int z = z.
Proof.
  unfold INT_MIN, INT_MAX, to_int. intros H. apply sint_id; simpl; lia.
Qed.

Lemma int_of_bytes_le_bytes (z : Z) :
  INT_MIN <= z <= INT_MAX -> int_of_bytes (le_bytes sizeof_int z) = z.
Proof.
  intros H. unfold int_of_bytes. rewrite le_value_le_bytes.
  change (256 ^ Z.of_nat sizeof_int) with (2 ^ 32).
  rewrite sint_mod by lia. now apply to_int_id.
Qed.

Lemma llong_of_bytes_le_bytes (z : Z) :
  LLONG_MIN <= z <= LLONG_MAX -> llong_of_bytes (le_bytes sizeof_llong z) = z.
Proof.
  unfold LLONG_MIN, LLONG_MAX. intros H.
  unfold llong_of_bytes. rewrite le_value_le_bytes.
  change (256 ^ Z.of_nat sizeof_llong) with (2 ^ 64).
  rewrite sint_mod by lia. apply sint_id; simpl; lia.
Qed.




(** ** Framing *)

Lemma list_ascii_of_string_length (s : string) :
  @length char (list_ascii_of_string s) = String.length s.
Proof.
  induction s as [|c s IH]; simpl; [reflexivity|]. now rewrite IH.
Qed.

Lemma string_length_0 (s : string) : String.length s = O -> s = "".
Proof. destruct s; [reflexivity|discriminate]. Qed.

Lemma string_append_length (a b : string) :
  String.length (a +:+ b) = (String.length a + String.length b)%nat.
Proof. induction a as [|c a IH]; simpl; [reflexivity|]. now rewrite IH. Qed.

Lemma read_from_app (bs rest : list char) :
  read_from (bs ++ rest) (length bs) = (Ok bs, rest).
Proof.
  unfold read_from. rewrite length_app.
  destruct (decide (length bs <= length bs + length rest)%nat) as [_|Hn]; [|lia].
  now rewrite take_app_length, drop_app_length.
Qed.

(** ** Writing *)

Lemma accepts_dec (f : fd) (w : world) (n : nat) :
  accepts f w n \/ ~ accepts f w n.
Proof.
  destruct f; cbn; try (destruct n; [now left|now right]);
    match goal with
    | |- context [has_room ?r _] => destruct r as [c|]; cbn; [lia|now left]
    end.
Qed.

Lemma accepts_le (f : fd) (w : world) (m n : nat) :
  accepts f w n -> (m <= n)%nat -> accepts f w m.
Proof.
  destruct f; cbn; try lia;
    match goal with
    | |- context [has_room ?r _] => destruct r as [c|]; cbn; [lia|auto]
    end.
Qed.

Lemma accepts_unlimited (w : world) (n : nat) :
  w_stdout_room w = None -> accepts STDOUT w n.
Proof. cbn. now intros ->. Qed.

Lemma accepts_emit (f : fd) (buf : list char) (w : world) (n : nat) :
  accepts f w (length buf) ->
  accepts f (emit f buf w) n <-> accepts f w (length buf + n).
Proof.
  destruct f; cbn.
  - lia.
  - destruct (w_stdout_room w) as [c|]; cbn; [lia|tauto].
  - lia.
  - destruct (w_result_room w) as [c|]; cbn; [lia|tauto].
Qed.

Lemma emit_emit (f : fd) (b1 b2 : list char) (w : world) :
  emit f b2 (emit f b1 w) = emit f (b1 ++ b2) w.
Proof.
  destruct f; destruct w as [i r rr o orr n d]; try reflexivity.
  - destruct orr as [c|]; unfold emit, set_stdout; cbn;
      rewrite <- app_assoc; [|reflexivity].
    rewrite length_app. do 2 f_equal. lia.
  - destruct rr as [c|]; unfold emit, set_result; cbn;
      rewrite <- app_assoc; [|reflexivity].
    rewrite length_app. do 2 f_equal. lia.
Qed.

Lemma emit_nil (f : fd) (w : world) : emit f [] w = w.
Proof.
  destruct f; destruct w as [i r rr o orr n d]; try reflexivity.
  - destruct orr as [c|]; unfold emit, set_stdout; cbn;
      rewrite app_nil_r; [|reflexivity].
    do 2 f_equal. lia.
  - destruct rr as [c|]; unfold emit, set_result; cbn;
      rewrite app_nil_r; [|reflexivity].
    do 2 f_equal. lia.
Qed.

Lemma writes_write_full (f : fd) (buf : list char) :
  writes f buf (write_full f buf).
Proof.
  intros w. destruct f; cbn.
  - destruct buf; cbn; split; try discriminate; try tauto; eauto.
  - destruct (w_stdout_room w) as [c|]; cbn; [|tauto].
    destruct (decide (N.of_nat (length buf) <= c)%N); split; try tauto; eauto.
  - destruct buf; cbn; split; try discriminate; try tauto; eauto.
  - destruct (w_result_room w) as [c|]; cbn; [|tauto].
    destruct (decide (N.of_nat (length buf) <= c)%N); split; try tauto; eauto.
Qed.

Lemma writes_ret (f : fd) : writes f [] (mret tt).
Proof.
  intros w. split.
  - intros _. now rewrite emit_nil.
  - intros H. exfalso. apply H. destruct f; cbn; try reflexivity;
      match goal with
      | |- has_room ?r _ => destruct r; cbn; [lia|exact I]
      end.
Qed.

Lemma writes_bind (f : fd) (b1 b2 : list char) (m1 m2 : M unit) :
  writes f b1 m1 -> writes f b2 m2 ->
  writes f (b1 ++ b2) (m1 ≫= fun _ => m2).
Proof.
  intros H1 H2 w. unfold mbind, M_bind. rewrite length_app.
  destruct (H1 w) as [Hok1 Hfail1].
  destruct (accepts_dec f w (length b1)) as [A1|A1].
  - rewrite (Hok1 A1). destruct (H2 (emit f b1 w)) as [Hok2 Hfail2].
    pose proof (accepts_emit f b1 w (length b2) A1) as E. split.
    + intros A. rewrite Hok2, emit_emit by tauto. reflexivity.
    + intros A. apply Hfail2. tauto.
  - destruct (Hfail1 A1) as (w' & ->). split.
    + intros A. exfalso. apply A1. eapply accepts_le; [exact A|lia].
    + intros _. exists w'. destruct f; reflexivity.
Qed.

Lemma writes_ext (f : fd) (b1 b2 : list char) (m : M unit) :
  writes f b1 m -> b1 = b2 -> writes f b2 m.
Proof. now intros H <-. Qed.

Lemma writes_write_proto_str (f : fd) (s : string) :
  writes f (proto_str_bytes s) (write_proto_str f s).
Proof.
  unfold write_proto_str, proto_str_bytes, write_int.
  apply writes_bind; [apply writes_write_full|].
  destruct (0 <? to_int (Z.of_nat (String.length s)));
    [apply writes_write_full|apply writes_ret].
Qed.

Lemma writes_write_proto_buf (f : fd) (buf : list char) :
  writes f (proto_buf_bytes buf) (write_proto_buf f buf).
Proof.
  unfold write_proto_buf, proto_buf_bytes, write_int.
  apply writes_bind; [apply writes_write_full|].
  destruct (0 <? to_int (Z.of_nat (length buf)));
    [apply writes_write_full|apply writes_ret].
Qed.

Lemma writes_write_output_files (f : fd) (fs : list FileInfo) :
  writes f (output_files_bytes fs) (write_output_files f fs).
Proof.
  induction fs as [|x fs IH]; cbn [write_output_files output_files_bytes flat_map].
  - apply writes_ret.
  - eapply writes_ext.
    + apply writes_bind; [apply writes_write_proto_str|].
      apply writes_bind; [apply writes_write_proto_buf|exact IH].
    + now rewrite <- app_assoc.
Qed.

Lemma writes_write_frame (f : fd) (res : JudgeResult) (file_cnt : Z) :
  writes f (frame_bytes res file_cnt) (write_frame f res file_cnt).
Proof.
  unfold write_frame, frame_bytes, write_int, write_llong.
  repeat (apply writes_bind;
          [first [apply writes_write_full|apply writes_write_proto_str]|]).
  apply writes_write_output_files.
Qed.

Lemma writes_write_result (f : fd) (res : JudgeResult) :
  writes f (result_bytes res) (write_result f res).
Proof.
  unfold write_result, result_bytes, write_int, write_llong.
  repeat (apply writes_bind;
          [first [apply writes_write_full|apply writes_write_proto_str]|]).
  apply writes_write_output_files.
Qed.

Lemma writes_main_catch (e : exn) :
  writes STDOUT (frame_bytes (uke_result e) 0) (main_catch e).
Proof.
  unfold main_catch, frame_bytes, write_int, write_llong.
  cbn [uke_result verdict time memory stdout_content stderr_content
       output_files output_files_bytes flat_map].
  rewrite app_nil_r.
  repeat (apply writes_bind;
          [first [apply writes_write_full|apply writes_write_proto_str]|]).
  apply writes_write_full.
Qed.

Lemma proto_str_bytes_fits (s : string) :
  Z.of_nat (String.length s) <= INT_MAX ->
  proto_str_bytes s
  = le_bytes sizeof_int (Z.of_nat (String.length s)) ++ list_ascii_of_string s.
Proof.
  intros H. unfold proto_str_bytes.
  rewrite to_int_id by (unfold INT_MIN; lia).
  destruct (Z.ltb_spec 0 (Z.of_nat (String.length s))) as [Hpos|Hz].
  - rewrite Nat2Z.id, <- list_ascii_of_string_length, firstn_all. reflexivity.
  - assert (String.length s = O) as E by lia.
    apply string_length_0 in E. subst s. reflexivity.
Qed.

Lemma proto_buf_bytes_fits (buf : list char) :
  Z.of_nat (length buf) <= INT_MAX ->
  proto_buf_bytes buf = le_bytes sizeof_int (Z.of_nat (length buf)) ++ buf.
Proof.
  intros H. unfold proto_buf_bytes.
  rewrite to_int_id by (unfold INT_MIN; lia).
  destruct (Z.ltb_spec 0 (Z.of_nat (length buf))) as [Hpos|Hz].
  - now rewrite Nat2Z.id, firstn_all.
  - destruct buf; [reflexivity|cbn [length] in Hz; lia].
Qed.

(** ** Reading *)

Lemma read_full_bytes (bs rest : list char) (w : world) :
  w_result w = bs ++ rest ->
  exists w',
    read_full RESULT_R (length bs) w = (Ok bs, w') /\
    w_result w' = rest /\ w_reads w' = S (w_reads w).
Proof.
  intros Hw. cbn [read_full]. cbn [w_result set_reads].
  rewrite Hw, read_from_app. eexists. repeat split.
Qed.

Lemma read_int_bytes (z : Z) (rest : list char) (w : world) :
  INT_MIN <= z <= INT_MAX ->
  w_result w = le_bytes sizeof_int z ++ rest ->
  exists w',
    read_int RESULT_R w = (Ok z, w') /\
    w_result w' = rest /\ w_reads w' = S (w_reads w).
Proof.
  intros Hz Hw. unfold read_int, mbind, M_bind, mret, M_ret.
  replace (read_full RESULT_R sizeof_int w)
    with (read_full RESULT_R (length (le_bytes sizeof_int z)) w)
    by now rewrite le_bytes_length.
  destruct (read_full_bytes _ _ w Hw) as (w' & -> & Hrest & Hreads).
  rewrite int_of_bytes_le_bytes by exact Hz. eauto.
Qed.

Lemma read_llong_bytes (z : Z) (rest : list char) (w : world) :
  LLONG_MIN <= z <= LLONG_MAX ->
  w_result w = le_bytes sizeof_llong z ++ rest ->
  exists w',
    read_llong RESULT_R w = (Ok z, w') /\
    w_result w' = rest /\ w_reads w' = S (w_reads w).
Proof.
  intros Hz Hw. unfold read_llong, mbind, M_bind, mret, M_ret.
  replace (read_full RESULT_R sizeof_llong w)
    with (read_full RESULT_R (length (le_bytes sizeof_llong z)) w)
    by now rewrite le_bytes_length.
  destruct (read_full_bytes _ _ w Hw) as (w' & -> & Hrest & Hreads).
  rewrite llong_of_bytes_le_bytes by exact Hz. eauto.
Qed.

(** Reading back, from any state of the pipe that starts with the bytes
    written for [s]: one [read_full] for the empty string, two otherwise. *)
Lemma read_proto_str_rest (s : string) (rest : list char) (w : world) :
  Z.of_nat (String.length s) <= INT_MAX ->
  w_result w = proto_str_bytes s ++ rest ->
  exists w',
    read_proto_str RESULT_R w = (Ok s, w') /\
    w_result w' = rest /\
    w_reads w' = (w_reads w + (if decide (s = "") then 1 else 2))%nat.
Proof.
  intros Hfit Hw.
  rewrite proto_str_bytes_fits, <- app_assoc in Hw by exact Hfit.
  unfold read_proto_str, mbind, M_bind.
  destruct (read_int_bytes (Z.of_nat (String.length s)) _ w
              ltac:(unfold INT_MIN; lia) Hw) as (w1 & -> & Hw1 & Hr1).
  destruct s as [|c s].
  - change (Z.of_nat (String.length "") =? 0) with true. cbv iota.
    exists w1. split; [reflexivity|]. split; [exact Hw1|].
    destruct (decide ("" = "")) as [_|Hn]; [lia|congruence].
  - cbn [String.length]. rewrite Nat2Z.inj_succ.
    destruct (Z.eqb_spec (Z.succ (Z.of_nat (String.length s))) 0); [lia|].
    destruct (Z.ltb_spec (Z.succ (Z.of_nat (String.length s))) 0); [lia|].
    rewrite <- Nat2Z.inj_succ, Nat2Z.id.
    change (S (String.length s)) with (String.length (String c s)).
    rewrite <- list_ascii_of_string_length.
    destruct (read_full_bytes (list_ascii_of_string (String c s)) rest w1 Hw1)
      as (w2 & Hread & Hw2 & Hr2).
    rewrite Hread.
    cbn [mret M_ret]. rewrite string_of_list_ascii_of_string.
    exists w2. split; [reflexivity|]. split; [exact Hw2|].
    destruct (decide (String c s = "")) as [Hn|_]; [discriminate|lia].
Qed.

Lemma proto_str_bytes_length (s : string) :
  Z.of_nat (String.length s) <= INT_MAX ->
  length (proto_str_bytes s) = (4 + String.length s)%nat.
Proof.
  intros H. rewrite proto_str_bytes_fits by exact H.
  now rewrite length_app, le_bytes_length, list_ascii_of_string_length.
Qed.

(** C10: for every string [s] whose length fits in a non-negative 32-bit
    [int], [write_proto_str] on a stream with room for it, followed by
    [read_proto_str] on the bytes written (whatever follows them in the
    stream), returns [s] unchanged.  The empty string is written as the four
    bytes of a zero length with no payload, and is read back with one
    [read_full] call, not two. *)
Theorem proto_str_roundtrip (s : string) (w : world) (rest : list char) :
  Z.of_nat (String.length s) <= INT_MAX ->
  w_result w = [] ->
  has_room (w_result_room w) (4 + String.length s) ->
  exists w1,
    write_proto_str RESULT_W s w = (Ok tt, w1) /\
    (exists w2,
        read_proto_str RESULT_R
          (set_result (w_result w1 ++ rest) (w_result_room w1) w1)
        = (Ok s, w2) /\
        w_result w2 = rest /\
        (s = "" -> w_reads w2 = S (w_reads w1))) /\
    (s = "" -> w_result w1 = ["000"; "000"; "000"; "000"]%char).
Proof.
  intros Hfit Hempty Hroom.
  destruct (writes_write_proto_str RESULT_W s w) as [Hwrite _].
  exists (emit RESULT_W (proto_str_bytes s) w).
  split; [apply Hwrite; cbn [accepts]; now rewrite proto_str_bytes_length|].
  split.
  - destruct (read_proto_str_rest s rest
                (set_result (w_result (emit RESULT_W (proto_str_bytes s) w)
                             ++ rest)
                            (w_result_room (emit RESULT_W (proto_str_bytes s) w))
                            (emit RESULT_W (proto_str_bytes s) w)) Hfit)
      as (w2 & Hread & Hrest & Hreads).
    { cbn. now rewrite Hempty. }
    exists w2. split; [exact Hread|]. split; [exact Hrest|].
    intros ->. rewrite Hreads. cbn [set_result w_reads emit].
    destruct (decide ("" = "")) as [_|Hn]; [lia|congruence].
  - intros ->. cbn. now rewrite Hempty.
Qed.

Lemma proto_str_roundtrip_witness :
  let w := initial_world [] None ∅ in
  exists w1,
    write_proto_str RESULT_W "ab" w = (Ok tt, w1) /\
    (exists w2,
        read_proto_str RESULT_R
          (set_result (w_result w1 ++ ["z"%char]) (w_result_room w1) w1)
        = (Ok "ab", w2) /\
        w_result w2 = ["z"%char] /\
        ("ab" = "" -> w_reads w2 = S (w_reads w1))) /\
    ("ab" = "" -> w_result w1 = ["000"; "000"; "000"; "000"]%char).
Proof.
  apply (proto_str_roundtrip "ab" (initial_world [] None ∅) ["z"%char]).
  - unfold INT_MAX. simpl. lia.
  - reflexivity.
  - cbn. unfold PIPE_CAPACITY. lia.
Defined.

(** ** The executor's timed wait *)

Lemma executor_timeout_spec (cfg : JudgeConfig) :
  0 <= time_limit cfg <= INT_MAX - EXTRA_TIME ->
  executor_timeout cfg
  = ((time_limit cfg + 1000) / 1000,
     ((time_limit cfg + 1000) mod 1000) * 1000000).
Proof.
  unfold executor_timeout. unfold INT_MAX, EXTRA_TIME. intros H. cbv zeta.
  rewrite (to_int_id (time_limit cfg + 1000)) by (unfold INT_MIN, INT_MAX; lia).
  rewrite Z.quot_div_nonneg, Z.rem_mod_nonneg by lia.
  assert (0 <= (time_limit cfg + 1000) mod 1000 < 1000)
    by (apply Z.mod_pos_bound; lia).
  rewrite to_int_id by (unfold INT_MIN, INT_MAX; lia).
  reflexivity.
Qed.

(** Every timed wait in the executor's trace carries [executor_timeout]. *)
Lemma sandbox_executor_timed_wait (o : executor_oracle) (cfg : JudgeConfig)
    (tv_sec tv_nsec : Z) :
  In (sys_sigtimedwait tv_sec tv_nsec) (fst (sandbox_executor o cfg)) ->
  (tv_sec, tv_nsec) = executor_timeout cfg.
Proof.
  unfold sandbox_executor.
  destruct (executor_timeout cfg) as [s n].
  repeat match goal with
         | |- context [if ?b then _ else _] => destruct b
         end; cbn; intros H;
    repeat (destruct H as [H|H]; try discriminate; try (now inversion H));
    contradiction.
Qed.

(** C7 (amended): for every [time_limit_ms] from 0 to [INT_MAX - 1000],
    the timeout of every timed wait the executor issues is exactly
    [time_limit_ms + 1000] milliseconds, split into
    [(time_limit_ms + 1000) / 1000] seconds and
    [((time_limit_ms + 1000) mod 1000) * 10^6] nanoseconds. *)
Theorem executor_timeout_in_range (o : executor_oracle) (cfg : JudgeConfig)
    (tv_sec tv_nsec : Z) :
  0 <= time_limit cfg <= INT_MAX - EXTRA_TIME ->
  In (sys_sigtimedwait tv_sec tv_nsec) (fst (sandbox_executor o cfg)) ->
  tv_sec = (time_limit cfg + 1000) / 1000 /\
  tv_nsec = ((time_limit cfg + 1000) mod 1000) * 1000000 /\
  1000 * tv_sec + tv_nsec / 1000000 = time_limit cfg + EXTRA_TIME.
Proof.
  intros Hrange Hin. apply sandbox_executor_timed_wait in Hin.
  rewrite executor_timeout_spec in Hin by exact Hrange.
  inversion Hin; subst. repeat split.
  rewrite Z.div_mul by lia. unfold EXTRA_TIME.
  pose proof (Z.div_mod (time_limit cfg + 1000) 1000). lia.
Qed.

Lemma executor_timeout_in_range_witness :
  (0 <= time_limit cfg0 <= INT_MAX - EXTRA_TIME) /\
  In (sys_sigtimedwait 2 0) (fst (sandbox_executor xo_exit0 cfg0)) /\
  2 = (time_limit cfg0 + 1000) / 1000 /\
  0 = ((time_limit cfg0 + 1000) mod 1000) * 1000000 /\
  1000 * 2 + 0 / 1000000 = time_limit cfg0 + EXTRA_TIME.
Proof.
  assert (H1 : 0 <= time_limit cfg0 <= INT_MAX - EXTRA_TIME)
    by (unfold INT_MAX, EXTRA_TIME; simpl; lia).
  assert (H2 : In (sys_sigtimedwait 2 0) (fst (sandbox_executor xo_exit0 cfg0)))
    by (vm_compute; tauto).
  split; [exact H1|]. split; [exact H2|].
  exact (executor_timeout_in_range xo_exit0 cfg0 2 0 H1 H2).
Defined.

(** C7 (as stated) fails: [time_limit_ms = INT_MAX] is non-negative, the
    sum computed in [int] wraps, and the executor passes a negative
    timeout instead of [time_limit_ms + 1000] milliseconds. *)
Lemma executor_timeout_overflow :
  let cfg := with_time_limit INT_MAX cfg0 in
  0 <= time_limit cfg /\
  In (sys_sigtimedwait (-2147482) (-649000000))
     (fst (sandbox_executor xo_exit0 cfg)) /\
  (-2147482, -649000000)
  <> ((time_limit cfg + 1000) / 1000,
      ((time_limit cfg + 1000) mod 1000) * 1000000).
Proof.
  cbv zeta. split; [vm_compute; discriminate|].
  split; [vm_compute; tauto|]. vm_compute. discriminate.
Qed.

(** The resolution of the timed wait, branch by branch, for an executor
    that reached its [fork] and got the child's [pid]. *)
Lemma sandbox_executor_wait_cases (o : executor_oracle) (cfg : JudgeConfig) :
  xo_chdir o = 0 -> xo_stdin_opens o = true -> 0 < xo_barrier_read o ->
  xo_sigprocmask o <> -1 -> 0 < xo_fork o ->
  let pid := xo_fork o in
  let '(tv_sec, tv_nsec) := executor_timeout cfg in
  let wait := [sys_fork; sys_sigtimedwait tv_sec tv_nsec] in
  sandbox_executor o cfg =
    if xo_sigtimedwait o <? 0 then
      (wait ++ [sys_kill pid SIGKILL; sys_waitpid pid 0],
       Returned (if xo_errno o =? EAGAIN then 2 else 1))
    else if xo_waitpid o =? pid then
      (wait ++ [sys_waitpid pid WNOHANG],
       Returned (if negb (WIFEXITED (xo_status o)) then 3
                 else if WEXITSTATUS (xo_status o) =? 0 then 0 else 1))
    else
      (wait ++ [sys_waitpid pid WNOHANG; sys_kill pid SIGKILL], Returned 1).
Proof.
  intros Hc Hs Hb Hm Hf. unfold sandbox_executor.
  rewrite Hc, Hs. cbn [Z.eqb negb].
  destruct (Z.leb_spec (xo_barrier_read o) 0); [lia|].
  destruct (Z.eqb_spec (xo_sigprocmask o) (-1)); [contradiction|].
  destruct (Z.ltb_spec (xo_fork o) 0); [lia|].
  destruct (Z.eqb_spec (xo_fork o) 0); [lia|].
  destruct (executor_timeout cfg) as [tsec tnsec].
  destruct (xo_sigtimedwait o <? 0).
  - destruct (xo_errno o =? EAGAIN); reflexivity.
  - destruct (xo_waitpid o =? xo_fork o); [|reflexivity].
    destruct (WIFEXITED (xo_status o)); reflexivity.
Qed.

(** C4 (code at the failing input): SIGCHLD arrived but the non-blocking
    [waitpid] did not collect the grandchild.  The executor sends SIGKILL
    and returns 1; unlike the two failed-wait branches it issues no
    [waitpid] after the kill, so the grandchild is not reaped. *)
Theorem sandbox_executor_race_no_reap :
  sandbox_executor xo_race cfg0
  = ([sys_fork; sys_sigtimedwait 2 0; sys_waitpid 7 WNOHANG;
      sys_kill 7 SIGKILL], Returned 1) /\
  last (fst (sandbox_executor xo_race cfg0)) = Some (sys_kill 7 SIGKILL) /\
  ~ In (sys_waitpid 7 0) (fst (sandbox_executor xo_race cfg0)).
Proof.
  split; [reflexivity|]. split; [reflexivity|].
  vm_compute. intros H.
  repeat (destruct H as [H|H]; [discriminate|]). exact H.
Qed.

(** The executor returns 0, 1, 2 or 3, and the container init maps these
    exit codes to OK, RE, TLE and UKE. *)
Lemma sandbox_executor_returns (o : executor_oracle) (cfg : JudgeConfig)
    (code : Z) :
  snd (sandbox_executor o cfg) = Returned code ->
  code = 0 \/ code = 1 \/ code = 2 \/ code = 3.
Proof.
  unfold sandbox_executor. destruct (executor_timeout cfg) as [tsec tnsec].
  repeat match goal with
         | |- context [if ?b then _ else _] => destruct b
         end; cbn [snd]; intros [= <-]; auto.
Qed.

Lemma exit_code_of_executor_return (code : Z) :
  code = 0 \/ code = 1 \/ code = 2 \/ code = 3 ->
  exit_code_of (W_EXITCODE code) = code /\
  verdict_of_exit_code (exit_code_of (W_EXITCODE code))
  = match code with
    | 0 => VERDICT_OK
    | 1 => VERDICT_RE
    | 2 => VERDICT_TLE
    | _ => VERDICT_UKE
    end.
Proof. intros [->|[->|[->| ->]]]; split; reflexivity. Qed.

(** Whatever value the [int] sum takes, its whole seconds stay below those
    of [INT_MAX + 1000] milliseconds. *)
Lemma int_seconds_below_overflowed_timeout (x : Z) :
  INT_MIN <= x <= INT_MAX -> Z.quot x 1000 < (INT_MAX + 1000) / 1000.
Proof.
  unfold INT_MIN, INT_MAX. intros H.
  change ((2147483647 + 1000) / 1000) with 2147484.
  destruct (Z.le_gt_cases 0 x).
  - rewrite Z.quot_div_nonneg by lia. apply Z.div_lt_upper_bound; lia.
  - assert (Z.quot x 1000 <= 0) by (apply Z.quot_le_upper_bound; lia). lia.
Qed.

(** ** Verdict derivation *)

Lemma collect_result_inv (cfg : JudgeConfig) (status : Z)
    (files : gmap string node) (res : JudgeResult) :
  collect_result cfg status files = Ok res ->
  exists usec peak oom,
    stoll (get_cgroup_key (read_file files (cgroup_path cfg +:+ "/cpu.stat"))
             "user_usec") = Ok usec /\
    (if String.eqb (read_file files (cgroup_path cfg +:+ "/memory.peak")) ""
     then Ok 0
     else stoll (read_file files (cgroup_path cfg +:+ "/memory.peak")))
    = Ok peak /\
    stoi (get_cgroup_key (read_file files (cgroup_path cfg +:+ "/memory.events"))
            "oom_kill") = Ok oom /\
    res = mkJudgeResult
            (Verdict_value
               (override_verdict (verdict_of_exit_code (exit_code_of status))
                  oom (to_int (Z.quot usec 1000)) (time_limit cfg)))
            (to_int (Z.quot usec 1000))
            (Z.quot (Z.quot peak 1024) 1024)
            (read_file files (tmp_path cfg +:+ "/stdout"))
            (read_file files (tmp_path cfg +:+ "/stderr"))
            (collect_output_files files (tmp_path cfg) (output_filenames cfg)).
Proof.
  unfold collect_result, mbind, result_bind, mret, result_ret.
  destruct (stoll (get_cgroup_key _ "user_usec")) as [usec| |];
    try discriminate.
  destruct (if String.eqb _ "" then _ else _) as [peak| |]; try discriminate.
  destruct (stoi _) as [oom| |]; try discriminate.
  intros H. inversion H. now exists usec, peak, oom.
Qed.

(** C2: before the two overrides the verdict comes from the executor's
    wait status alone: with [ec] the exit status if the executor exited
    normally and 255 otherwise, [ec = 0] gives OK, 1 gives RE, 2 gives TLE
    and every other value gives UKE; the final verdict of a collected
    result is the two overrides applied to that verdict. *)
Theorem verdict_from_exit_status (cfg : JudgeConfig) (status : Z)
    (files : gmap string node) (res : JudgeResult) :
  collect_result cfg status files = Ok res ->
  let ec := if WIFEXITED status then WEXITSTATUS status else 255 in
  let v := match ec with
           | 0 => VERDICT_OK
           | 1 => VERDICT_RE
           | 2 => VERDICT_TLE
           | _ => VERDICT_UKE
           end in
  verdict_of_exit_code (exit_code_of status) = v /\
  exists oom,
    stoi (get_cgroup_key (read_file files (cgroup_path cfg +:+ "/memory.events"))
            "oom_kill") = Ok oom /\
    verdict res = Verdict_value (override_verdict v oom (time res) (time_limit cfg)) /\
    (oom = 0 -> time res <= time_limit cfg -> verdict res = Verdict_value v).
Proof.
  intros H ec v.
  assert (Hv : verdict_of_exit_code (exit_code_of status) = v).
  { unfold v, ec, exit_code_of, verdict_of_exit_code.
    destruct (if WIFEXITED status then WEXITSTATUS status else 255)
      as [|[[p|p|]|[p|p|]|]|p]; reflexivity. }
  split; [exact Hv|].
  apply collect_result_inv in H as (usec & peak & oom & _ & _ & Hoom & ->).
  exists oom. split; [exact Hoom|]. cbn [verdict time]. rewrite Hv.
  split; [reflexivity|].
  intros -> Hle. unfold override_verdict. cbn [Z.eqb negb].
  destruct (Z.gtb_spec (to_int (Z.quot usec 1000)) (time_limit cfg)); [lia|].
  reflexivity.
Qed.

Lemma verdict_from_exit_status_witness :
  collect_result cfg0 0 files0 = Ok res0 /\
  verdict_of_exit_code (exit_code_of 0) = VERDICT_OK.
Proof.
  assert (H : collect_result cfg0 0 files0 = Ok res0)
    by (vm_compute; reflexivity).
  split; [exact H|].
  exact (proj1 (verdict_from_exit_status cfg0 0 files0 res0 H)).
Defined.

Lemma override_verdict_oom (v : Verdict) (oom t limit : Z) :
  oom <> 0 ->
  override_verdict v oom t limit
  = if t >? limit then VERDICT_TLE else VERDICT_MLE.
Proof.
  intros Hoom. unfold override_verdict.
  destruct (Z.eqb_spec oom 0); [contradiction|]. reflexivity.
Qed.

(** C1 (amended): when the cgroup's [oom_kill] count is positive, the final
    verdict is MLE provided the measured [time_ms] does not exceed
    [time_limit_ms]; when it does exceed it, the final verdict is TLE.  The
    precedence is TLE-by-time > MLE > exit-code verdict. *)
Theorem verdict_oom_precedence (cfg : JudgeConfig) (status : Z)
    (files : gmap string node) (res : JudgeResult) (oom : Z) :
  collect_result cfg status files = Ok res ->
  stoi (get_cgroup_key (read_file files (cgroup_path cfg +:+ "/memory.events"))
          "oom_kill") = Ok oom ->
  0 < oom ->
  (time res <= time_limit cfg -> verdict res = Verdict_value VERDICT_MLE) /\
  (time_limit cfg < time res -> verdict res = Verdict_value VERDICT_TLE).
Proof.
  intros H Hoom Hpos.
  apply collect_result_inv in H as (usec & peak & oom' & _ & _ & Hoom' & ->).
  rewrite Hoom in Hoom'. inversion Hoom'; subst oom'.
  cbn [verdict time]. rewrite override_verdict_oom by lia.
  split; intros Ht.
  - destruct (Z.gtb_spec (to_int (Z.quot usec 1000)) (time_limit cfg)); [lia|].
    reflexivity.
  - destruct (Z.gtb_spec (to_int (Z.quot usec 1000)) (time_limit cfg)); [|lia].
    reflexivity.
Qed.

Lemma verdict_oom_precedence_witness :
  (exists res,
      collect_result cfg0 0 files_oom = Ok res /\
      (time res <= time_limit cfg0 -> verdict res = Verdict_value VERDICT_MLE) /\
      (time_limit cfg0 < time res -> verdict res = Verdict_value VERDICT_TLE)).
Proof.
  eexists. split; [vm_compute; reflexivity|].
  refine (verdict_oom_precedence cfg0 0 files_oom _ 1 _ _ _).
  - vm_compute. reflexivity.
  - vm_compute. reflexivity.
  - lia.
Defined.

(** C1 (as stated) fails: with one memory kill recorded and a measured
    time above the limit, the executor having exited with code 0, the final
    verdict is TLE, not MLE. *)
Lemma verdict_oom_overridden_by_time :
  exists res,
    collect_result cfg0 0 files_oom_slow = Ok res /\
    stoi (get_cgroup_key
            (read_file files_oom_slow (cgroup_path cfg0 +:+ "/memory.events"))
            "oom_kill") = Ok 1 /\
    time res = 2000 /\ time_limit cfg0 = 1000 /\
    verdict res = Verdict_value VERDICT_TLE /\
    verdict res <> Verdict_value VERDICT_MLE.
Proof.
  eexists. split; [vm_compute; reflexivity|].
  repeat split; try (vm_compute; reflexivity). vm_compute. discriminate.
Qed.

(** ** Cgroup counters *)

Lemma fields_skipws (ss : list char) : fields (skipws ss) = fields ss.
Proof.
  induction ss as [|c ss IH]; [reflexivity|].
  cbn [skipws fields]. destruct (isspace c) eqn:E; [exact IH|].
  cbn [fields]. now rewrite E.
Qed.

Lemma fields_word (c : char) (ss w r : list char) :
  isspace c = false -> word ss = (w, r) ->
  fields (c :: ss) = (c :: w) :: fields r.
Proof.
  revert c w r. induction ss as [|c' ss IH]; intros c w r Hc Hw.
  - cbn in Hw. inversion Hw; subst. cbn. now rewrite Hc.
  - cbn [word] in Hw. cbn [fields]. rewrite Hc.
    destruct (isspace c') eqn:Ec'.
    + inversion Hw; subst. cbn [fields]. now rewrite Ec'.
    + destruct (word ss) as [w' r'] eqn:Ew. inversion Hw; subst.
      specialize (IH c' w' r Ec' eq_refl).
      cbn [fields] in IH. rewrite Ec' in IH. rewrite IH. reflexivity.
Qed.

Lemma skipws_head (ss : list char) (c : char) (ss' : list char) :
  skipws ss = c :: ss' -> isspace c = false.
Proof.
  induction ss as [|d ss IH]; [discriminate|].
  cbn. destruct (isspace d) eqn:E; [exact IH|].
  intros H; inversion H; subst. exact E.
Qed.

Lemma extract_None (ss : list char) : extract ss = None -> fields ss = [].
Proof.
  unfold extract. intros H. rewrite <- fields_skipws.
  destruct (skipws ss) as [|c ss']; [reflexivity|].
  destruct (word ss'); discriminate.
Qed.

Lemma extract_Some (ss : list char) (x : string) (r : list char) :
  extract ss = Some (x, r) ->
  exists t, x = string_of_list_ascii t /\ fields ss = t :: fields r.
Proof.
  unfold extract. intros H. rewrite <- (fields_skipws ss).
  destruct (skipws ss) as [|c ss'] eqn:E; [discriminate|].
  destruct (word ss') as [w r'] eqn:Ew. inversion H; subst.
  exists (c :: w). split; [reflexivity|].
  apply fields_word; [|exact Ew]. eapply skipws_head; exact E.
Qed.

(** [get_cgroup_key] computes the specification's reading of the file. *)
Lemma get_cgroup_key_loop_spec (ss : list char) (k : string) :
  get_cgroup_key_loop ss k = first_value (key_value_pairs (fields ss)) k.
Proof.
  funelim (get_cgroup_key_loop ss k).
  - pose proof (extract_None _ e) as E. now rewrite E.
  - destruct (extract_Some _ _ _ Hkey) as (t & Hk & Ht).
    destruct (extract_Some _ _ _ Hval) as (t' & Hv & Ht').
    rewrite Ht, Ht'. cbn [key_value_pairs first_value].
    rewrite <- Hk, <- Hv.
    destruct (String.eqb key k); [reflexivity|].
    match goal with IH : _ = first_value _ _ |- _ => exact IH end.
  - destruct (extract_Some _ _ _ Hkey) as (t & Hk & Ht).
    pose proof (extract_None _ e) as E. rewrite Ht, E. reflexivity.
Qed.

Lemma get_cgroup_key_spec (s k : string) :
  get_cgroup_key s k = spec_cgroup_value s k.
Proof. apply get_cgroup_key_loop_spec. Qed.

Lemma first_value_absent (kvs : list (string * string)) (k : string) :
  (forall v, ~ In (k, v) kvs) -> first_value kvs k = "0".
Proof.
  induction kvs as [|[key val] kvs IH]; intros Habs; [reflexivity|].
  cbn [first_value]. destruct (String.eqb_spec key k) as [->|Hne].
  - exfalso. apply (Habs val). now left.
  - apply IH. intros v Hin. apply (Habs v). now right.
Qed.


(** [stoll] reads back the decimal that [to_string] prints, whatever
    non-digit text follows it: the two library models agree. *)
Lemma digit_of_pretty_N_char (m : N) :
  (m < 10)%N ->
  digit_of (pretty_N_char m) = Some (Z.of_N m) /\
  isspace (pretty_N_char m) = false.
Proof.
  intros H.
  destruct m as [|[[[[|[]|]|[[]|[]|]|]|[[[]|[]|]|[[]|[]|]|]|]|[[[[]|[]|]|[[]|[]|]|]|[[[]|[]|]|[[]|[]|]|]|]|]];
    try (exfalso; lia); split; reflexivity.
Qed.

Lemma pretty_N_go_append (x : N) (s rest : string) :
  pretty_N_go x s +:+ rest = pretty_N_go x (s +:+ rest).
Proof.
  revert s. induction (N.lt_wf_0 x) as [x _ IH]. intros s.
  destruct (N.eq_dec x 0%N) as [->|Hx]; [reflexivity|].
  rewrite (pretty_N_go_step x s), (pretty_N_go_step x (s +:+ rest)) by lia.
  rewrite IH by (apply N.div_lt; lia). reflexivity.
Qed.

Lemma digits_value_pretty_N_go (x : N) :
  exists k,
    forall acc s,
      digits_value acc (list_ascii_of_string (pretty_N_go x s))
      = digits_value (acc * k + Z.of_N x) (list_ascii_of_string s).
Proof.
  induction (N.lt_wf_0 x) as [x _ IH].
  destruct (N.eq_dec x 0%N) as [->|Hx].
  - exists 1. intros acc s. rewrite pretty_N_go_0. do 2 f_equal. lia.
  - destruct (IH (x `div` 10)%N ltac:(apply N.div_lt; lia)) as (k & Hk).
    exists (10 * k). intros acc s.
    rewrite pretty_N_go_step, Hk by lia.
    cbn [list_ascii_of_string digits_value].
    destruct (digit_of_pretty_N_char (x `mod` 10)%N
                ltac:(apply N.mod_lt; lia)) as [-> _].
    f_equal. pose proof (N.div_mod x 10 ltac:(lia)). lia.
Qed.

Lemma pretty_N_go_head (x : N) (s : string) :
  (0 < x)%N ->
  exists m s',
    (m < 10)%N /\ pretty_N_go x s = String (pretty_N_char m) s'.
Proof.
  revert s. induction (N.lt_wf_0 x) as [x _ IH]. intros s Hx.
  rewrite pretty_N_go_step by exact Hx.
  destruct (N.eq_dec (x `div` 10)%N 0%N) as [E|E].
  - rewrite E, pretty_N_go_0. eexists _, _. split; [|reflexivity].
    apply N.mod_lt. lia.
  - apply IH.
    + apply N.div_lt; lia.
    + now apply N.neq_0_lt_0.
Qed.

Lemma unsigned_digits_pretty_N (x : N) (rest : string) :
  (forall acc, digits_value acc (list_ascii_of_string rest) = acc) ->
  let ss := list_ascii_of_string (pretty x +:+ rest) in
  skipws ss = ss /\ unsigned_digits ss = Some (Z.of_N x) /\
  (forall c ss', ss = c :: ss' -> c <> "-"%char /\ c <> "+"%char).
Proof.
  intros Hrest. unfold pretty, pretty_N.
  destruct (decide (x = 0)%N) as [->|Hx].
  - change ("0" +:+ rest) with (String "0"%char rest).
    cbn [list_ascii_of_string skipws unsigned_digits digits_value].
    change (isspace "0"%char) with false.
    change (digit_of "0"%char) with (Some 0).
    cbv iota beta. rewrite Hrest.
    split; [reflexivity|]. split; [reflexivity|].
    intros c ss' [= <- _]. split; discriminate.
  - rewrite pretty_N_go_append. change ("" +:+ rest) with rest.
    destruct (pretty_N_go_head x rest ltac:(lia)) as (m & s' & Hm & E).
    destruct (digits_value_pretty_N_go x) as (k & Hk).
    specialize (Hk 0 rest). rewrite Hrest in Hk.
    rewrite E in *. cbn [list_ascii_of_string] in *.
    destruct (digit_of_pretty_N_char m Hm) as [Hd Hs].
    cbn [skipws unsigned_digits]. rewrite Hs, Hd, Hk.
    split; [reflexivity|]. split; [f_equal; lia|].
    intros c ss' [= <- _]. split; intros Hc; rewrite Hc in Hd; discriminate.
Qed.

Lemma stoll_to_string (n : Z) (rest : string) :
  LLONG_MIN <= n <= LLONG_MAX ->
  (forall acc, digits_value acc (list_ascii_of_string rest) = acc) ->
  stoll (to_string n +:+ rest) = Ok n.
Proof.
  intros Hn Hrest. unfold stoll.
  assert (strtol_value (to_string n +:+ rest) = Some n) as ->.
  { assert (Hplain : forall x : N,
              strtol_value (pretty x +:+ rest) = Some (Z.of_N x)).
    { intros x. unfold strtol_value.
      destruct (unsigned_digits_pretty_N x rest Hrest) as (Hs & Hu & Hc).
      cbv zeta in *. rewrite Hs.
      destruct (list_ascii_of_string (pretty x +:+ rest)) as [|c ss'] eqn:E;
        [discriminate|].
      destruct (Hc c ss' eq_refl) as [H1 H2].
      apply Ascii.eqb_neq in H1, H2. rewrite H1, H2. exact Hu. }
    unfold to_string, pretty, pretty_Z. destruct n as [|p|p].
    - apply (Hplain 0%N).
    - apply (Hplain (N.pos p)).
    - unfold strtol_value.
      destruct (unsigned_digits_pretty_N (N.pos p) rest Hrest) as (_ & Hu & _).
      cbv zeta in Hu.
      change (("-" +:+ pretty p) +:+ rest)
        with (String "-"%char (pretty (N.pos p) +:+ rest)).
      cbn [list_ascii_of_string skipws].
      change (isspace "-"%char) with false. cbv iota.
      change (Ascii.eqb "-" "-") with true. cbv iota.
      rewrite Hu. reflexivity. }
  unfold LLONG_MIN, LLONG_MAX in *.
  destruct (Z.leb_spec (-9223372036854775808) n); [|lia].
  destruct (Z.leb_spec n 9223372036854775807); [|lia]. reflexivity.
Qed.

Lemma stoll_line (n : Z) :
  LLONG_MIN <= n <= LLONG_MAX ->
  stoll (to_string n +:+ "
") = Ok n.
Proof. intros Hn. apply stoll_to_string; [exact Hn|reflexivity]. Qed.

Example stoll_memory_peak : stoll "3145728
" = Ok 3145728.
Proof. reflexivity. Qed.

Example stoll_no_digits : stoll "max" = Throw (invalid_argument "stoll").
Proof. reflexivity. Qed.

Example fields_of_lines :
  fields (list_ascii_of_string "  nr_periods 4
user_usec  1200 ")
  = list_ascii_of_string <$> ["nr_periods"; "4"; "user_usec"; "1200"].
Proof. reflexivity. Qed.

Example get_cgroup_key_dangling :
  get_cgroup_key "nr_periods 4 user_usec" "user_usec" = "0".
Proof. reflexivity. Qed.

(** C6 (amended): the reported [time_ms] is the value paired with the key
    [user_usec] in [cpu.stat], divided by 1000 with integer division and
    stored in an [int]: it is that quotient whenever the quotient fits, that
    is for every [user_usec] from 0 to [1000 * INT_MAX + 999], and the
    quotient reduced to an [int] beyond.  The file (and likewise
    [memory.events] for [oom_kill]) is read as whitespace-separated
    key/value pairs and a key that heads no pair reads as ["0"]. *)
Theorem time_ms_from_cpu_stat (cfg : JudgeConfig) (status : Z)
    (files : gmap string node) (res : JudgeResult) :
  collect_result cfg status files = Ok res ->
  let cpu_stat := read_file files (cgroup_path cfg +:+ "/cpu.stat") in
  let mem_events := read_file files (cgroup_path cfg +:+ "/memory.events") in
  get_cgroup_key cpu_stat "user_usec" = spec_cgroup_value cpu_stat "user_usec" /\
  get_cgroup_key mem_events "oom_kill" = spec_cgroup_value mem_events "oom_kill" /\
  (exists usec,
      stoll (spec_cgroup_value cpu_stat "user_usec") = Ok usec /\
      time res = to_int (Z.quot usec 1000) /\
      (0 <= usec <= 1000 * INT_MAX + 999 -> time res = usec / 1000)) /\
  ((forall v, ~ In ("user_usec", v)
                (key_value_pairs (fields (list_ascii_of_string cpu_stat)))) ->
   spec_cgroup_value cpu_stat "user_usec" = "0" /\ time res = 0) /\
  ((forall v, ~ In ("oom_kill", v)
                (key_value_pairs (fields (list_ascii_of_string mem_events)))) ->
   spec_cgroup_value mem_events "oom_kill" = "0").
Proof.
  intros H cpu_stat mem_events.
  apply collect_result_inv in H as (usec & peak & oom & Husec & _ & _ & ->).
  fold cpu_stat in Husec. cbn [time].
  split; [apply get_cgroup_key_spec|]. split; [apply get_cgroup_key_spec|].
  rewrite get_cgroup_key_spec in Husec. split; [|split].
  - exists usec. split; [exact Husec|]. split; [reflexivity|].
    unfold INT_MAX. intros Hr.
    rewrite Z.quot_div_nonneg by lia.
    apply to_int_id. unfold INT_MIN, INT_MAX.
    split.
    + transitivity 0; [lia|]. apply Z.div_pos; lia.
    + apply Z.lt_succ_r. apply Z.div_lt_upper_bound; lia.
  - intros Habs. pose proof (first_value_absent _ _ Habs) as E.
    fold (spec_cgroup_value cpu_stat "user_usec") in E.
    split; [exact E|]. rewrite E in Husec.
    vm_compute in Husec. inversion Husec; subst. reflexivity.
  - intros Habs. exact (first_value_absent _ _ Habs).
Qed.

Lemma time_ms_from_cpu_stat_witness :
  collect_result cfg0 0 files0 = Ok res0 /\
  stoll (spec_cgroup_value
           (read_file files0 (cgroup_path cfg0 +:+ "/cpu.stat")) "user_usec")
  = Ok 1200 /\
  time res0 = 1200 / 1000.
Proof.
  assert (H : collect_result cfg0 0 files0 = Ok res0)
    by (vm_compute; reflexivity).
  split; [exact H|].
  destruct (time_ms_from_cpu_stat cfg0 0 files0 res0 H)
    as (_ & _ & (usec & Husec & _ & Hfit) & _ & _).
  assert (E : stoll (spec_cgroup_value
                       (read_file files0 (cgroup_path cfg0 +:+ "/cpu.stat"))
                       "user_usec") = Ok 1200)
    by (vm_compute; reflexivity).
  split; [exact E|].
  rewrite E in Husec. inversion Husec; subst usec.
  apply Hfit. unfold INT_MAX. lia.
Defined.

(** C6 (as stated) fails once the quotient does not fit an [int]: for
    [user_usec 5000000000000] the quotient is 5 000 000 000 and the
    reported time is 705 032 704, which is 5 000 000 000 - 2^32. *)
Lemma time_ms_wraps :
  exists res,
    collect_result cfg0 0 files_long_run = Ok res /\
    stoll (get_cgroup_key
             (read_file files_long_run (cgroup_path cfg0 +:+ "/cpu.stat"))
             "user_usec") = Ok 5000000000000 /\
    time res = 705032704 /\
    time res <> 5000000000000 / 1000.
Proof.
  eexists. split; [vm_compute; reflexivity|].
  split; [vm_compute; reflexivity|]. split; [reflexivity|].
  vm_compute. discriminate.
Qed.

(** C5: the reported [memory_mb] is the integer read from [memory.peak]
    divided by 1024 with integer division and then by 1024 again, which for
    a byte count is the floor of bytes / 2^20; it is 0 when the file is
    absent or empty. *)
Theorem memory_mb_from_peak (cfg : JudgeConfig) (status : Z)
    (files : gmap string node) (res : JudgeResult) :
  collect_result cfg status files = Ok res ->
  let path := cgroup_path cfg +:+ "/memory.peak" in
  let mem_peak := read_file files path in
  (files !! path = None -> memory res = 0) /\
  (mem_peak = "" -> memory res = 0) /\
  (mem_peak <> "" ->
   exists bytes,
     stoll mem_peak = Ok bytes /\
     memory res = Z.quot (Z.quot bytes 1024) 1024 /\
     (0 <= bytes ->
      memory res = bytes / 1024 / 1024 /\ memory res = bytes / 2 ^ 20)).
Proof.
  intros H path mem_peak.
  apply collect_result_inv in H as (usec & peak & oom & _ & Hpeak & _ & ->).
  fold path in Hpeak. fold mem_peak in Hpeak. cbn [memory].
  assert (Hempty : mem_peak = "" -> Z.quot (Z.quot peak 1024) 1024 = 0).
  { intros E. rewrite E in Hpeak. cbn in Hpeak. inversion Hpeak. reflexivity. }
  split; [|split].
  - intros Hnone. apply Hempty. unfold mem_peak, read_file. now rewrite Hnone.
  - exact Hempty.
  - intros Hne. destruct (String.eqb_spec mem_peak "") as [E|_]; [contradiction|].
    exists peak. split; [exact Hpeak|]. split; [reflexivity|].
    intros Hpos.
    rewrite (Z.quot_div_nonneg peak 1024) by lia.
    assert (0 <= peak / 1024) by (apply Z.div_pos; lia).
    rewrite Z.quot_div_nonneg by lia.
    split; [reflexivity|].
    rewrite Z.div_div by lia. reflexivity.
Qed.

Lemma memory_mb_from_peak_witness :
  collect_result cfg0 0 files0 = Ok res0 /\
  stoll (read_file files0 (cgroup_path cfg0 +:+ "/memory.peak")) = Ok 3145728 /\
  memory res0 = 3145728 / 2 ^ 20.
Proof.
  assert (H : collect_result cfg0 0 files0 = Ok res0)
    by (vm_compute; reflexivity).
  split; [exact H|].
  destruct (memory_mb_from_peak cfg0 0 files0 res0 H) as (_ & _ & Hfull).
  assert (E : stoll (read_file files0 (cgroup_path cfg0 +:+ "/memory.peak"))
              = Ok 3145728)
    by (vm_compute; reflexivity).
  split; [exact E|].
  destruct Hfull as (bytes & Hb & _ & Hfloor).
  - vm_compute. discriminate.
  - rewrite E in Hb. inversion Hb; subst bytes.
    apply Hfloor. lia.
Defined.

(** The kernel prints [memory.peak] as the decimal byte count and a
    newline: the reported memory is that count divided by [2^20]. *)
Lemma memory_mb_of_byte_count (cfg : JudgeConfig) (status : Z)
    (files : gmap string node) (res : JudgeResult) (bytes : Z) :
  collect_result cfg status files = Ok res ->
  0 <= bytes <= LLONG_MAX ->
  files !! (cgroup_path cfg +:+ "/memory.peak")
  = Some (Regular (list_ascii_of_string (to_string bytes +:+ "
"))) ->
  memory res = bytes / 2 ^ 20.
Proof.
  intros H Hb Hfile.
  destruct (memory_mb_from_peak _ _ _ _ H) as (_ & _ & Hfull).
  assert (E : read_file files (cgroup_path cfg +:+ "/memory.peak")
              = to_string bytes +:+ "
").
  { unfold read_file. rewrite Hfile. apply string_of_list_ascii_of_string. }
  cbv zeta in Hfull. rewrite E in Hfull.
  assert (Hs : stoll (to_string bytes +:+ "
") = Ok bytes)
    by (apply stoll_line; unfold LLONG_MIN; lia).
  destruct Hfull as (b & Hb' & _ & Hfloor).
  - intros Hnil. rewrite Hnil in Hs. discriminate.
  - rewrite Hs in Hb'. inversion Hb'; subst b. apply Hfloor. lia.
Qed.


(** ** The container init and its directories *)

Lemma mkdir_io (path : string) (ret : Z) (w : world) :
  w_result (mkdir path ret w) = w_result w /\
  w_result_room (mkdir path ret w) = w_result_room w /\
  w_stdout (mkdir path ret w) = w_stdout w /\
  w_stdout_room (mkdir path ret w) = w_stdout_room w.
Proof. unfold mkdir. destruct (ret =? 0); repeat split. Qed.

Lemma rmdir_io (path : string) (ret : Z) (w : world) :
  w_result (rmdir path ret w) = w_result w /\
  w_result_room (rmdir path ret w) = w_result_room w /\
  w_stdout (rmdir path ret w) = w_stdout w /\
  w_stdout_room (rmdir path ret w) = w_stdout_room w.
Proof. unfold rmdir. destruct (ret =? 0); repeat split. Qed.

(** The world in which the container init writes its result: the one it
    started in, but for the directories. *)
Lemma teardown_io (o : init_oracle) (cfg : JudgeConfig) (w : world) (ret : Z) :
  let w' := rmdir (sandbox_root cfg) ret
              (rmdir (cgroup_path cfg) (io_rmdir_cgroup o)
                 (mkdir (cgroup_path cfg) (io_mkdir_cgroup o)
                    (mkdir (sandbox_root cfg) (io_mkdir_root o) w))) in
  w_result w' = w_result w /\ w_result_room w' = w_result_room w.
Proof.
  cbv zeta.
  repeat match goal with
         | |- context [rmdir ?p ?r ?x] =>
             destruct (rmdir_io p r x) as (-> & -> & _ & _)
         | |- context [mkdir ?p ?r ?x] =>
             destruct (mkdir_io p r x) as (-> & -> & _ & _)
         end.
  now split.
Qed.

(** Where no [open] hangs, the [open] calls of the container init are
    settled by what they find. *)
Lemma opening_returns {A : Type} (o : init_oracle) (path : string)
    (r : result A) :
  (forall p, io_hangs o p = false) -> opening o path r = r.
Proof. intros H. unfold opening. now rewrite H. Qed.

Lemma existsb_io_hangs (o : init_oracle) (paths : list string) :
  (forall p, io_hangs o p = false) -> existsb (io_hangs o) paths = false.
Proof.
  intros H. induction paths as [|p paths IH]; [reflexivity|].
  cbn [existsb]. now rewrite H, IH.
Qed.


(** Files that can all be created are created, unless an [open] hangs
    before. *)
Lemma write_input_files_fate (o : init_oracle) (tmp : string)
    (fs : list FileInfo) :
  forallb (fun x => io_input_written o (tmp +:+ "/" +:+ filename x)) fs = true ->
  write_input_files o tmp fs = Ok tt \/ write_input_files o tmp fs = Blocked.
Proof.
  induction fs as [|x fs IH]; [now left|].
  cbn [forallb write_input_files]. intros [Hx Hfs]%andb_prop.
  unfold opening. rewrite Hx.
  destruct (io_hangs o _); [now right|]. now apply IH.
Qed.

(** A run of the container init that returns 0 collected a result, went
    through the whole teardown and wrote the result frame, for which the
    pipe had room. *)
Lemma container_init_returns_0 (o : init_oracle) (cfg : JudgeConfig)
    (w w' : world) :
  container_init o cfg w = (Returned 0, w') ->
  exists res,
    collect_result cfg (io_status o) (io_files o) = Ok res /\
    accepts RESULT_W w (length (result_bytes res)) /\
    w_result w' = w_result w ++ result_bytes res /\
    w_dirs w'
    = w_dirs
        (rmdir (sandbox_root cfg)
           (if (io_umount_tmp o =? 0) && (io_umount_root o =? 0)
            then io_rmdir_root o else -1)
           (rmdir (cgroup_path cfg) (io_rmdir_cgroup o)
              (mkdir (cgroup_path cfg) (io_mkdir_cgroup o)
                 (mkdir (sandbox_root cfg) (io_mkdir_root o) w)))).
Proof.
  unfold container_init. intros H.
  repeat match type of H with
         | (if ?b then _ else _) = _ => destruct b; [discriminate|]
         | match ?r with Ok _ => _ | Throw _ => _ | Blocked => _ end = _ =>
             destruct r eqn:?; try discriminate
         end.
  match type of H with
  | context [write_result RESULT_W ?r ?x] =>
      destruct (writes_write_result RESULT_W r x) as [Hok Hfail];
      destruct (accepts_dec RESULT_W x (length (result_bytes r))) as [A|A];
      [rewrite (Hok A) in H|destruct (Hfail A) as (w'' & E); rewrite E in H];
      [|discriminate]
  end.
  inversion H; subst. clear H.
  match goal with
  | A : accepts RESULT_W (rmdir _ ?ret _) _ |- _ =>
      destruct (teardown_io o cfg w ret) as [Hres Hroom]
  end.
  eexists. split; [reflexivity|]. cbv zeta in Hres, Hroom. split; [|split].
  - cbn [accepts] in A |- *. now rewrite <- Hroom.
  - cbn [emit w_result set_result]. now rewrite Hres.
  - reflexivity.
Qed.

(** Where no [open] hangs, a run of the container init blocks only in the
    write of its result frame, when the frame is larger than the room left
    in the pipe. *)
Lemma container_init_blocks_only_if (o : init_oracle) (cfg : JudgeConfig)
    (w w' : world) :
  (forall p, io_hangs o p = false) ->
  container_init o cfg w = (Blocks, w') ->
  exists res,
    collect_result cfg (io_status o) (io_files o) = Ok res /\
    ~ accepts RESULT_W w (length (result_bytes res)).
Proof.
  unfold container_init, write_file_at. intros Hh H.
  rewrite !(existsb_io_hangs o _ Hh) in H.
  rewrite !(opening_returns o _ _ Hh) in H.
  assert (Hin : write_input_files o (tmp_path cfg) (input_files cfg) <> Blocked).
  { generalize (input_files cfg). intros fs.
    induction fs as [|x fs IH]; [discriminate|].
    cbn [write_input_files]. rewrite opening_returns by exact Hh.
    destruct (io_input_written o _); [exact IH|discriminate]. }
  unfold write_file in H.
  repeat match type of H with
         | (if ?b then _ else _) = _ => destruct b; try discriminate
         | match ?r with Ok _ => _ | Throw _ => _ | Blocked => _ end = _ =>
             destruct r eqn:?; try discriminate; try congruence;
             try (exfalso;
                  match goal with E : _ = Blocked |- _ => revert E end;
                  unfold mbind, result_bind;
                  repeat match goal with
                         | |- context [if ?b then _ else _] => destruct b
                         end; discriminate)
         end.
  match type of H with
  | context [write_result RESULT_W ?r ?x] =>
      destruct (writes_write_result RESULT_W r x) as [Hok Hfail];
      destruct (accepts_dec RESULT_W x (length (result_bytes r))) as [A|A];
      [rewrite (Hok A) in H; discriminate|]
  end.
  match type of A with
  | ~ accepts RESULT_W (rmdir _ ?ret _) _ =>
      destruct (teardown_io o cfg w ret) as [_ Hroom]
  end.
  eexists. split; [reflexivity|]. cbv zeta in Hroom.
  cbn [accepts] in A |- *. now rewrite <- Hroom.
Qed.

(** And it does block there whenever the earlier calls succeed. *)
Lemma container_init_blocks (o : init_oracle) (cfg : JudgeConfig) (w : world)
    (res : JudgeResult) :
  init_calls_succeed o cfg ->
  collect_result cfg (io_status o) (io_files o) = Ok res ->
  ~ accepts RESULT_W w (length (result_bytes res)) ->
  exists w', container_init o cfg w = (Blocks, w').
Proof.
  intros (Hb & Hh & Hp & Hbind & Hro & Htmp & Hin & Hpipe & Hopen & Hclone)
         Hres Hfull.
  unfold container_init.
  destruct (Z.leb_spec (io_barrier_read o) 0); [lia|].
  rewrite Hh, Hp, Hbind, Hro, Htmp. cbn [Z.eqb negb orb].
  destruct (write_input_files_fate o _ _ Hin) as [->| ->]; [|eauto].
  destruct (Z.eqb_spec (io_pipe2 o) (-1)); [contradiction|].
  unfold write_file_at, opening, write_file. rewrite !Hopen.
  repeat match goal with
         | |- context [if io_hangs o ?p then _ else _] =>
             destruct (io_hangs o p); cbn [mbind result_bind]; [now eauto|]
         end.
  destruct (Z.ltb_spec (io_clone o) 0); [lia|].
  repeat match goal with
         | |- context [if io_hangs o ?p then _ else _] =>
             destruct (io_hangs o p); cbn [mbind result_bind]; [now eauto|]
         end.
  destruct (existsb (io_hangs o) (counter_paths cfg)); [now eauto|].
  rewrite Hres.
  destruct (existsb (io_hangs o) (capture_paths cfg)); [now eauto|].
  match goal with
  | |- context [write_result RESULT_W ?r ?x] =>
      destruct (writes_write_result RESULT_W r x) as [_ Hfail];
      destruct (Hfail) as (w'' & ->); [|eauto]
  end.
  match goal with
  | |- ~ accepts RESULT_W (rmdir _ ?ret _) _ =>
      destruct (teardown_io o cfg w ret) as [_ Hroom]
  end.
  cbv zeta in Hroom. cbn [accepts] in Hfull |- *. now rewrite Hroom.
Qed.

(** When every teardown call succeeds, a run that returns 0 leaves neither
    directory behind. *)
Lemma container_init_success_removes_both (o : init_oracle)
    (cfg : JudgeConfig) (w w' : world) :
  container_init o cfg w = (Returned 0, w') ->
  io_rmdir_cgroup o = 0 -> io_umount_tmp o = 0 -> io_umount_root o = 0 ->
  io_rmdir_root o = 0 ->
  (sandbox_root cfg ∉ w_dirs w') /\ (cgroup_path cfg ∉ w_dirs w').
Proof.
  intros H Hc Ht Hr Hd.
  apply container_init_returns_0 in H as (res & _ & _ & _ & ->).
  rewrite Hc, Ht, Hr, Hd. cbn [Z.eqb andb].
  unfold rmdir. cbn [Z.eqb w_dirs set_dirs].
  rewrite !elem_of_difference, !elem_of_singleton. tauto.
Qed.

(** C9 (code at the failing input): the bind mount of the root filesystem
    fails.  The container init has already created the scratch directory
    and returns 1 without removing it, and it has not created the cgroup
    directory: after the call exactly one of the two exists. *)
Theorem container_init_leaves_scratch_dir :
  exists w',
    container_init io_bind_fails cfg0 (initial_world [] None ∅)
    = (Returned 1, w') /\
    (sandbox_root cfg0 ∈ w_dirs w') /\
    (cgroup_path cfg0 ∉ w_dirs w').
Proof.
  eexists. split; [reflexivity|].
  cbn [w_dirs set_dirs mkdir initial_world io_mkdir_root io_bind_fails Z.eqb].
  split.
  - apply elem_of_union. left. now apply elem_of_singleton.
  - intros [E|E]%elem_of_union.
    + apply elem_of_singleton in E. vm_compute in E. discriminate.
    + now apply elem_of_empty in E.
Qed.

(** A later failure path: the cgroup control files do not open.  Both
    directories were created and the return skips the teardown, so both
    are still there. *)
Lemma container_init_leaves_both_dirs :
  exists w',
    container_init io_cgroup_write_fails cfg0 (initial_world [] None ∅)
    = (Returned 1, w') /\
    (sandbox_root cfg0 ∈ w_dirs w') /\
    (cgroup_path cfg0 ∈ w_dirs w').
Proof.
  eexists. split; [reflexivity|].
  cbn [w_dirs set_dirs mkdir initial_world io_mkdir_root io_mkdir_cgroup
       io_cgroup_write_fails Z.eqb].
  rewrite !elem_of_union, !elem_of_singleton. split; [right|]; now left.
Qed.

Example container_init_io_ok :
  let r := container_init io_ok cfg0 (initial_world [] None ∅) in
  fst r = Returned 0 /\ w_result (snd r) = result_bytes res0 /\
  (sandbox_root cfg0 ∉ w_dirs (snd r)) /\ (cgroup_path cfg0 ∉ w_dirs (snd r)).
Proof.
  cbv zeta.
  assert (H : fst (container_init io_ok cfg0 (initial_world [] None ∅))
              = Returned 0) by (vm_compute; reflexivity).
  split; [exact H|]. split; [vm_compute; reflexivity|].
  destruct (container_init io_ok cfg0 (initial_world [] None ∅))
    as [out w'] eqn:E.
  cbn [fst snd] in *. subst out.
  now apply (container_init_success_removes_both io_ok cfg0 _ _ E).
Qed.

(** ** What leaves descriptor 1 alone *)

Lemma keeps_stdout_ret {A : Type} (a : A) : keeps_stdout (mret a : M A).
Proof. intros w r w' H. inversion H. now split. Qed.

Lemma keeps_stdout_throw {A : Type} (e : exn) : keeps_stdout (@throw A e).
Proof. intros w r w' H. inversion H. now split. Qed.

Lemma keeps_stdout_lift {A : Type} (x : result A) : keeps_stdout (lift x).
Proof. intros w r w' H. inversion H. now split. Qed.

Lemma keeps_stdout_bind {A B : Type} (m : M A) (k : A -> M B) :
  keeps_stdout m -> (forall a, keeps_stdout (k a)) -> keeps_stdout (m ≫= k).
Proof.
  intros Hm Hk w r w' H. unfold mbind, M_bind in H.
  destruct (m w) as [[a|e|] w1] eqn:E.
  - apply Hm in E as [E1 E2]. apply Hk in H as [H1 H2]. split; congruence.
  - apply Hm in E as [E1 E2]. inversion H; subst. now split.
  - apply Hm in E as [E1 E2]. inversion H; subst. now split.
Qed.

Lemma keeps_stdout_read_full (f : fd) (n : nat) : keeps_stdout (read_full f n).
Proof.
  intros w r w' H. unfold read_full in H. destruct f.
  - destruct (read_from _ n). inversion H. now split.
  - destruct n; inversion H; now split.
  - destruct (read_from _ n). inversion H. now split.
  - destruct n; inversion H; now split.
Qed.

Create HintDb keeps.
Lemma keeps_stdout_write_result_pipe (buf : list char) :
  keeps_stdout (write_full RESULT_W buf).
Proof.
  intros w r w' H. cbn in H. destruct (w_result_room w) as [c|].
  - destruct (decide (N.of_nat (length buf) <= c)%N); inversion H; now split.
  - inversion H. now split.
Qed.

#[local] Hint Resolve keeps_stdout_ret keeps_stdout_throw keeps_stdout_lift
  keeps_stdout_read_full keeps_stdout_write_result_pipe : keeps.

(** Walks through a chain of binds, branching on every test it meets. *)
Ltac keeps :=
  repeat first
    [ progress (auto with keeps)
    | apply keeps_stdout_bind; [|intros ?]
    | match goal with
      | |- keeps_stdout (if ?b then _ else _) => destruct b
      | |- keeps_stdout (let '(_, _) := ?p in _) => destruct p
      end ].

Lemma keeps_stdout_read_int (f : fd) : keeps_stdout (read_int f).
Proof. unfold read_int. keeps. Qed.

Lemma keeps_stdout_read_llong (f : fd) : keeps_stdout (read_llong f).
Proof. unfold read_llong. keeps. Qed.

#[local] Hint Resolve keeps_stdout_read_int keeps_stdout_read_llong : keeps.

Lemma keeps_stdout_read_proto_str (f : fd) : keeps_stdout (read_proto_str f).
Proof. unfold read_proto_str. keeps. Qed.

Lemma keeps_stdout_read_sized_buf (f : fd) : keeps_stdout (read_sized_buf f).
Proof. unfold read_sized_buf. keeps. Qed.

#[local] Hint Resolve keeps_stdout_read_proto_str keeps_stdout_read_sized_buf
  : keeps.

Lemma keeps_stdout_read_strings (f : fd) (n : nat) :
  keeps_stdout (read_strings f n).
Proof. induction n; cbn [read_strings]; keeps. Qed.

Lemma keeps_stdout_read_input_files (f : fd) (n : nat) :
  keeps_stdout (read_input_files f n).
Proof. induction n; cbn [read_input_files]; keeps. Qed.

Lemma keeps_stdout_read_out_files (f : fd) (n : nat) :
  keeps_stdout (read_out_files f n).
Proof. induction n; cbn [read_out_files]; keeps. Qed.

#[local] Hint Resolve keeps_stdout_read_strings keeps_stdout_read_input_files
  keeps_stdout_read_out_files : keeps.

Lemma keeps_stdout_read_config : keeps_stdout read_config.
Proof. unfold read_config. keeps. Qed.

Lemma keeps_stdout_read_frame (f : fd) : keeps_stdout (read_frame f).
Proof. unfold read_frame. keeps. Qed.

Lemma keeps_stdout_write_output_files (fs : list FileInfo) :
  keeps_stdout (write_output_files RESULT_W fs).
Proof.
  induction fs as [|x fs IH]; cbn [write_output_files];
    unfold write_proto_str, write_proto_buf, write_int; keeps.
Qed.

Lemma keeps_stdout_write_result (res : JudgeResult) :
  keeps_stdout (write_result RESULT_W res).
Proof.
  pose proof keeps_stdout_write_output_files.
  unfold write_result, write_proto_str, write_int, write_llong. keeps.
Qed.

Lemma container_init_keeps_stdout (o : init_oracle) (cfg : JudgeConfig)
    (w : world) :
  w_stdout (snd (container_init o cfg w)) = w_stdout w /\
  w_stdout_room (snd (container_init o cfg w)) = w_stdout_room w.
Proof.
  unfold container_init.
  repeat match goal with
         | |- context [if ?b then _ else _] => destruct b
         | |- context [match ?r with Ok _ => _ | Throw _ => _ | Blocked => _ end] =>
             destruct r
         end;
    try match goal with
        | |- context [write_result RESULT_W ?r ?x] =>
            destruct (write_result RESULT_W r x) as [[[]|e|] w'] eqn:E;
            apply keeps_stdout_write_result in E as [E1 E2];
            cbn [snd]; rewrite E1, E2
        end;
    cbn [snd];
    repeat match goal with
           | |- context [rmdir ?p ?r ?x] =>
               destruct (rmdir_io p r x) as (_ & _ & -> & ->)
           | |- context [mkdir ?p ?r ?x] =>
               destruct (mkdir_io p r x) as (_ & _ & -> & ->)
           end; now split.
Qed.

Lemma keeps_stdout_run_container_init (o : init_oracle) (cfg : JudgeConfig) :
  keeps_stdout (run_container_init o cfg).
Proof.
  intros w r w' H. unfold run_container_init in H.
  pose proof (container_init_keeps_stdout o cfg w) as K.
  destruct (container_init o cfg w) as [[] w1]; inversion H; subst; exact K.
Qed.

#[local] Hint Resolve keeps_stdout_read_config keeps_stdout_read_frame
  keeps_stdout_run_container_init : keeps.

Lemma keeps_stdout_main_gather (o : supervisor_oracle) :
  keeps_stdout (main_gather o).
Proof. unfold main_gather. keeps. Qed.

(** ** Reading a frame back *)

Lemma read_sized_buf_bytes (buf rest : list char) (w : world) :
  Z.of_nat (length buf) <= INT_MAX ->
  w_result w = proto_buf_bytes buf ++ rest ->
  exists w', read_sized_buf RESULT_R w = (Ok buf, w') /\ w_result w' = rest.
Proof.
  intros Hfit Hw. rewrite proto_buf_bytes_fits, <- app_assoc in Hw by exact Hfit.
  unfold read_sized_buf, mbind, M_bind.
  destruct (read_int_bytes (Z.of_nat (length buf)) _ w
              ltac:(unfold INT_MIN; lia) Hw) as (w1 & -> & Hw1 & _).
  destruct (Z.ltb_spec (Z.of_nat (length buf)) 0); [lia|].
  destruct (Z.ltb_spec 0 (Z.of_nat (length buf))) as [Hpos|Hz].
  - rewrite Nat2Z.id.
    destruct (read_full_bytes buf rest w1 Hw1) as (w2 & E & Hw2 & _). eauto.
  - destruct buf; [|cbn [length] in Hz; lia].
    eexists. split; [reflexivity|exact Hw1].
Qed.

Lemma read_out_files_bytes (fs : list FileInfo) (rest : list char) (w : world) :
  Forall file_fits fs ->
  w_result w = output_files_bytes fs ++ rest ->
  exists w',
    read_out_files RESULT_R (length fs) w = (Ok fs, w') /\ w_result w' = rest.
Proof.
  intros Hfs. revert w. induction Hfs as [|x fs (Hn & Hc & Hm) _ IH]; intros w Hw.
  - eexists. split; [reflexivity|exact Hw].
  - cbn [output_files_bytes flat_map] in Hw. rewrite <- !app_assoc in Hw.
    cbn [length read_out_files]. unfold mbind, M_bind.
    destruct (read_proto_str_rest _ _ w Hn Hw) as (w1 & -> & Hw1 & _).
    destruct (read_sized_buf_bytes _ _ w1 Hc Hw1) as (w2 & -> & Hw2).
    destruct (IH w2 Hw2) as (w3 & -> & Hw3).
    eexists. split; [|exact Hw3].
    cbn [mret M_ret]. destruct x as [n c m]. cbn [mode] in Hm. subst m.
    reflexivity.
Qed.

(** The frame reader of [main] returns what [write_result] wrote, as long
    as every field fits its frame encoding. *)
Lemma read_frame_result_bytes (res : JudgeResult) (rest : list char)
    (w : world) :
  result_fits res ->
  w_result w = result_bytes res ++ rest ->
  exists w',
    read_frame RESULT_R w
    = (Ok (res, Z.of_nat (length (output_files res))), w') /\
    w_result w' = rest.
Proof.
  intros (Hv & Ht & Hm & Ho & He & Hc & Hfs) Hw.
  unfold result_bytes in Hw. rewrite <- !app_assoc in Hw.
  rewrite (to_int_id (Z.of_nat _)) in Hw by (unfold INT_MIN; lia).
  unfold read_frame, mbind, M_bind.
  destruct (read_int_bytes _ _ w Hv Hw) as (w1 & -> & Hw1 & _).
  destruct (read_int_bytes _ _ w1 Ht Hw1) as (w2 & -> & Hw2 & _).
  destruct (read_llong_bytes _ _ w2 Hm Hw2) as (w3 & -> & Hw3 & _).
  destruct (read_proto_str_rest _ _ w3 Ho Hw3) as (w4 & -> & Hw4 & _).
  destruct (read_proto_str_rest _ _ w4 He Hw4) as (w5 & -> & Hw5 & _).
  destruct (read_int_bytes (Z.of_nat (length (output_files res))) _ w5
              ltac:(unfold INT_MIN; lia) Hw5) as (w6 & -> & Hw6 & _).
  rewrite Nat2Z.id.
  destruct (read_out_files_bytes _ _ w6 Hfs Hw6) as (w7 & -> & Hw7).
  eexists. split; [|exact Hw7]. cbn [mret M_ret]. now destruct res.
Qed.

(** The frame the handler of [main] writes reads back, with the frame
    reader of [main] itself, as the UKE result with no byte left over. *)
Lemma read_frame_uke (e : exn) (w : world) :
  Z.of_nat (String.length (what e)) + 16 <= INT_MAX ->
  w_result w = frame_bytes (uke_result e) 0 ->
  exists w',
    read_frame RESULT_R w = (Ok (uke_result e, 0), w') /\ w_result w' = [].
Proof.
  intros Hlen Hw.
  assert (Hfits : result_fits (uke_result e)).
  { unfold result_fits, uke_result, INT_MIN, INT_MAX, LLONG_MIN, LLONG_MAX.
    cbn [verdict time memory stdout_content stderr_content output_files
         Verdict_value length String.length].
    rewrite string_append_length. cbn [String.length].
    unfold INT_MAX in Hlen. repeat split; try lia. constructor. }
  apply (read_frame_result_bytes (uke_result e) [] w Hfits).
  rewrite app_nil_r. exact Hw.
Qed.

(** ** The supervisor *)

Lemma main_try_unfold (o : supervisor_oracle) (w : world) :
  main_try o w
  = match main_gather o w with
    | (Ok (res, file_cnt), w1) => write_frame STDOUT res file_cnt w1
    | (Throw e, w1) => (Throw e, w1)
    | (Blocked, w1) => (Blocked, w1)
    end.
Proof.
  unfold main_try, mbind, M_bind.
  destruct (main_gather o w) as [[[res cnt]|e|] w1]; reflexivity.
Qed.

Lemma write_frame_stdout (res : JudgeResult) (file_cnt : Z) (w : world) :
  w_stdout_room w = None ->
  write_frame STDOUT res file_cnt w
  = (Ok tt, emit STDOUT (frame_bytes res file_cnt) w).
Proof.
  intros H. apply (writes_write_frame STDOUT). now apply accepts_unlimited.
Qed.

Lemma main_catch_stdout (e : exn) (w : world) :
  w_stdout_room w = None ->
  main_catch e w = (Ok tt, emit STDOUT (frame_bytes (uke_result e) 0) w).
Proof.
  intros H. apply (writes_main_catch e). now apply accepts_unlimited.
Qed.

(** C3 (amended): as long as descriptor 1 accepts what is written to it,
    every request in which the supervisor throws (at any step: the throw
    is then before the first byte of output) still gets exactly one
    well-formed response frame, carrying verdict UKE, time 0, memory 0,
    empty stdout, a stderr that is ["Internal Error: "] followed by the
    failure message, and zero output files, and the supervisor's exit status
    is 1; the exit status is 0 exactly when the [try] block completed, in
    which case the output is one normal response frame, whatever its
    verdict. *)
Theorem main_internal_error (o : supervisor_oracle) (w : world) :
  w_stdout w = [] ->
  w_stdout_room w = None ->
  (forall e w1,
      main_try o w = (Throw e, w1) ->
      exists w2,
        main o w = (Returned 1, w2) /\
        w_stdout w2
        = frame_bytes
            (mkJudgeResult (Verdict_value VERDICT_UKE) 0 0 ""
                           ("Internal Error: " +:+ what e) []) 0 /\
        (Z.of_nat (String.length (what e)) + 16 <= INT_MAX ->
         exists w3,
           read_frame RESULT_R (set_result (w_stdout w2) None w2)
           = (Ok (mkJudgeResult (Verdict_value VERDICT_UKE) 0 0 ""
                                ("Internal Error: " +:+ what e) [], 0), w3) /\
           w_result w3 = [])) /\
  (forall w1, main_try o w = (Ok tt, w1) <-> main o w = (Returned 0, w1)) /\
  (forall w1,
      main o w = (Returned 0, w1) ->
      exists res file_cnt, w_stdout w1 = frame_bytes res file_cnt).
Proof.
  intros Hout Hroom.
  assert (Hgather : forall r w1, main_gather o w = (r, w1) ->
            w_stdout w1 = [] /\ w_stdout_room w1 = None).
  { intros r w1 E. apply keeps_stdout_main_gather in E as [E1 E2].
    split; congruence. }
  split; [|split].
  - intros e w1 Hthrow. rewrite main_try_unfold in Hthrow.
    destruct (main_gather o w) as [[[res cnt]|e'|] w1'] eqn:E.
    + destruct (Hgather _ _ eq_refl) as [_ Hacc].
      rewrite write_frame_stdout in Hthrow by exact Hacc. discriminate.
    + inversion Hthrow; subst e' w1'. clear Hthrow.
      destruct (Hgather _ _ eq_refl) as [Hnil Hacc].
      unfold main. rewrite main_try_unfold, E.
      rewrite main_catch_stdout by exact Hacc.
      eexists. split; [reflexivity|].
      cbn [emit w_stdout set_stdout]. rewrite Hnil, app_nil_l.
      split; [reflexivity|].
      intros Hlen. apply read_frame_uke; [exact Hlen|reflexivity].
    + discriminate.
  - intros w1. unfold main. split.
    + intros ->. reflexivity.
    + destruct (main_try o w) as [[[]|e|] w'].
      * now intros [= ->].
      * destruct (main_catch e w') as [[| |] ?]; discriminate.
      * discriminate.
  - intros w1 H. unfold main in H. rewrite main_try_unfold in H.
    destruct (main_gather o w) as [[[res cnt]|e|] w'] eqn:E.
    + destruct (Hgather _ _ eq_refl) as [Hnil Hacc].
      rewrite write_frame_stdout in H by exact Hacc.
      inversion H; subst. exists res, cnt.
      cbn [emit w_stdout set_stdout]. now rewrite Hnil.
    + destruct (main_catch e w') as [[| |] ?]; discriminate.
    + discriminate.
Qed.

(** A request cut short: the first read meets the end of the stream. *)
Example main_truncated_request :
  main_try so_ok (initial_world [] None ∅)
  = (Throw (runtime_error "Read failed or EOF"),
     set_reads 1 (initial_world [] None ∅)).
Proof. reflexivity. Qed.

Lemma main_internal_error_witness :
  exists w2,
    main so_ok (initial_world [] None ∅) = (Returned 1, w2) /\
    w_stdout w2
    = frame_bytes
        (mkJudgeResult (Verdict_value VERDICT_UKE) 0 0 ""
                       "Internal Error: Read failed or EOF" []) 0.
Proof.
  destruct (main_internal_error so_ok (initial_world [] None ∅)
              eq_refl eq_refl) as (Hthrow & _ & _).
  destruct (Hthrow _ _ main_truncated_request) as (w2 & Hmain & Hbytes & _).
  exists w2. split; [exact Hmain|exact Hbytes].
Defined.

(** C3 (as stated) fails when the throw comes from the output itself: the
    request is served normally, descriptor 1 takes the four bytes of the
    verdict and then rejects writes.  [write_full] throws, the handler's own
    first write throws again with no handler left, so the process is
    terminated instead of exiting with status 1, and the output is the four
    bytes of a cut-off frame. *)
Lemma main_throw_during_output :
  exists e w1 w2,
    main_try so_ok (initial_world (request_bytes cfg0) (Some 4%N) ∅)
    = (Throw e, w1) /\
    main so_ok (initial_world (request_bytes cfg0) (Some 4%N) ∅)
    = (Terminated, w2) /\
    w_stdout w2 = le_bytes sizeof_int (Verdict_value VERDICT_OK) /\
    w_stdout w2
    <> frame_bytes
         (mkJudgeResult (Verdict_value VERDICT_UKE) 0 0 ""
                        ("Internal Error: " +:+ what e) []) 0.
Proof.
  eexists _, _, _.
  split; [vm_compute; reflexivity|].
  split; [vm_compute; reflexivity|].
  split; [vm_compute; reflexivity|].
  vm_compute. discriminate.
Qed.

(** Likewise when the request is cut short and descriptor 1 is closed: the
    handler cannot write its frame and nothing at all is emitted. *)
Lemma main_throw_stdout_closed :
  exists w2,
    main so_ok (initial_world [] (Some 0%N) ∅) = (Terminated, w2) /\
    w_stdout w2 = [].
Proof. eexists. split; vm_compute; reflexivity. Qed.

(** A whole run in which every call succeeds. *)
Example read_config_request_bytes :
  fst (read_config (initial_world (request_bytes cfg0) None ∅)) = Ok cfg0.
Proof. vm_compute. reflexivity. Qed.

Example main_so_ok :
  let r := main so_ok (initial_world (request_bytes cfg0) None ∅) in
  fst r = Returned 0 /\ w_stdout (snd r) = frame_bytes res0 1.
Proof. split; vm_compute; reflexivity. Qed.


(** The other side of it: when the container init blocks in its write of
    the result frame, the supervisor, which reads the pipe only after the
    container init has ended, waits forever and emits nothing. *)
Lemma main_blocks (o : supervisor_oracle) (w w0 w1 : world)
    (cfg : JudgeConfig) :
  read_config w = (Ok cfg, w0) ->
  0 <= so_pipe2_barrier o -> 0 <= so_pipe2_result o -> 0 <= so_clone o ->
  (forall path, so_opens o path = true) ->
  container_init (so_init o) cfg w0 = (Blocks, w1) ->
  main o w = (Blocks, w1) /\ w_stdout w1 = w_stdout w.
Proof.
  intros Hcfg Hb Hr Hc Hopens Hinit.
  assert (Hgather : main_gather o w = (Blocked, w1)).
  { unfold main_gather, mbind, M_bind. rewrite Hcfg.
    destruct (Z.ltb_spec (so_pipe2_barrier o) 0); [lia|].
    destruct (Z.ltb_spec (so_pipe2_result o) 0); [lia|].
    destruct (Z.ltb_spec (so_clone o) 0); [lia|].
    cbn [mret M_ret]. unfold lift, write_file. rewrite !Hopens.
    unfold run_container_init. now rewrite Hinit. }
  split.
  - unfold main. now rewrite main_try_unfold, Hgather.
  - now apply keeps_stdout_main_gather in Hgather as [-> _].
Qed.

(** A judged program that prints 64 KiB: the result frame does not fit the
    pipe, and the run never produces a response. *)
Example main_blocks_on_large_output :
  let r := main so_big (initial_world (request_bytes cfg0) None ∅) in
  fst r = Blocks /\ w_stdout (snd r) = [].
Proof. vm_compute. split; reflexivity. Qed.

(** ** The loops, call by call *)

Lemma write_full_loop_inv (answers : list io_answer) (buf : list char) :
  forall (total : nat) (out : list char) r out',
    (total <= length buf)%nat ->
    write_full_loop answers buf total out = (r, out') ->
    exists total',
      (total <= total' <= length buf)%nat /\
      out' = out ++ take (total' - total) (drop total buf) /\
      (r = Some (Ok tt) -> total' = length buf) /\
      (forall e, r = Some (Throw e) ->
                 e = runtime_error "Write failed" /\ (total' < length buf)%nat).
Proof.
  assert (Hstop : forall (total : nat) (out : list char) r,
             (total <= length buf)%nat ->
             (r = Some (Ok tt) -> total = length buf) ->
             (forall e, r = Some (Throw e) ->
                        e = runtime_error "Write failed"
                        /\ (total < length buf)%nat) ->
             exists total',
               (total <= total' <= length buf)%nat /\
               out = out ++ take (total' - total) (drop total buf) /\
               (r = Some (Ok tt) -> total' = length buf) /\
               (forall e, r = Some (Throw e) ->
                          e = runtime_error "Write failed"
                          /\ (total' < length buf)%nat)).
  { intros total out r Hle Hok Hthrow. exists total.
    rewrite Nat.sub_diag, take_0, app_nil_r.
    split; [lia|]. split; [reflexivity|]. split; [exact Hok|exact Hthrow]. }
  induction answers as [|a answers IH]; intros total out r out' Hle H;
    cbn [write_full_loop] in H;
    destruct (decide (total < length buf)%nat) as [Hlt|Hge].
  - inversion H; subst. apply Hstop; [lia|discriminate|discriminate].
  - inversion H; subst. apply Hstop; [lia|lia|discriminate].
  - destruct a as [n|errno].
    + cbv zeta in H.
      set (ret := Nat.min n (length buf - total)) in *.
      apply IH in H as (total' & Hb & -> & Hok & Hthrow); [|lia].
      exists total'. split; [lia|]. split; [|split; assumption].
      rewrite <- app_assoc. f_equal.
      rewrite <- drop_drop, take_take_drop. f_equal. lia.
    + destruct (errno =? EINTR).
      * apply IH in H; [exact H|lia].
      * inversion H; subst. apply Hstop; [lia|discriminate|].
        intros e [= <-]. split; [reflexivity|lia].
  - inversion H; subst. apply Hstop; [lia|lia|discriminate].
Qed.

Lemma write_full_loop_progress (answers : list io_answer) (buf : list char) :
  forall (total : nat) (out : list char),
    (total <= length buf)%nat ->
    forallb goes_on answers = true ->
    (length buf - total <= offered answers)%nat ->
    write_full_loop answers buf total out = (Some (Ok tt), out ++ drop total buf).
Proof.
  induction answers as [|a answers IH]; intros total out Hle Hok Hcount;
    cbn [write_full_loop];
    destruct (decide (total < length buf)%nat) as [Hlt|Hge];
    try (rewrite drop_ge, app_nil_r by lia; reflexivity).
  - cbn in Hcount. lia.
  - cbn [forallb] in Hok. apply andb_prop in Hok as [Ha Hok].
    destruct a as [n|errno]; cbn [goes_on] in Ha.
    + cbv zeta. cbn [offered] in Hcount.
      set (ret := Nat.min n (length buf - total)).
      rewrite IH; [|unfold ret; lia|exact Hok|unfold ret; lia].
      rewrite <- app_assoc. do 2 f_equal.
      rewrite <- drop_drop. apply take_drop.
    + rewrite Ha. cbn [offered] in Hcount. now apply IH.
Qed.

(** Against a descriptor that takes [room] more bytes and then fails, the
    loop succeeds exactly when [buf] fits. *)
Lemma write_full_loop_room (buf : list char) (room : nat) (errno : Z) :
  errno <> EINTR ->
  write_full_loop [io_bytes room; io_error errno] buf 0 []
  = (Some (if decide (length buf <= room)%nat then Ok tt
           else Throw (runtime_error "Write failed")),
     take room buf).
Proof.
  intros He. cbn [write_full_loop].
  destruct (decide (0 < length buf)%nat) as [Hpos|Hz].
  - cbv zeta. rewrite Nat.sub_0_r, drop_0, app_nil_l, Nat.add_0_l.
    destruct (decide (Nat.min room (length buf) < length buf)%nat) as [Hlt|Hge].
    + destruct (Z.eqb_spec errno EINTR); [contradiction|].
      destruct (decide (length buf <= room)%nat); [lia|].
      f_equal. f_equal. lia.
    + destruct (decide (length buf <= room)%nat); [|lia].
      f_equal. rewrite !take_ge by lia. reflexivity.
  - destruct buf; [|cbn [length] in Hz; lia].
    destruct (decide (length (@nil char) <= room)%nat) as [_|Hn];
      [|cbn [length] in Hn; lia].
    now rewrite take_nil.
Qed.

(** X1: [write_full] hands the kernel the bytes of [buf] in order, each
    once: whatever the kernel answers, what went out is a prefix of [buf],
    the whole of it when the call returns and a proper prefix when it throws
    (["Write failed"]).  Short writes and interrupted calls are resumed: it
    returns whenever no call fails but by an interruption and the calls
    together offer to move [length buf] bytes.  The one-step [write_full] on
    descriptor 1 is this loop against a descriptor that takes the room left
    and then fails. *)
Theorem write_full_loop_delivers (answers : list io_answer) (buf : list char) :
  (forall r out,
      write_full_loop answers buf 0 [] = (r, out) ->
      out `prefix_of` buf /\
      (r = Some (Ok tt) -> out = buf) /\
      (forall e, r = Some (Throw e) ->
                 e = runtime_error "Write failed" /\ out <> buf)) /\
  (forallb goes_on answers = true ->
   (length buf <= offered answers)%nat ->
   write_full_loop answers buf 0 [] = (Some (Ok tt), buf)) /\
  (forall (w : world) (room : N) (errno : Z),
      w_stdout_room w = Some room ->
      errno <> EINTR ->
      exists out,
        write_full_loop [io_bytes (N.to_nat room); io_error errno] buf 0 []
        = (Some (fst (write_full STDOUT buf w)), out) /\
        w_stdout (snd (write_full STDOUT buf w)) = w_stdout w ++ out).
Proof.
  split; [|split].
  - intros r out H.
    apply write_full_loop_inv in H as (total' & Hb & -> & Hok & Hthrow); [|lia].
    rewrite drop_0, Nat.sub_0_r, app_nil_l. split; [|split].
    + exists (drop total' buf). now rewrite take_drop.
    + intros E. rewrite (Hok E). apply take_ge. lia.
    + intros e E. destruct (Hthrow e E) as [-> Hlt]. split; [reflexivity|].
      intros Heq. apply (f_equal length) in Heq.
      rewrite length_take in Heq. lia.
  - intros Hok Hcount.
    rewrite (write_full_loop_progress answers buf 0 []) by (trivial; lia).
    now rewrite drop_0.
  - intros w room errno Hroom He. exists (take (N.to_nat room) buf).
    rewrite write_full_loop_room by exact He.
    cbn [write_full]. rewrite Hroom.
    destruct (decide (N.of_nat (length buf) <= room)%N),
             (decide (length buf <= N.to_nat room)%nat); try lia;
      cbn [fst snd w_stdout set_stdout]; split; try reflexivity.
    now rewrite take_ge by lia.
Qed.

Lemma write_full_loop_delivers_witness :
  write_full_loop [io_bytes 2; io_error EINTR; io_bytes 5]
                  (list_ascii_of_string "abcd") 0 []
  = (Some (Ok tt), list_ascii_of_string "abcd").
Proof.
  apply (proj1 (proj2 (write_full_loop_delivers
                         [io_bytes 2; io_error EINTR; io_bytes 5]
                         (list_ascii_of_string "abcd")))).
  - reflexivity.
  - simpl. lia.
Defined.

Lemma read_full_loop_inv (answers : list io_answer) (size : nat) :
  forall (errno : Z) (src got : list char) r rest,
    (length got <= size)%nat ->
    read_full_loop answers errno src size got = (r, rest) ->
    exists bs,
      src = bs ++ rest /\
      (forall x, r = Some (Ok x) -> x = got ++ bs /\ length x = size) /\
      (forall e, r = Some (Throw e) -> e = runtime_error "Read failed or EOF").
Proof.
  assert (Hstop : forall (src got : list char) r,
             (forall x, r = Some (Ok x) -> x = got /\ length x = size) ->
             (forall e, r = Some (Throw e) ->
                        e = runtime_error "Read failed or EOF") ->
             exists bs,
               src = bs ++ src /\
               (forall x, r = Some (Ok x) -> x = got ++ bs /\ length x = size) /\
               (forall e, r = Some (Throw e) ->
                          e = runtime_error "Read failed or EOF")).
  { intros src got r Hok Hthrow. exists []. split; [reflexivity|].
    split; [|exact Hthrow]. intros x E. rewrite app_nil_r. now apply Hok. }
  induction answers as [|a answers IH]; intros errno src got r rest Hle H;
    cbn [read_full_loop] in H;
    destruct (decide (length got < size)%nat) as [Hlt|Hge].
  - inversion H; subst. apply Hstop; discriminate.
  - inversion H; subst. apply Hstop; [|discriminate].
    intros x [= <-]. split; [reflexivity|lia].
  - destruct a as [n|e0].
    + cbv zeta in H.
      destruct (Nat.min n (Nat.min (size - length got) (length src)))
        as [|k] eqn:Eret.
      * destruct (errno =? EINTR); [now apply IH in H|].
        inversion H; subst. apply Hstop; [discriminate|]. now intros e [= <-].
      * apply IH in H as (bs & Hsrc & Hok & Hthrow);
          [|rewrite length_app, length_take; lia].
        exists (take (S k) src ++ bs). split; [|split; [|exact Hthrow]].
        -- rewrite <- app_assoc, <- Hsrc. now rewrite take_drop.
        -- intros x E. rewrite app_assoc. now apply Hok.
    + destruct (e0 =? EINTR); [now apply IH in H|].
      inversion H; subst. apply Hstop; [discriminate|]. now intros e [= <-].
  - inversion H; subst. apply Hstop; [|discriminate].
    intros x [= <-]. split; [reflexivity|lia].
Qed.

Lemma read_full_loop_refines (answers : list io_answer) (size : nat) :
  forall (errno : Z) (src got : list char),
    errno <> EINTR ->
    forallb transfers answers = true ->
    (size - length got <= length answers)%nat ->
    (length got <= size)%nat ->
    read_full_loop answers errno src size got
    = if decide (size - length got <= length src)%nat
      then (Some (Ok (got ++ take (size - length got) src)),
            drop (size - length got) src)
      else (Some (Throw (runtime_error "Read failed or EOF")), []).
Proof.
  induction answers as [|a answers IH]; intros errno src got He Hok Hcount Hle;
    cbn [read_full_loop];
    destruct (decide (length got < size)%nat) as [Hlt|Hge];
    try (replace (size - length got)%nat with O by lia;
         destruct (decide (0 <= length src)%nat); [|lia];
         now rewrite take_0, drop_0, app_nil_r).
  - cbn [length] in Hcount. lia.
  - cbn [forallb] in Hok. apply andb_prop in Hok as [Ha Hok].
    destruct a as [[|n]|e0]; cbn [transfers] in Ha; try discriminate.
    cbv zeta. cbn [length] in Hcount.
    destruct (Nat.min (S n) (Nat.min (size - length got) (length src)))
      as [|k] eqn:Eret.
    + destruct (Z.eqb_spec errno EINTR); [contradiction|].
      destruct src; [|cbn [length] in Eret; lia].
      destruct (decide (size - length got <= length (@nil char))%nat) as [Hn|_];
        [cbn [length] in Hn; lia|reflexivity].
    + rewrite IH; [|exact He|exact Hok|rewrite length_app, length_take; lia
                   |rewrite length_app, length_take; lia].
      rewrite length_app, length_take, length_drop.
      replace (Nat.min (S k) (length src)) with (S k) by lia.
      destruct (decide (size - (length got + S k) <= length src - S k)%nat),
               (decide (size - length got <= length src)%nat);
        try lia; [|reflexivity].
      rewrite <- app_assoc, take_take_drop, drop_drop.
      replace (S k + (size - (length got + S k)))%nat
        with (size - length got)%nat by lia.
      reflexivity.
Qed.

(** With [EINTR] in [errno], a stream that ends before [size] bytes is
    never reported: whatever the calls return, short of a failure other than
    an interruption, the loop calls [read] again. *)
Lemma read_full_loop_stale (size : nat) (answers : list io_answer) :
  forall (errno : Z) (src got : list char),
    errno = EINTR ->
    (length got + length src < size)%nat ->
    forallb goes_on answers = true ->
    fst (read_full_loop answers errno src size got) = None.
Proof.
  induction answers as [|a answers IH]; intros errno src got He Hshort Hon;
    cbn [read_full_loop];
    (destruct (decide (length got < size)%nat) as [_|Hge]; [|lia]);
    [reflexivity|].
  cbn [forallb] in Hon. apply andb_prop in Hon as [Ha Hon].
  destruct a as [n|e].
  - destruct (Nat.min n (Nat.min (size - length got) (length src)))
      as [|k] eqn:Eret.
    + subst errno. rewrite Z.eqb_refl. now apply IH.
    + apply IH; [exact He| |exact Hon].
      rewrite length_app, length_take, length_drop. lia.
  - cbn [goes_on] in Ha. rewrite Ha. apply IH; [|exact Hshort|exact Hon].
    now apply Z.eqb_eq.
Qed.

(** X2: [read_full] returns the next [size] bytes of the stream, in order:
    whatever the kernel answers, the bytes it consumed are a prefix of the
    stream, they are the [size] bytes it returns when it returns, and the
    only exception it throws is ["Read failed or EOF"].  When [errno] is not
    [EINTR] at the call, no call fails and every call moves a byte while the
    stream lasts, it returns the first [size] bytes and leaves the rest, or
    throws at the end of a stream that is shorter than [size]: the loop
    computes [read_from].  When [errno] is [EINTR] at the call (nothing in
    [read_full] clears it), a stream shorter than [size] is not reported:
    as long as no call fails with another error the loop keeps calling
    [read], neither returning nor throwing. *)
Theorem read_full_loop_reads (answers : list io_answer) (errno : Z)
    (src : list char) (size : nat) :
  (forall r rest,
      read_full_loop answers errno src size [] = (r, rest) ->
      exists bs,
        src = bs ++ rest /\
        (forall x, r = Some (Ok x) -> x = bs /\ length x = size) /\
        (forall e, r = Some (Throw e) ->
                   e = runtime_error "Read failed or EOF")) /\
  (errno <> EINTR ->
   forallb transfers answers = true ->
   (size <= length answers)%nat ->
   read_full_loop answers errno src size []
   = (Some (fst (read_from src size)), snd (read_from src size))) /\
  (errno = EINTR ->
   (length src < size)%nat ->
   forallb goes_on answers = true ->
   fst (read_full_loop answers errno src size []) = None).
Proof.
  split; [|split].
  - intros r rest H.
    apply read_full_loop_inv in H as (bs & Hsrc & Hok & Hthrow);
      [|cbn [length]; lia].
    exists bs. split; [exact Hsrc|]. split; [|exact Hthrow].
    intros x E. now apply Hok.
  - intros He Hok Hcount.
    rewrite read_full_loop_refines by (trivial; cbn [length]; lia).
    cbn [length]. rewrite Nat.sub_0_r, app_nil_l. unfold read_from.
    destruct (decide (size <= length src)%nat); reflexivity.
  - intros He Hshort Hon. now apply read_full_loop_stale.
Qed.

(** Three bytes of four are read in two calls; and with [EINTR] left in
    [errno], three calls that find the stream at its end leave the loop
    running. *)
Lemma read_full_loop_reads_witness :
  read_full_loop [io_bytes 1; io_bytes 5; io_bytes 1] 0
                 (list_ascii_of_string "abcd") 3 []
  = (Some (Ok (list_ascii_of_string "abc")), list_ascii_of_string "d") /\
  fst (read_full_loop [io_bytes 4; io_bytes 4; io_bytes 4] EINTR [] 4 [])
  = None.
Proof.
  split.
  - apply (proj1 (proj2 (read_full_loop_reads
                           [io_bytes 1; io_bytes 5; io_bytes 1] 0
                           (list_ascii_of_string "abcd") 3))).
    + discriminate.
    + reflexivity.
    + simpl. lia.
  - apply (proj2 (proj2 (read_full_loop_reads
                           [io_bytes 4; io_bytes 4; io_bytes 4] EINTR [] 4))).
    + reflexivity.
    + simpl. lia.
    + reflexivity.
Defined.






(** ** Parsing a frame *)

Lemma others_kept_refl (f : fd) (w : world) : others_kept f w w.
Proof. unfold others_kept. destruct f; repeat split. Qed.

Lemma others_kept_trans (f : fd) (w1 w2 w3 : world) :
  others_kept f w1 w2 -> others_kept f w2 w3 -> others_kept f w1 w3.
Proof.
  unfold others_kept. intros (A1 & A2 & A3 & A4) (B1 & B2 & B3 & B4).
  repeat (split; [congruence|]). destruct f; intuition congruence.
Qed.

Lemma others_kept_read_full (f : fd) (size : nat) (w : world) r w' :
  read_full f size w = (r, w') -> others_kept f w w'.
Proof.
  unfold read_full. destruct f.
  - cbn [w_stdin set_reads]. destruct (read_from (w_stdin w) size) as [x rest].
    intros [= <- <-]. repeat split.
  - destruct size; intros [= <- <-]; repeat split.
  - cbn [w_result set_reads]. destruct (read_from (w_result w) size) as [x rest].
    intros [= <- <-]. repeat split.
  - destruct size; intros [= <- <-]; repeat split.
Qed.

Lemma reads_read_full (f : fd) (bs : list char) :
  reads_exactly f bs bs (read_full f (length bs)).
Proof.
  intros w rest H.
  destruct (read_full f (length bs) w) as [r w'] eqn:E.
  pose proof (others_kept_read_full _ _ _ _ _ E) as K.
  exists w'. revert E. unfold read_full. destruct f; cbn [pending] in *.
  - cbn [w_stdin set_reads]. rewrite H, read_from_app.
    intros [= <- <-]. now repeat split.
  - symmetry in H. apply app_eq_nil in H as [-> ->].
    intros [= <- <-]. now repeat split.
  - cbn [w_result set_reads]. rewrite H, read_from_app.
    intros [= <- <-]. now repeat split.
  - symmetry in H. apply app_eq_nil in H as [-> ->].
    intros [= <- <-]. now repeat split.
Qed.

Lemma reads_ret {A : Type} (f : fd) (a : A) : reads_exactly f [] a (mret a).
Proof.
  intros w rest H. exists w. split; [reflexivity|]. split; [exact H|].
  apply others_kept_refl.
Qed.

Lemma reads_bind {A B : Type} (f : fd) (b1 b2 : list char) (a : A) (c : B)
    (m : M A) (k : A -> M B) :
  reads_exactly f b1 a m -> reads_exactly f b2 c (k a) ->
  reads_exactly f (b1 ++ b2) c (m ≫= k).
Proof.
  intros H1 H2 w rest Hw. rewrite <- app_assoc in Hw.
  destruct (H1 w _ Hw) as (w1 & E1 & P1 & K1).
  destruct (H2 w1 _ P1) as (w2 & E2 & P2 & K2).
  exists w2. unfold mbind, M_bind. rewrite E1. split; [exact E2|].
  split; [exact P2|]. eapply others_kept_trans; eassumption.
Qed.

Lemma reads_ext {A : Type} (f : fd) (b1 b2 : list char) (a1 a2 : A) (m : M A) :
  reads_exactly f b1 a1 m -> b1 = b2 -> a1 = a2 -> reads_exactly f b2 a2 m.
Proof. now intros H <- <-. Qed.

Lemma reads_read_int (f : fd) (z : Z) :
  INT_MIN <= z <= INT_MAX ->
  reads_exactly f (le_bytes sizeof_int z) z (read_int f).
Proof.
  intros Hz. unfold read_int.
  eapply reads_ext;
    [eapply reads_bind; [exact (reads_read_full f (le_bytes sizeof_int z))|];
     apply reads_ret
    |apply app_nil_r|now apply int_of_bytes_le_bytes].
Qed.

Lemma reads_read_llong (f : fd) (z : Z) :
  LLONG_MIN <= z <= LLONG_MAX ->
  reads_exactly f (le_bytes sizeof_llong z) z (read_llong f).
Proof.
  intros Hz. unfold read_llong.
  eapply reads_ext;
    [eapply reads_bind; [exact (reads_read_full f (le_bytes sizeof_llong z))|];
     apply reads_ret
    |apply app_nil_r|now apply llong_of_bytes_le_bytes].
Qed.

Lemma reads_read_count (f : fd) (n : nat) :
  Z.of_nat n <= INT_MAX ->
  reads_exactly f (le_bytes sizeof_int (Z.of_nat n)) (Z.of_nat n) (read_int f).
Proof. intros H. apply reads_read_int. unfold INT_MIN. lia. Qed.

Lemma reads_read_proto_str (f : fd) (s : string) :
  string_fits s ->
  reads_exactly f (proto_str_bytes s) s (read_proto_str f).
Proof.
  intros Hfit. rewrite proto_str_bytes_fits by exact Hfit.
  unfold read_proto_str.
  eapply reads_bind; [now apply reads_read_count|].
  destruct s as [|c s].
  - apply reads_ret.
  - cbn [String.length]. rewrite Nat2Z.inj_succ.
    destruct (Z.eqb_spec (Z.succ (Z.of_nat (String.length s))) 0); [lia|].
    destruct (Z.ltb_spec (Z.succ (Z.of_nat (String.length s))) 0); [lia|].
    rewrite <- Nat2Z.inj_succ, Nat2Z.id.
    change (S (String.length s)) with (String.length (String c s)).
    rewrite <- list_ascii_of_string_length.
    eapply reads_ext;
      [eapply reads_bind; [apply reads_read_full|]; apply reads_ret
      |apply app_nil_r|apply string_of_list_ascii_of_string].
Qed.

Lemma reads_read_sized_buf (f : fd) (buf : list char) :
  Z.of_nat (length buf) <= INT_MAX ->
  reads_exactly f (proto_buf_bytes buf) buf (read_sized_buf f).
Proof.
  intros Hfit. rewrite proto_buf_bytes_fits by exact Hfit.
  unfold read_sized_buf.
  eapply reads_bind; [now apply reads_read_count|].
  destruct (Z.ltb_spec (Z.of_nat (length buf)) 0); [lia|].
  destruct (Z.ltb_spec 0 (Z.of_nat (length buf))) as [Hpos|Hz].
  - rewrite Nat2Z.id. apply reads_read_full.
  - destruct buf; [apply reads_ret|cbn [length] in Hz; lia].
Qed.

Lemma reads_read_strings (f : fd) (ss : list string) :
  Forall string_fits ss ->
  reads_exactly f (flat_map proto_str_bytes ss) ss (read_strings f (length ss)).
Proof.
  induction 1 as [|s ss Hs _ IH]; cbn [flat_map length read_strings].
  - apply reads_ret.
  - eapply reads_bind; [now apply reads_read_proto_str|].
    eapply reads_ext;
      [eapply reads_bind; [exact IH|]; apply reads_ret
      |apply app_nil_r|reflexivity].
Qed.

Lemma reads_read_input_files (f : fd) (fs : list FileInfo) :
  Forall input_file_fits fs ->
  reads_exactly f
    (flat_map (fun x => proto_str_bytes (filename x)
                        ++ proto_buf_bytes (content x)
                        ++ le_bytes sizeof_int (mode x)) fs)
    fs (read_input_files f (length fs)).
Proof.
  induction 1 as [|x fs (Hn & Hc & Hm) _ IH];
    cbn [flat_map length read_input_files].
  - apply reads_ret.
  - rewrite <- !app_assoc.
    eapply reads_bind; [now apply reads_read_proto_str|].
    eapply reads_bind; [now apply reads_read_sized_buf|].
    eapply reads_bind; [now apply reads_read_int|].
    eapply reads_ext;
      [eapply reads_bind; [exact IH|]; apply reads_ret
      |apply app_nil_r|now destruct x].
Qed.

Lemma reads_read_config (cfg : JudgeConfig) :
  request_fits cfg ->
  reads_exactly STDIN (request_bytes cfg) cfg read_config.
Proof.
  intros (Ht & Hm & Hp & Hr & Hz & Hg & Hi & Hs & Hcn & Hc & Hin & Hf
          & Hon & Ho).
  unfold read_config, request_bytes.
  eapply reads_bind; [now apply reads_read_int|].
  eapply reads_bind; [now apply reads_read_llong|].
  eapply reads_bind; [now apply reads_read_int|].
  do 5 (eapply reads_bind; [now apply reads_read_proto_str|]).
  eapply reads_bind; [now apply reads_read_count|]. rewrite Nat2Z.id.
  eapply reads_bind; [now apply reads_read_strings|].
  eapply reads_bind; [now apply reads_read_count|]. rewrite Nat2Z.id.
  eapply reads_bind; [now apply reads_read_input_files|].
  eapply reads_bind; [now apply reads_read_count|]. rewrite Nat2Z.id.
  eapply reads_ext;
    [eapply reads_bind; [now apply reads_read_strings|]; apply reads_ret
    |apply app_nil_r|now destruct cfg].
Qed.

(** X4: the request parser of [main] inverts the request layout: for every
    configuration whose numbers, lengths and counts fit their frame fields,
    [read_config] on a descriptor 0 that holds the request's bytes returns
    that configuration, consumes exactly those bytes, and touches neither
    the result pipe, nor descriptor 1, nor any directory. *)
Theorem read_config_request_roundtrip (cfg : JudgeConfig) (w : world)
    (rest : list char) :
  request_fits cfg ->
  w_stdin w = request_bytes cfg ++ rest ->
  exists w',
    read_config w = (Ok cfg, w') /\
    w_stdin w' = rest /\
    w_result w' = w_result w /\ w_result_room w' = w_result_room w /\
    w_stdout w' = w_stdout w /\ w_stdout_room w' = w_stdout_room w /\
    w_dirs w' = w_dirs w.
Proof.
  intros Hfit Hw.
  destruct (reads_read_config cfg Hfit w rest Hw)
    as (w' & E & P & K1 & K2 & K3 & K4 & K5).
  exists w'. now repeat split.
Qed.

Lemma request_fits_cfg0 : request_fits cfg0.
Proof.
  unfold request_fits, string_fits, INT_MIN, INT_MAX, LLONG_MIN, LLONG_MAX.
  cbn. repeat split; try lia; repeat constructor; cbn; lia.
Qed.

Lemma read_config_request_roundtrip_witness :
  exists w',
    read_config (initial_world (request_bytes cfg0 ++ ["!"%char]) None ∅)
    = (Ok cfg0, w') /\
    w_stdin w' = ["!"%char].
Proof.
  destruct (read_config_request_roundtrip cfg0
              (initial_world (request_bytes cfg0 ++ ["!"%char]) None ∅)
              ["!"%char] request_fits_cfg0 eq_refl)
    as (w' & E & Hin & _).
  exists w'. split; [exact E|exact Hin].
Defined.

(** *** How parsing fails *)

Lemma parses_ret {A : Type} (a : A) : parses (mret a : M A).
Proof. intros w r w' [= <- <-]. split; [apply others_kept_refl|exact I]. Qed.

Lemma parses_throw {A : Type} (e : exn) : parse_error e -> parses (@throw A e).
Proof.
  intros He w r w' [= <- <-]. split; [apply others_kept_refl|exact He].
Qed.

Lemma parses_bind {A B : Type} (m : M A) (k : A -> M B) :
  parses m -> (forall a, parses (k a)) -> parses (m ≫= k).
Proof.
  intros Hm Hk w r w' H. unfold mbind, M_bind in H.
  destruct (m w) as [[a|e|] w1] eqn:E; apply Hm in E as [K1 R1].
  - apply Hk in H as [K2 R2]. split; [|exact R2].
    eapply others_kept_trans; eassumption.
  - inversion H; subst. now split.
  - contradiction.
Qed.

Lemma parses_read_full (n : nat) : parses (read_full STDIN n).
Proof.
  intros w r w' H. split; [exact (others_kept_read_full _ _ _ _ _ H)|].
  unfold read_full, read_from in H. cbn [w_stdin set_reads] in H.
  destruct (decide (n <= length (w_stdin w))%nat); inversion H; subst;
    [exact I|now left].
Qed.

Create HintDb parses.
#[local] Hint Resolve parses_ret parses_read_full : parses.
#[local] Hint Extern 1 (parses (throw _)) =>
  apply parses_throw; unfold parse_error; tauto : parses.

Ltac parses_chain :=
  repeat first
    [ progress (auto with parses)
    | apply parses_bind; [|intros ?]
    | match goal with
      | |- parses (if ?b then _ else _) => destruct b
      end ].

Lemma parses_read_int : parses (read_int STDIN).
Proof. unfold read_int. parses_chain. Qed.

Lemma parses_read_llong : parses (read_llong STDIN).
Proof. unfold read_llong. parses_chain. Qed.

#[local] Hint Resolve parses_read_int parses_read_llong : parses.

Lemma parses_read_proto_str : parses (read_proto_str STDIN).
Proof. unfold read_proto_str. parses_chain. Qed.

Lemma parses_read_sized_buf : parses (read_sized_buf STDIN).
Proof. unfold read_sized_buf. parses_chain. Qed.

#[local] Hint Resolve parses_read_proto_str parses_read_sized_buf : parses.

Lemma parses_read_strings (n : nat) : parses (read_strings STDIN n).
Proof. induction n; cbn [read_strings]; parses_chain. Qed.

Lemma parses_read_input_files (n : nat) : parses (read_input_files STDIN n).
Proof. induction n; cbn [read_input_files]; parses_chain. Qed.

#[local] Hint Resolve parses_read_strings parses_read_input_files : parses.

Lemma parses_read_config : parses read_config.
Proof. unfold read_config. parses_chain. Qed.

Lemma main_gather_read_config_throws (o : supervisor_oracle) (w w1 : world)
    (e : exn) :
  read_config w = (Throw e, w1) -> main_gather o w = (Throw e, w1).
Proof. intros H. unfold main_gather, mbind, M_bind. now rewrite H. Qed.

(** The handler's run after a throw from the gathering part of [main]. *)
Lemma main_after_throw (o : supervisor_oracle) (w w1 : world) (e : exn) :
  w_stdout_room w = None ->
  main_gather o w = (Throw e, w1) ->
  main o w = (Returned 1, emit STDOUT (frame_bytes (uke_result e) 0) w1) /\
  w_stdout (emit STDOUT (frame_bytes (uke_result e) 0) w1)
  = w_stdout w ++ frame_bytes (uke_result e) 0.
Proof.
  intros Hroom H.
  destruct (keeps_stdout_main_gather o _ _ _ H) as [Hout Hroom1].
  unfold main. rewrite main_try_unfold, H.
  rewrite main_catch_stdout by congruence.
  split; [reflexivity|]. cbn [emit w_stdout set_stdout]. now rewrite Hout.
Qed.

(** X5: the parsing of a request never blocks and fails in three ways only:
    the stream ends before a field is complete (["Read failed or EOF"]), a
    string has a negative length, or a file content has a negative size (the
    two length errors of the standard library).  Whichever it is, when
    descriptor 1 has received nothing yet and takes what is written to it,
    the supervisor answers with the one UKE frame of that exception, exits
    with status 1, and has started nothing: no directory was made and the
    result pipe is as it was. *)
Theorem main_malformed_request (o : supervisor_oracle) (w : world) :
  w_stdout w = [] ->
  w_stdout_room w = None ->
  forall r w1,
    read_config w = (r, w1) ->
    match r with
    | Ok _ => True
    | Blocked => False
    | Throw e =>
        parse_error e /\
        exists w2,
          main o w = (Returned 1, w2) /\
          w_stdout w2 = frame_bytes (uke_result e) 0 /\
          w_dirs w2 = w_dirs w /\ w_result w2 = w_result w
    end.
Proof.
  intros Hout Hroom r w1 H.
  destruct (parses_read_config _ _ _ H) as [(_ & _ & Hd & Hr & _) Hres].
  destruct r as [cfg|e|]; [exact I| |exact Hres].
  split; [exact Hres|].
  apply (main_gather_read_config_throws o) in H.
  destruct (main_after_throw o w w1 e Hroom H) as [Hmain Hbytes].
  eexists. split; [exact Hmain|]. rewrite Hbytes, Hout.
  split; [reflexivity|]. split; [exact Hd|exact Hr].
Qed.

Lemma main_malformed_request_witness :
  exists w2,
    main so_ok (initial_world (le_bytes sizeof_int 1000) None ∅)
    = (Returned 1, w2) /\
    w_stdout w2
    = frame_bytes (uke_result (runtime_error "Read failed or EOF")) 0.
Proof.
  pose proof (main_malformed_request so_ok
                (initial_world (le_bytes sizeof_int 1000) None ∅)
                eq_refl eq_refl
                (Throw (runtime_error "Read failed or EOF")) _ eq_refl)
    as (_ & w2 & Hmain & Hbytes & _).
  exists w2. split; [exact Hmain|exact Hbytes].
Defined.

(** X6: what [read_proto_str] does with a length prefix it cannot honour.
    A negative length makes the string constructor throw a length error
    after the four bytes of the prefix were consumed, and nothing more; a
    positive length beyond what the stream still holds makes the payload
    read throw ["Read failed or EOF"]. *)
Theorem read_proto_str_bad_length (f : fd) (len : Z) (rest : list char)
    (w : world) :
  f = STDIN \/ f = RESULT_R ->
  pending f w = le_bytes sizeof_int len ++ rest ->
  (INT_MIN <= len < 0 ->
   exists w',
     read_proto_str f w = (Throw string_length_error, w') /\
     pending f w' = rest) /\
  (0 < len <= INT_MAX -> Z.of_nat (length rest) < len ->
   exists w',
     read_proto_str f w = (Throw (runtime_error "Read failed or EOF"), w')).
Proof.
  intros Hf Hw. split.
  - intros Hlen.
    destruct (reads_read_int f len ltac:(unfold INT_MAX; lia) w rest Hw)
      as (w1 & E & P & _).
    exists w1. unfold read_proto_str, mbind, M_bind. rewrite E.
    destruct (Z.eqb_spec len 0); [lia|].
    destruct (Z.ltb_spec len 0); [|lia]. split; [reflexivity|exact P].
  - intros Hlen Hshort.
    destruct (reads_read_int f len ltac:(unfold INT_MIN; lia) w rest Hw)
      as (w1 & E & P & _).
    unfold read_proto_str, mbind, M_bind. rewrite E.
    destruct (Z.eqb_spec len 0); [lia|].
    destruct (Z.ltb_spec len 0); [lia|].
    unfold read_full, read_from.
    destruct Hf as [-> | ->]; cbn [pending] in P;
      cbn [w_stdin w_result set_reads]; rewrite P;
      (destruct (decide (Z.to_nat len <= length rest)%nat); [lia|]);
      eexists; reflexivity.
Qed.

Lemma read_proto_str_bad_length_witness :
  exists w',
    read_proto_str STDIN
      (initial_world (le_bytes sizeof_int (-1) ++ ["a"%char]) None ∅)
    = (Throw string_length_error, w') /\
    pending STDIN w' = ["a"%char].
Proof.
  apply (proj1 (read_proto_str_bad_length STDIN (-1) ["a"%char]
                  (initial_world (le_bytes sizeof_int (-1) ++ ["a"%char]) None ∅)
                  (or_introl eq_refl) eq_refl)).
  unfold INT_MIN. lia.
Defined.

(** ** The result frame, written and read back *)

Lemma reads_read_out_files (f : fd) (fs : list FileInfo) :
  Forall file_fits fs ->
  reads_exactly f (output_files_bytes fs) fs (read_out_files f (length fs)).
Proof.
  induction 1 as [|x fs (Hn & Hc & Hm) _ IH];
    cbn [output_files_bytes flat_map length read_out_files].
  - apply reads_ret.
  - rewrite <- !app_assoc.
    eapply reads_bind; [now apply reads_read_proto_str|].
    eapply reads_bind; [now apply reads_read_sized_buf|].
    eapply reads_ext;
      [eapply reads_bind; [exact IH|]; apply reads_ret
      |apply app_nil_r|].
    destruct x as [n c m]. cbn [mode] in Hm. now subst m.
Qed.

Lemma reads_read_frame (f : fd) (res : JudgeResult) :
  result_fits res ->
  reads_exactly f (result_bytes res)
    (res, Z.of_nat (length (output_files res))) (read_frame f).
Proof.
  intros (Hv & Ht & Hm & Ho & He & Hc & Hfs).
  unfold result_bytes, read_frame.
  rewrite (to_int_id (Z.of_nat _)) by (unfold INT_MIN; lia).
  eapply reads_bind; [now apply reads_read_int|].
  eapply reads_bind; [now apply reads_read_int|].
  eapply reads_bind; [now apply reads_read_llong|].
  eapply reads_bind; [now apply reads_read_proto_str|].
  eapply reads_bind; [now apply reads_read_proto_str|].
  eapply reads_bind; [now apply reads_read_count|]. rewrite Nat2Z.id.
  eapply reads_ext;
    [eapply reads_bind; [now apply reads_read_out_files|]; apply reads_ret
    |apply app_nil_r|now destruct res].
Qed.

Lemma write_chunks_app (f : fd) (a b : list (list char)) (w : world) :
  write_chunks f (a ++ b) w
  = (_ ← write_chunks f a; write_chunks f b) w.
Proof.
  revert w. induction a as [|c a IH]; intros w; [reflexivity|].
  cbn [app write_chunks]. unfold mbind, M_bind in *.
  destruct (write_full f c w) as [[[]|e|] w1]; [apply IH|reflexivity..].
Qed.

Lemma write_proto_str_chunks (f : fd) (s : string) (w : world) :
  write_proto_str f s w = write_chunks f (proto_str_chunks s) w.
Proof.
  unfold write_proto_str, proto_str_chunks, write_int.
  cbn [write_chunks]. unfold mbind, M_bind.
  destruct (write_full f _ w) as [[[]|e|] w1]; [|reflexivity..].
  destruct (0 <? _); [|reflexivity]. cbn [write_chunks].
  unfold mbind, M_bind.
  destruct (write_full f _ w1) as [[[]|e|] w2]; reflexivity.
Qed.

Lemma write_proto_buf_chunks (f : fd) (buf : list char) (w : world) :
  write_proto_buf f buf w = write_chunks f (proto_buf_chunks buf) w.
Proof.
  unfold write_proto_buf, proto_buf_chunks, write_int.
  cbn [write_chunks]. unfold mbind, M_bind.
  destruct (write_full f _ w) as [[[]|e|] w1]; [|reflexivity..].
  destruct (0 <? _); [|reflexivity]. cbn [write_chunks].
  unfold mbind, M_bind.
  destruct (write_full f _ w1) as [[[]|e|] w2]; reflexivity.
Qed.

Lemma write_output_files_chunks (f : fd) (fs : list FileInfo) (w : world) :
  write_output_files f fs w
  = write_chunks f (flat_map (fun x => proto_str_chunks (filename x)
                                       ++ proto_buf_chunks (content x)) fs) w.
Proof.
  revert w. induction fs as [|x fs IH]; intros w; [reflexivity|].
  cbn [write_output_files flat_map].
  rewrite <- app_assoc, !write_chunks_app. unfold mbind, M_bind.
  rewrite write_proto_str_chunks.
  destruct (write_chunks f (proto_str_chunks _) w) as [[[]|e|] w1];
    [|reflexivity..].
  rewrite write_chunks_app. unfold mbind, M_bind.
  rewrite write_proto_buf_chunks.
  destruct (write_chunks f (proto_buf_chunks _) w1) as [[[]|e|] w2];
    [apply IH|reflexivity..].
Qed.

(** [write_result] is one [write_full] per buffer of [result_chunks], in
    that order. *)
Lemma write_result_chunks (f : fd) (res : JudgeResult) (w : world) :
  write_result f res w = write_chunks f (result_chunks res) w.
Proof.
  unfold write_result, result_chunks, write_int, write_llong.
  cbn [app write_chunks]. unfold mbind, M_bind.
  destruct (write_full f _ w) as [[[]|e|] w1]; [|reflexivity..].
  destruct (write_full f _ w1) as [[[]|e|] w2]; [|reflexivity..].
  destruct (write_full f _ w2) as [[[]|e|] w3]; [|reflexivity..].
  rewrite write_chunks_app. unfold mbind, M_bind.
  rewrite write_proto_str_chunks.
  destruct (write_chunks f (proto_str_chunks _) w3) as [[[]|e|] w4];
    [|reflexivity..].
  rewrite write_chunks_app. unfold mbind, M_bind.
  rewrite write_proto_str_chunks.
  destruct (write_chunks f (proto_str_chunks _) w4) as [[[]|e|] w5];
    [|reflexivity..].
  cbn [app write_chunks]. unfold mbind, M_bind.
  destruct (write_full f _ w5) as [[[]|e|] w6]; [|reflexivity..].
  apply write_output_files_chunks.
Qed.

Lemma concat_proto_str_chunks (s : string) :
  concat (proto_str_chunks s) = proto_str_bytes s.
Proof.
  unfold proto_str_chunks, proto_str_bytes. cbn [concat].
  destruct (0 <? _); cbn [concat]; now rewrite ?app_nil_r.
Qed.

Lemma concat_proto_buf_chunks (buf : list char) :
  concat (proto_buf_chunks buf) = proto_buf_bytes buf.
Proof.
  unfold proto_buf_chunks, proto_buf_bytes. cbn [concat].
  destruct (0 <? _); cbn [concat]; now rewrite ?app_nil_r.
Qed.

(** The buffers of [result_chunks], end to end, are the result frame. *)
Lemma concat_result_chunks (res : JudgeResult) :
  concat (result_chunks res) = result_bytes res.
Proof.
  unfold result_chunks, result_bytes, output_files_bytes.
  rewrite !concat_app, !concat_proto_str_chunks. cbn [concat].
  rewrite !app_nil_r, <- !app_assoc. do 6 (apply (f_equal2 app); [reflexivity|]).
  induction (output_files res) as [|x fs IH]; [reflexivity|].
  cbn [flat_map]. rewrite !concat_app, IH, concat_proto_str_chunks,
    concat_proto_buf_chunks, <- app_assoc. reflexivity.
Qed.

(** A write that goes through uses up at least its bytes of what the pipe
    can still hold. *)
Lemma pipe_write_room (p p' : pipe) (n : N) :
  pipe_wf p -> (0 < n)%N -> pipe_write p n = Some p' ->
  pipe_wf p' /\ (pipe_room p' + n <= pipe_room p)%N.
Proof.
  unfold pipe_wf, pipe_write, pipe_room, PAGE_SIZE.
  destruct p as [free newest]. cbn [p_free p_newest].
  intros Hwf Hn H.
  pose proof (N.div_mod n 4096 ltac:(discriminate)) as Hdm.
  pose proof (N.mod_upper_bound n 4096 ltac:(discriminate)) as Hlt.
  assert (Hmerge : forall e : N,
             (e <= 4096)%N -> (0 < n mod 4096)%N ->
             (e + n mod 4096 <= 4096)%N ->
             (if ((n - n mod 4096) / 4096 =? 0)%N
              then Some (mkPipe free (Some (e + n mod 4096)%N))
              else if ((n - n mod 4096) / 4096 <=? free)%N
                   then Some (mkPipe (free - (n - n mod 4096) / 4096)
                                     (Some 4096%N))
                   else None) = Some p' ->
             match p_newest p' with
             | Some e0 => (e0 <= 4096)%N
             | None => True
             end
             /\ (4096 * p_free p'
                 + match p_newest p' with
                   | Some e0 => 4096 - e0
                   | None => 0
                   end + n
                 <= 4096 * free + (4096 - e))%N).
  { intros e He Hc Hfit Hm.
    assert (Hq : ((n - n mod 4096) / 4096 = n / 4096)%N).
    { replace (n - n mod 4096)%N with (n / 4096 * 4096)%N by lia.
      now apply N.div_mul. }
    rewrite Hq in Hm.
    destruct (N.eqb_spec (n / 4096) 0) as [Hz|Hz].
    - inversion Hm; subst p'. cbn [p_free p_newest]. lia.
    - destruct (N.leb_spec (n / 4096) free) as [Hle|Hgt]; [|discriminate].
      inversion Hm; subst p'. cbn [p_free p_newest]. lia. }
  assert (Hfresh :
             (if ((n + 4096 - 1) / 4096 <=? free)%N
              then Some (mkPipe (free - (n + 4096 - 1) / 4096)
                           (Some (n - ((n + 4096 - 1) / 4096 - 1) * 4096)%N))
              else None) = Some p' ->
             match p_newest p' with
             | Some e0 => (e0 <= 4096)%N
             | None => True
             end
             /\ (4096 * p_free p'
                 + match p_newest p' with
                   | Some e0 => 4096 - e0
                   | None => 0
                   end + n
                 <= 4096 * free)%N).
  { intros Hm.
    pose proof (N.div_mod (n + 4096 - 1) 4096 ltac:(discriminate)) as Hdm'.
    pose proof (N.mod_upper_bound (n + 4096 - 1) 4096 ltac:(discriminate))
      as Hlt'.
    destruct (N.leb_spec ((n + 4096 - 1) / 4096) free) as [Hle|Hgt];
      [|discriminate].
    inversion Hm; subst p'. cbn [p_free p_newest]. lia. }
  destruct newest as [e|].
  - destruct ((0 <? n mod 4096)%N && (e + n mod 4096 <=? 4096)%N) eqn:Ec.
    + apply andb_prop in Ec as [Ec1 Ec2].
      apply N.ltb_lt in Ec1. apply N.leb_le in Ec2.
      now apply Hmerge.
    + destruct (Hfresh H) as [A B]. split; [exact A|]. lia.
  - destruct (Hfresh H) as [A B]. split; [exact A|]. lia.
Qed.

Lemma pipe_takes_room (sizes : list N) :
  forall p : pipe,
    pipe_wf p -> pipe_takes p sizes = true ->
    (foldr N.add 0%N sizes <= pipe_room p)%N.
Proof.
  induction sizes as [|n sizes IH]; intros p Hwf H; cbn [foldr]; [lia|].
  cbn [pipe_takes] in H. destruct (N.eqb_spec n 0) as [->|Hn].
  - specialize (IH p Hwf H). lia.
  - destruct (pipe_write p n) as [p'|] eqn:E; [|discriminate].
    destruct (pipe_write_room p p' n Hwf ltac:(lia) E) as [Hwf' Hroom].
    specialize (IH p' Hwf' H). lia.
Qed.

Lemma length_concat_sizes (chunks : list (list char)) :
  N.of_nat (length (concat chunks))
  = foldr N.add 0%N ((fun c => N.of_nat (length c)) <$> chunks).
Proof.
  induction chunks as [|c chunks IH]; [reflexivity|].
  cbn [concat fmap list_fmap foldr]. rewrite length_app. lia.
Qed.

(** A frame that a fresh pipe takes buffer by buffer is within the
    capacity of a pipe. *)
Lemma pipe_fits_capacity (res : JudgeResult) :
  pipe_fits res -> (N.of_nat (length (result_bytes res)) <= PIPE_CAPACITY)%N.
Proof.
  intros H. rewrite <- concat_result_chunks, length_concat_sizes.
  apply (pipe_takes_room _ fresh_pipe); [exact I|exact H].
Qed.

Lemma pipe_fits_accepts (res : JudgeResult) (w : world) :
  w_result_room w = Some PIPE_CAPACITY -> pipe_fits res ->
  accepts RESULT_W w (length (result_bytes res)).
Proof.
  intros Hroom H. cbn [accepts]. rewrite Hroom. cbn [has_room].
  now apply pipe_fits_capacity.
Qed.

(** Sixteen buffers are used up by a frame of 61468 bytes, short of the
    65536 a pipe can hold: three numbers and a length share the first
    buffer, 61440 bytes of captured output fill fifteen more, and the next
    length finds no buffer. *)
Example pipe_slots_run_out :
  pipe_takes fresh_pipe [4; 4; 8; 4; 61440]%N = true /\
  pipe_takes fresh_pipe [4; 4; 8; 4; 61440; 4]%N = false /\
  (4 + 4 + 8 + 4 + 61440 + 4 + 4 <= PIPE_CAPACITY)%N.
Proof. repeat split; vm_compute; congruence. Qed.

(** X7: the result frame survives the pipe.  For every result whose
    fields fit the frame (numbers in range, lengths and the file count up to
    [INT_MAX], modes zero since the frame has no mode field) and whose frame
    a fresh pipe takes buffer by buffer, [write_result] on a fresh result
    pipe, followed by the frame reader of [main], gives back the same result
    with its file count, and leaves the pipe empty. *)
Theorem result_frame_roundtrip (res : JudgeResult) (w : world) :
  result_fits res ->
  w_result w = [] ->
  w_result_room w = Some PIPE_CAPACITY ->
  pipe_fits res ->
  exists w1 w2,
    write_result RESULT_W res w = (Ok tt, w1) /\
    w_result w1 = result_bytes res /\
    read_frame RESULT_R w1
    = (Ok (res, Z.of_nat (length (output_files res))), w2) /\
    w_result w2 = [].
Proof.
  intros Hfit Hempty Hfresh Hpipe.
  pose proof (pipe_fits_accepts res w Hfresh Hpipe) as Hroom.
  destruct (writes_write_result RESULT_W res w) as [Hwrite _].
  exists (emit RESULT_W (result_bytes res) w).
  assert (Hw1 : w_result (emit RESULT_W (result_bytes res) w)
                = result_bytes res ++ []).
  { cbn [emit w_result set_result]. now rewrite Hempty, app_nil_r. }
  destruct (reads_read_frame RESULT_R res Hfit _ [] Hw1) as (w2 & E & P & _).
  exists w2. split; [now apply Hwrite|].
  split; [now rewrite app_nil_r in Hw1|]. split; [exact E|exact P].
Qed.

Lemma result_fits_res0 : result_fits res0.
Proof.
  unfold result_fits, file_fits, INT_MIN, INT_MAX, LLONG_MIN, LLONG_MAX.
  cbn. repeat split; try lia; repeat constructor; cbn; lia.
Qed.

Lemma result_frame_roundtrip_witness :
  exists w1 w2,
    write_result RESULT_W res0 (initial_world [] None ∅) = (Ok tt, w1) /\
    w_result w1 = result_bytes res0 /\
    read_frame RESULT_R w1 = (Ok (res0, 1), w2) /\
    w_result w2 = [].
Proof.
  apply (result_frame_roundtrip res0 (initial_world [] None ∅)
           result_fits_res0 eq_refl eq_refl).
  vm_compute. reflexivity.
Defined.

(** ** The container init, path by path *)

Lemma mkdir_dirs (path : string) (ret : Z) (w : world) :
  w_dirs w ⊆ w_dirs (mkdir path ret w) /\
  w_dirs (mkdir path ret w) ⊆ w_dirs w ∪ {[path]} /\
  (ret = 0 -> path ∈ w_dirs (mkdir path ret w)).
Proof.
  unfold mkdir. destruct (Z.eqb_spec ret 0) as [->|Hne];
    cbn [w_dirs set_dirs]; repeat split; try contradiction;
    intros x; rewrite ?elem_of_union, ?elem_of_singleton; tauto.
Qed.



Lemma init_calls_succeed_io_ok : init_calls_succeed io_ok cfg0.
Proof.
  unfold init_calls_succeed. cbn. repeat split; lia.
Qed.


(** X9: the failure paths of the container init.  A run that neither
    returns 0 nor blocks returned 1 or was terminated by an exception; it
    wrote nothing to the result pipe and removed no directory: every
    directory that existed still exists, the only ones that can have
    appeared are the scratch directory and the cgroup directory, and the
    scratch directory is there whenever the run got past the namespace
    set-up and its [mkdir] succeeded. *)
Theorem container_init_failure_leaves (o : init_oracle) (cfg : JudgeConfig)
    (w w' : world) (out : outcome) :
  container_init o cfg w = (out, w') ->
  out <> Returned 0 -> out <> Blocks ->
  (out = Returned 1 \/ out = Terminated) /\
  w_result w' = w_result w /\ w_result_room w' = w_result_room w /\
  w_dirs w ⊆ w_dirs w' /\
  w_dirs w' ⊆ w_dirs w ∪ {[sandbox_root cfg]} ∪ {[cgroup_path cfg]} /\
  (0 < io_barrier_read o -> io_sethostname o = 0 -> io_mount_private o = 0 ->
   io_mkdir_root o = 0 -> sandbox_root cfg ∈ w_dirs w').
Proof.
  unfold container_init. intros H H0 HB.
  destruct (mkdir_dirs (sandbox_root cfg) (io_mkdir_root o) w)
    as (D1 & D2 & D3).
  destruct (mkdir_dirs (cgroup_path cfg) (io_mkdir_cgroup o)
              (mkdir (sandbox_root cfg) (io_mkdir_root o) w))
    as (D4 & D5 & D6).
  destruct (mkdir_io (sandbox_root cfg) (io_mkdir_root o) w)
    as (R1 & R2 & _ & _).
  destruct (mkdir_io (cgroup_path cfg) (io_mkdir_cgroup o)
              (mkdir (sandbox_root cfg) (io_mkdir_root o) w))
    as (R3 & R4 & _ & _).
  assert (Hfirst : forall b1 b2 b3 : bool,
             b1 = true \/ (negb b2 || negb b3) = true ->
             0 < io_barrier_read o -> io_sethostname o = 0 ->
             io_mount_private o = 0 ->
             b1 = (io_barrier_read o <=? 0) ->
             b2 = (io_sethostname o =? 0) -> b3 = (io_mount_private o =? 0) ->
             False).
  { intros b1 b2 b3 Hb Hpos Hs Hm -> -> ->. rewrite Hs, Hm in Hb.
    destruct (Z.leb_spec (io_barrier_read o) 0); [lia|].
    cbn in Hb. destruct Hb; discriminate. }
  repeat match type of H with
         | (if ?b then _ else _) = _ => destruct b eqn:?
         | match ?r with Ok _ => _ | Throw _ => _ | Blocked => _ end = _ =>
             destruct r eqn:?
         end;
    try match type of H with
        | context [write_result RESULT_W ?r ?x] =>
            destruct (writes_write_result RESULT_W r x) as [Hok Hfail];
            destruct (accepts_dec RESULT_W x (length (result_bytes r))) as [A|A];
            [rewrite (Hok A) in H|destruct (Hfail A) as (w'' & E); rewrite E in H]
        end;
    inversion H; subst; clear H; try contradiction;
    (split; [tauto|]); (split; [congruence|]); (split; [congruence|]);
    (split; [try reflexivity; try exact D1; try (etrans; [exact D1|exact D4])|]);
    (split;
     [intros x Hx; rewrite !elem_of_union, !elem_of_singleton;
      try (apply D5 in Hx; rewrite elem_of_union, elem_of_singleton in Hx;
           destruct Hx as [Hx|Hx]; [|tauto]);
      try (apply D2 in Hx; rewrite elem_of_union, elem_of_singleton in Hx);
      tauto|]);
    intros Hpos Hs Hm Hmk;
    try (exfalso; eapply (Hfirst _ _ _); eauto; fail);
    try (apply D4); now apply D3.
Qed.

Lemma container_init_failure_leaves_witness :
  exists w',
    container_init io_cgroup_write_fails cfg0 (initial_world [] None ∅)
    = (Returned 1, w') /\
    w_result w' = [] /\ (sandbox_root cfg0 ∈ w_dirs w').
Proof.
  eexists. split; [reflexivity|].
  destruct (container_init_failure_leaves io_cgroup_write_fails cfg0
              (initial_world [] None ∅) _ _ eq_refl
              ltac:(discriminate) ltac:(discriminate))
    as (_ & Hr & _ & _ & _ & Hd).
  split; [exact Hr|]. apply Hd; [cbn; lia|reflexivity..].
Defined.

Lemma container_init_failure_result (o : init_oracle) (cfg : JudgeConfig)
    (w w' : world) (out : outcome) :
  container_init o cfg w = (out, w') ->
  out <> Returned 0 -> out <> Blocks ->
  w_result w' = w_result w.
Proof.
  unfold container_init. intros H H0 HB.
  destruct (mkdir_io (sandbox_root cfg) (io_mkdir_root o) w) as (R1 & _).
  destruct (mkdir_io (cgroup_path cfg) (io_mkdir_cgroup o)
              (mkdir (sandbox_root cfg) (io_mkdir_root o) w)) as (R3 & _).
  repeat match type of H with
         | (if ?b then _ else _) = _ => destruct b
         | match ?r with Ok _ => _ | Throw _ => _ | Blocked => _ end = _ =>
             destruct r
         end;
    try match type of H with
        | context [write_result RESULT_W ?r ?x] =>
            destruct (writes_write_result RESULT_W r x) as [Hok Hfail];
            destruct (accepts_dec RESULT_W x (length (result_bytes r))) as [A|A];
            [rewrite (Hok A) in H|destruct (Hfail A) as (w'' & E); rewrite E in H]
        end;
    inversion H; subst; clear H; try contradiction; congruence.
Qed.

(** ** The supervisor, end to end *)

Lemma main_gather_runs (o : supervisor_oracle) (w w0 : world)
    (cfg : JudgeConfig) :
  read_config w = (Ok cfg, w0) ->
  supervisor_calls_succeed o ->
  main_gather o w
  = match container_init (so_init o) cfg w0 with
    | (Blocks, w1) => (Blocked, w1)
    | (_, w1) => read_frame RESULT_R w1
    end.
Proof.
  intros Hcfg (Hb & Hr & Hc & Hopens).
  unfold main_gather, mbind, M_bind. rewrite Hcfg.
  destruct (Z.ltb_spec (so_pipe2_barrier o) 0); [lia|].
  destruct (Z.ltb_spec (so_pipe2_result o) 0); [lia|].
  destruct (Z.ltb_spec (so_clone o) 0); [lia|].
  cbn [mret M_ret]. unfold lift, write_file. rewrite !Hopens.
  unfold run_container_init.
  destruct (container_init (so_init o) cfg w0) as [[] w1]; reflexivity.
Qed.

Lemma read_frame_empty (w : world) :
  w_result w = [] ->
  exists w',
    read_frame RESULT_R w = (Throw (runtime_error "Read failed or EOF"), w').
Proof.
  intros H. unfold read_frame, read_int, mbind, M_bind, read_full, read_from.
  cbn [w_result set_reads]. rewrite H. cbn. eauto.
Qed.

(** X10: a sandbox that could not be set up is reported as an internal
    error.  When the request parses and the supervisor's own calls succeed,
    but the container init ends without returning 0 (any of its early
    returns, or an exception nobody catches), the supervisor finds the
    result pipe empty: it answers with the UKE frame whose message is
    ["Internal Error: Read failed or EOF"] and exits with status 1. *)
Theorem main_init_failure (o : supervisor_oracle) (w w0 w1 : world)
    (cfg : JudgeConfig) (out : outcome) :
  w_stdout_room w = None ->
  read_config w = (Ok cfg, w0) ->
  w_result w0 = [] ->
  supervisor_calls_succeed o ->
  container_init (so_init o) cfg w0 = (out, w1) ->
  out <> Returned 0 -> out <> Blocks ->
  exists w2,
    main o w = (Returned 1, w2) /\
    w_stdout w2
    = w_stdout w
      ++ frame_bytes (uke_result (runtime_error "Read failed or EOF")) 0.
Proof.
  intros Hroom Hcfg Hempty Hcalls Hinit H0 HB.
  pose proof (container_init_failure_result _ _ _ _ _ Hinit H0 HB) as Hres.
  rewrite Hempty in Hres.
  destruct (read_frame_empty w1 Hres) as (w1' & Hframe).
  assert (Hgather : main_gather o w
                    = (Throw (runtime_error "Read failed or EOF"), w1')).
  { rewrite (main_gather_runs o w w0 cfg Hcfg Hcalls), Hinit.
    destruct out; try exact Hframe. contradiction. }
  destruct (main_after_throw o w w1' _ Hroom Hgather) as [Hmain Hbytes].
  eexists. split; [exact Hmain|exact Hbytes].
Qed.

Lemma supervisor_calls_succeed_so_bind_fails :
  supervisor_calls_succeed so_bind_fails.
Proof. unfold supervisor_calls_succeed. cbn. repeat split; lia. Qed.

Lemma main_init_failure_witness :
  exists w2,
    main so_bind_fails (initial_world (request_bytes cfg0) None ∅)
    = (Returned 1, w2) /\
    w_stdout w2
    = frame_bytes (uke_result (runtime_error "Read failed or EOF")) 0.
Proof.
  destruct (reads_read_config cfg0 request_fits_cfg0
              (initial_world (request_bytes cfg0) None ∅) []
              ltac:(cbn [pending]; now rewrite app_nil_r))
    as (w0 & Hcfg & _ & _ & _ & _ & Hres & _).
  exact (main_init_failure so_bind_fails
           (initial_world (request_bytes cfg0) None ∅) w0 _ cfg0 _
           eq_refl Hcfg Hres supervisor_calls_succeed_so_bind_fails
           eq_refl ltac:(discriminate) ltac:(discriminate)).
Defined.

(** X11: a result frame that does not fit the pipe is never delivered.
    The container init writes the whole frame before it exits and the
    supervisor reads the pipe only after the container init has exited: when
    the request parses, every call succeeds and the cgroup files parse, but
    the frame of the collected result is longer than the room in the pipe,
    the run blocks for ever and descriptor 1 gets no byte. *)
Theorem main_large_result_blocks (o : supervisor_oracle) (w : world)
    (cfg : JudgeConfig) (rest : list char) (res : JudgeResult) :
  request_fits cfg ->
  w_stdin w = request_bytes cfg ++ rest ->
  supervisor_calls_succeed o ->
  init_calls_succeed (so_init o) cfg ->
  collect_result cfg (io_status (so_init o)) (io_files (so_init o)) = Ok res ->
  ~ has_room (w_result_room w) (length (result_bytes res)) ->
  exists w', main o w = (Blocks, w') /\ w_stdout w' = w_stdout w.
Proof.
  intros Hfit Hw Hcalls Hinit Hres Hfull.
  destruct (reads_read_config cfg Hfit w rest Hw)
    as (w0 & Hcfg & _ & Ko & _ & _ & _ & Kroom).
  destruct (container_init_blocks (so_init o) cfg w0 res Hinit Hres)
    as (w1 & Hblocks); [cbn [accepts]; now rewrite Kroom|].
  destruct Hcalls as (Hb & Hr & Hc & Hopens).
  destruct (main_blocks o w w0 w1 cfg Hcfg Hb Hr Hc Hopens Hblocks)
    as [Hmain Hout].
  exists w1. split; [exact Hmain|exact Hout].
Qed.

Lemma supervisor_calls_succeed_so_ok : supervisor_calls_succeed so_ok.
Proof. unfold supervisor_calls_succeed. cbn. repeat split; lia. Qed.

Lemma main_large_result_blocks_witness :
  exists w',
    main so_ok (narrow_world (request_bytes cfg0)) = (Blocks, w') /\
    w_stdout w' = [].
Proof.
  apply (main_large_result_blocks so_ok (narrow_world (request_bytes cfg0))
           cfg0 [] res0 request_fits_cfg0).
  - cbn [narrow_world w_stdin]. now rewrite app_nil_r.
  - exact supervisor_calls_succeed_so_ok.
  - exact init_calls_succeed_io_ok.
  - vm_compute. reflexivity.
  - vm_compute. intros H. now apply H.
Defined.



(** The set-up steps of the supervisor, after the request was parsed:
    either one of them throws and nothing was started, or all went well. *)
Lemma main_gather_setup (o : supervisor_oracle) (w w0 : world)
    (cfg : JudgeConfig) :
  read_config w = (Ok cfg, w0) ->
  (exists e,
      main_gather o w = (Throw e, w0) /\
      (what e = "pipe" \/ what e = "clone failed" \/
       exists name,
         what e = "Failed to write text: " +:+ proc_path (so_clone o) name)) \/
  (0 <= so_pipe2_barrier o /\ 0 <= so_pipe2_result o /\ 0 <= so_clone o /\
   so_opens o (proc_path (so_clone o) "setgroups") = true /\
   so_opens o (proc_path (so_clone o) "uid_map") = true /\
   so_opens o (proc_path (so_clone o) "gid_map") = true).
Proof.
  intros Hcfg. unfold main_gather, mbind, M_bind. rewrite Hcfg.
  destruct (Z.ltb_spec (so_pipe2_barrier o) 0);
    [left; eexists; split; [reflexivity|now left]|].
  destruct (Z.ltb_spec (so_pipe2_result o) 0);
    [left; eexists; split; [reflexivity|now left]|].
  destruct (Z.ltb_spec (so_clone o) 0);
    [left; eexists; split; [reflexivity|right; now left]|].
  cbn [mret M_ret]. unfold lift, write_file.
  change ("/proc/" +:+ to_string (so_clone o) +:+ "/setgroups")
    with (proc_path (so_clone o) "setgroups").
  change ("/proc/" +:+ to_string (so_clone o) +:+ "/uid_map")
    with (proc_path (so_clone o) "uid_map").
  change ("/proc/" +:+ to_string (so_clone o) +:+ "/gid_map")
    with (proc_path (so_clone o) "gid_map").
  destruct (so_opens o (proc_path (so_clone o) "setgroups"));
    [|left; eexists; split; [reflexivity|right; right; eexists; reflexivity]].
  destruct (so_opens o (proc_path (so_clone o) "uid_map"));
    [|left; eexists; split; [reflexivity|right; right; eexists; reflexivity]].
  destruct (so_opens o (proc_path (so_clone o) "gid_map"));
    [|left; eexists; split; [reflexivity|right; right; eexists; reflexivity]].
  right. repeat split; assumption.
Qed.

(** X13: a supervisor that cannot set the sandbox up starts nothing.  When
    the request parses but a [pipe2] fails, the [clone] fails, or one of the
    three ID-map files of the container init does not open, the container
    init does not get past its barrier: no directory is made and the result
    pipe stays as it was; when descriptor 1 takes what is written to it, the
    supervisor answers with one UKE frame whose message is
    ["Internal Error: "] followed by ["pipe"], ["clone failed"] or
    ["Failed to write text: "] and the path of the file, and exits with
    status 1. *)
Theorem main_setup_failure (o : supervisor_oracle) (w w0 : world)
    (cfg : JudgeConfig) :
  w_stdout_room w = None ->
  read_config w = (Ok cfg, w0) ->
  so_pipe2_barrier o < 0 \/ so_pipe2_result o < 0 \/ so_clone o < 0 \/
  so_opens o (proc_path (so_clone o) "setgroups") = false \/
  so_opens o (proc_path (so_clone o) "uid_map") = false \/
  so_opens o (proc_path (so_clone o) "gid_map") = false ->
  exists e w2,
    main o w = (Returned 1, w2) /\
    w_stdout w2 = w_stdout w ++ frame_bytes (uke_result e) 0 /\
    w_dirs w2 = w_dirs w /\ w_result w2 = w_result w /\
    (what e = "pipe" \/ what e = "clone failed" \/
     exists name,
       what e = "Failed to write text: " +:+ proc_path (so_clone o) name).
Proof.
  intros Hroom Hcfg Hfail.
  destruct (parses_read_config _ _ _ Hcfg) as [(_ & _ & Kd & Kres & _) _].
  destruct (main_gather_setup o w w0 cfg Hcfg)
    as [(e & Hgather & Hmsg)|(Hb & Hr & Hc & H1 & H2 & H3)].
  - destruct (main_after_throw o w w0 e Hroom Hgather) as [Hmain Hbytes].
    exists e. eexists. split; [exact Hmain|]. split; [exact Hbytes|].
    cbn [emit w_dirs w_result set_stdout]. now repeat split.
  - exfalso. rewrite H1, H2, H3 in Hfail.
    destruct Hfail as [?|[?|[?|[?|[?|?]]]]]; try lia; discriminate.
Qed.

Lemma main_setup_failure_witness :
  exists w2,
    main so_no_id_map (initial_world (request_bytes cfg0) None ∅)
    = (Returned 1, w2) /\
    w_stdout w2
    = frame_bytes
        (uke_result
           (runtime_error "Failed to write text: /proc/4/setgroups")) 0 /\
    w_dirs w2 = ∅.
Proof.
  destruct (reads_read_config cfg0 request_fits_cfg0
              (initial_world (request_bytes cfg0) None ∅) []
              ltac:(cbn [pending]; now rewrite app_nil_r))
    as (w0 & Hcfg & _).
  destruct (main_setup_failure so_no_id_map
              (initial_world (request_bytes cfg0) None ∅) w0 cfg0
              eq_refl Hcfg
              ltac:(right; right; right; left; reflexivity))
    as (e & w2 & Hmain & _ & Hdirs & _).
  exists w2. split; [exact Hmain|]. split; [|exact Hdirs].
  assert (E : main so_no_id_map (initial_world (request_bytes cfg0) None ∅)
              = main so_no_id_map (initial_world (request_bytes cfg0) None ∅))
    by reflexivity.
  rewrite Hmain in E at 1. vm_compute in E. inversion E. reflexivity.
Defined.

(** ** The executor and the judged program *)

(** X14: what the executor's exit code says about the judged program.
    With [v] the verdict the container init derives from an executor that
    exited with the code [sandbox_executor] returns: [v] is OK only if the
    judged program was collected before the deadline and had exited with
    status 0; it is TLE only if the timed wait ran out, and the program was
    then killed and reaped; it is UKE only if the program was collected
    before the deadline but had not exited normally (a signal ended it); it
    is never MLE.  Everything else reads RE. *)
Theorem sandbox_executor_exit_code_meaning (o : executor_oracle)
    (cfg : JudgeConfig) (trace : list syscall) (code : Z) :
  sandbox_executor o cfg = (trace, Returned code) ->
  let v := verdict_of_exit_code (exit_code_of (W_EXITCODE code)) in
  let pid := xo_fork o in
  (v = VERDICT_OK ->
   0 < pid /\ 0 <= xo_sigtimedwait o /\ xo_waitpid o = pid /\
   WIFEXITED (xo_status o) = true /\ WEXITSTATUS (xo_status o) = 0) /\
  (v = VERDICT_TLE ->
   0 < pid /\ xo_sigtimedwait o < 0 /\ xo_errno o = EAGAIN /\
   exists tv_sec tv_nsec,
     trace = [sys_fork; sys_sigtimedwait tv_sec tv_nsec;
              sys_kill pid SIGKILL; sys_waitpid pid 0]) /\
  (v = VERDICT_UKE ->
   0 < pid /\ 0 <= xo_sigtimedwait o /\ xo_waitpid o = pid /\
   WIFEXITED (xo_status o) = false) /\
  v <> VERDICT_MLE /\
  (code = 0 \/ code = 1 \/ code = 2 \/ code = 3).
Proof.
  unfold sandbox_executor. destruct (executor_timeout cfg) as [tsec tnsec].
  destruct (negb (xo_chdir o =? 0)); [intros [= <- <-]; cbn; intuition discriminate|].
  destruct (negb (xo_stdin_opens o)); [discriminate|].
  destruct (xo_barrier_read o <=? 0);
    [intros [= <- <-]; cbn; intuition discriminate|].
  destruct (xo_sigprocmask o =? -1);
    [intros [= <- <-]; cbn; intuition discriminate|].
  destruct (Z.ltb_spec (xo_fork o) 0);
    [intros [= <- <-]; cbn; intuition discriminate|].
  destruct (Z.eqb_spec (xo_fork o) 0).
  { destruct (xo_execve o <? 0); [|discriminate].
    intros [= <- <-]; cbn; intuition discriminate. }
  assert (0 < xo_fork o) by lia.
  destruct (Z.ltb_spec (xo_sigtimedwait o) 0).
  - destruct (Z.eqb_spec (xo_errno o) EAGAIN); intros [= <- <-]; cbn.
    + repeat split; try discriminate; eauto.
    + intuition discriminate.
  - destruct (Z.eqb_spec (xo_waitpid o) (xo_fork o));
      [|intros [= <- <-]; cbn; intuition discriminate].
    destruct (WIFEXITED (xo_status o)) eqn:Ex.
    + destruct (Z.eqb_spec (WEXITSTATUS (xo_status o)) 0);
        intros [= <- <-]; cbn; intuition discriminate.
    + intros [= <- <-]; cbn. intuition discriminate.
Qed.

Lemma sandbox_executor_exit_code_meaning_witness :
  0 < xo_fork xo_timeout /\ xo_sigtimedwait xo_timeout < 0 /\
  xo_errno xo_timeout = EAGAIN /\
  exists tv_sec tv_nsec,
    fst (sandbox_executor xo_timeout cfg0)
    = [sys_fork; sys_sigtimedwait tv_sec tv_nsec;
       sys_kill (xo_fork xo_timeout) SIGKILL;
       sys_waitpid (xo_fork xo_timeout) 0].
Proof.
  destruct (sandbox_executor_exit_code_meaning xo_timeout cfg0 _ 2 eq_refl)
    as (_ & Htle & _).
  destruct (Htle eq_refl) as (H1 & H2 & H3 & s & n & E).
  split; [exact H1|]. split; [exact H2|]. split; [exact H3|].
  exists s, n. vm_compute. vm_compute in E. exact E.
Defined.

(** X15: the life of the judged program.  It is started only by the
    [execve] of the grandchild, with the command line of the request, and
    only after the executor entered the scratch directory, wrote the
    program's standard input, was let through the barrier (read one byte
    from it) and blocked SIGCHLD.  It does not outlive the executor: when
    the executor that forked it returns, it has either collected the
    program with [waitpid] or sent it SIGKILL. *)
Theorem sandbox_executor_child_fate (o : executor_oracle) (cfg : JudgeConfig) :
  (forall argv,
      snd (sandbox_executor o cfg) = Replaced argv ->
      argv = cmdline cfg /\
      xo_chdir o = 0 /\ xo_stdin_opens o = true /\ 0 < xo_barrier_read o /\
      xo_sigprocmask o <> -1 /\ xo_fork o = 0 /\ 0 <= xo_execve o) /\
  (forall code,
      snd (sandbox_executor o cfg) = Returned code ->
      In sys_fork (fst (sandbox_executor o cfg)) ->
      0 < xo_fork o ->
      In (sys_kill (xo_fork o) SIGKILL) (fst (sandbox_executor o cfg)) \/
      (xo_waitpid o = xo_fork o /\
       In (sys_waitpid (xo_fork o) WNOHANG) (fst (sandbox_executor o cfg)))).
Proof.
  unfold sandbox_executor. destruct (executor_timeout cfg) as [tsec tnsec].
  destruct (Z.eqb_spec (xo_chdir o) 0);
    cbn [negb]; [|split; [discriminate|intros ? _ []]].
  destruct (xo_stdin_opens o); cbn [negb]; [|split; discriminate].
  destruct (Z.leb_spec (xo_barrier_read o) 0);
    [split; [discriminate|intros ? _ []]|].
  destruct (Z.eqb_spec (xo_sigprocmask o) (-1));
    [split; [discriminate|intros ? _ []]|].
  destruct (Z.ltb_spec (xo_fork o) 0);
    [split; [discriminate|intros; lia]|].
  destruct (Z.eqb_spec (xo_fork o) 0).
  { destruct (Z.ltb_spec (xo_execve o) 0); (split; [|intros; lia]);
      [discriminate|].
    intros argv [= <-]. now repeat split. }
  split.
  - repeat match goal with
           | |- context [if ?b then _ else _] => destruct b
           end; discriminate.
  - intros code _ _ _.
    destruct (xo_sigtimedwait o <? 0).
    + destruct (xo_errno o =? EAGAIN); left; cbn; tauto.
    + destruct (Z.eqb_spec (xo_waitpid o) (xo_fork o)).
      * right. split; [assumption|]. cbn. tauto.
      * left. cbn. tauto.
Qed.

Lemma sandbox_executor_child_fate_witness :
  sandbox_executor xo_child cfg0 = ([sys_fork], Replaced (cmdline cfg0)) /\
  0 < xo_barrier_read xo_child /\
  In (sys_kill 7 SIGKILL) (fst (sandbox_executor xo_race cfg0)).
Proof.
  destruct (sandbox_executor_child_fate xo_child cfg0) as [Hrun _].
  destruct (Hrun (cmdline cfg0) eq_refl) as (_ & _ & _ & Hbar & _).
  destruct (sandbox_executor_child_fate xo_race cfg0) as [_ Hend].
  split; [reflexivity|]. split; [exact Hbar|].
  destruct (Hend 1 eq_refl ltac:(vm_compute; tauto) ltac:(vm_compute; reflexivity))
    as [Hkill|[Hw _]]; [exact Hkill|].
  vm_compute in Hw. discriminate.
Defined.

(** ** The verdict OK, and a run without counters *)

(** X16: what the verdict OK stands for.  A collected result carries OK
    exactly when the executor exited normally with status 0, the cgroup
    counted no memory kill, and the measured time does not exceed the time
    limit. *)
Theorem verdict_ok_iff (cfg : JudgeConfig) (status : Z)
    (files : gmap string node) (res : JudgeResult) (oom : Z) :
  collect_result cfg status files = Ok res ->
  stoi (get_cgroup_key (read_file files (cgroup_path cfg +:+ "/memory.events"))
          "oom_kill") = Ok oom ->
  verdict res = Verdict_value VERDICT_OK <->
  WIFEXITED status = true /\ WEXITSTATUS status = 0 /\
  oom = 0 /\ time res <= time_limit cfg.
Proof.
  intros H Hoom.
  apply collect_result_inv in H as (usec & peak & oom' & _ & _ & Hoom' & ->).
  rewrite Hoom in Hoom'. inversion Hoom'; subst oom'. cbn [verdict time].
  unfold override_verdict, verdict_of_exit_code, exit_code_of.
  destruct (Z.gtb_spec (to_int (Z.quot usec 1000)) (time_limit cfg)).
  { cbn. split; [discriminate|lia]. }
  destruct (Z.eqb_spec oom 0); cbn [negb].
  2:{ cbn. split; [discriminate|tauto]. }
  destruct (WIFEXITED status).
  - destruct (Z.eqb_spec (WEXITSTATUS status) 0).
    + cbn. split; [intros _; repeat split; (lia || assumption)|reflexivity].
    + destruct (WEXITSTATUS status =? 1); [cbn; split; [discriminate|tauto]|].
      destruct (WEXITSTATUS status =? 2); cbn; (split; [discriminate|tauto]).
  - cbn. split; [discriminate|]. intros [? _]. discriminate.
Qed.

Lemma verdict_ok_iff_witness :
  verdict res0 = Verdict_value VERDICT_OK <->
  WIFEXITED 0 = true /\ WEXITSTATUS 0 = 0 /\ 0 = 0 /\
  time res0 <= time_limit cfg0.
Proof.
  exact (verdict_ok_iff cfg0 0 files0 res0 0
           ltac:(vm_compute; reflexivity) ltac:(vm_compute; reflexivity)).
Defined.

(** X17: a run without accounting.  When the three cgroup files read as
    empty (absent, unreadable or empty), result collection still succeeds:
    time and memory are reported as 0, no memory kill is counted, and the
    verdict is the one of the executor's exit code, or TLE under a negative
    time limit. *)
Theorem collect_result_without_counters (cfg : JudgeConfig) (status : Z)
    (files : gmap string node) :
  read_file files (cgroup_path cfg +:+ "/cpu.stat") = "" ->
  read_file files (cgroup_path cfg +:+ "/memory.peak") = "" ->
  read_file files (cgroup_path cfg +:+ "/memory.events") = "" ->
  exists res,
    collect_result cfg status files = Ok res /\
    time res = 0 /\ memory res = 0 /\
    verdict res
    = Verdict_value (if time_limit cfg <? 0 then VERDICT_TLE
                     else verdict_of_exit_code (exit_code_of status)).
Proof.
  intros Hcpu Hpeak Hev. unfold collect_result. rewrite Hcpu, Hpeak, Hev.
  rewrite !get_cgroup_key_spec.
  change (spec_cgroup_value "" "user_usec") with "0".
  change (spec_cgroup_value "" "oom_kill") with "0".
  change (stoll "0") with (@Ok Z 0). change (stoi "0") with (@Ok Z 0).
  cbn [mbind result_bind String.eqb mret result_ret].
  eexists. split; [reflexivity|]. cbn [time memory verdict].
  split; [reflexivity|]. split; [reflexivity|].
  unfold override_verdict. cbn [Z.eqb negb Z.quot to_int].
  change (to_int (Z.quot 0 1000)) with 0.
  rewrite Z.gtb_ltb. reflexivity.
Qed.

Lemma collect_result_without_counters_witness :
  exists res,
    collect_result cfg0 0 ∅ = Ok res /\
    time res = 0 /\ memory res = 0 /\
    verdict res = Verdict_value VERDICT_OK.
Proof.
  exact (collect_result_without_counters cfg0 0 ∅ eq_refl eq_refl eq_refl).
Defined.

(** ** Flat-keyed cgroup files *)

Lemma word_token (t rest : list char) (c : char) :
  forallb (fun c => negb (isspace c)) t = true ->
  isspace c = true ->
  word (t ++ c :: rest) = (t, c :: rest).
Proof.
  intros Ht Hc. induction t as [|d t IH]; cbn [app word].
  - now rewrite Hc.
  - cbn [forallb] in Ht. apply andb_prop in Ht as [Hd Ht].
    apply negb_true_iff in Hd. rewrite Hd, (IH Ht). reflexivity.
Qed.

Lemma fields_token (s : string) (c : char) (rest : list char) :
  is_token s -> isspace c = true ->
  fields (list_ascii_of_string s ++ c :: rest)
  = list_ascii_of_string s :: fields rest.
Proof.
  intros [Hne Ht] Hc. destruct s as [|d s]; [contradiction|].
  cbn [list_ascii_of_string forallb] in Ht |- *.
  apply andb_prop in Ht as [Hd Ht]. apply negb_true_iff in Hd.
  rewrite <- app_comm_cons.
  transitivity ((d :: list_ascii_of_string s) :: fields (c :: rest)).
  - apply (fields_word d); [exact Hd|now apply word_token].
  - f_equal. cbn [fields]. now rewrite Hc.
Qed.

Lemma list_ascii_of_string_app (a b : string) :
  list_ascii_of_string (a +:+ b)
  = list_ascii_of_string a ++ list_ascii_of_string b.
Proof. induction a as [|c a IH]; simpl; [reflexivity|]. now rewrite IH. Qed.

Lemma key_value_pairs_flat_keyed (kvs : list (string * string)) :
  Forall (fun kv => is_token kv.1 /\ is_token kv.2) kvs ->
  key_value_pairs (fields (list_ascii_of_string (flat_keyed kvs))) = kvs.
Proof.
  induction 1 as [|[k v] kvs [Hk Hv] _ IH]; [reflexivity|].
  cbn [flat_keyed fst snd] in *.
  rewrite !list_ascii_of_string_app.
  change (list_ascii_of_string " ") with [" "%char]. cbn [app].
  rewrite (fields_token k " "%char _ Hk eq_refl).
  cbn [list_ascii_of_string].
  rewrite (fields_token v "010"%char _ Hv eq_refl).
  cbn [key_value_pairs]. rewrite IH.
  now rewrite !string_of_list_ascii_of_string.
Qed.

(** X18: [get_cgroup_key] looks a key up in a flat-keyed file.  On the
    text the kernel prints for a list of key/value lines (each a key, a
    space, the value and a newline, keys and values being words), it returns
    the value of the first line that carries the key, and ["0"] when no line
    does. *)
Theorem get_cgroup_key_flat_keyed (kvs : list (string * string)) (k : string) :
  Forall (fun kv => is_token kv.1 /\ is_token kv.2) kvs ->
  get_cgroup_key (flat_keyed kvs) k = first_value kvs k /\
  (forall v, In (k, v) kvs -> NoDup kvs.*1 -> get_cgroup_key (flat_keyed kvs) k = v) /\
  ((forall v, ~ In (k, v) kvs) -> get_cgroup_key (flat_keyed kvs) k = "0").
Proof.
  intros Hkvs.
  assert (E : get_cgroup_key (flat_keyed kvs) k = first_value kvs k).
  { rewrite get_cgroup_key_spec. unfold spec_cgroup_value.
    now rewrite key_value_pairs_flat_keyed. }
  split; [exact E|]. rewrite E. split; [|apply first_value_absent].
  clear E Hkvs. induction kvs as [|[key val] kvs IH]; intros v Hin Hnd;
    [destruct Hin|].
  cbn [first_value]. cbn [fmap list_fmap fst] in Hnd.
  apply NoDup_cons in Hnd as [Hnotin Hnd].
  destruct (String.eqb_spec key k) as [->|Hne].
  - destruct Hin as [[= ->]|Hin]; [reflexivity|].
    exfalso. apply Hnotin. apply list_elem_of_fmap. exists (k, v).
    split; [reflexivity|]. now apply list_elem_of_In.
  - destruct Hin as [[= -> _]|Hin]; [contradiction|]. now apply IH.
Qed.

Lemma get_cgroup_key_flat_keyed_witness :
  get_cgroup_key (flat_keyed [("usage_usec", "1500"); ("user_usec", "1200")])
                 "user_usec"
  = "1200".
Proof.
  apply (proj1 (proj2 (get_cgroup_key_flat_keyed
                         [("usage_usec", "1500"); ("user_usec", "1200")]
                         "user_usec"
                         ltac:(repeat constructor; discriminate)))).
  - cbn. tauto.
  - cbn. repeat constructor; rewrite ?list_elem_of_In; cbn;
      intuition discriminate.
Defined.

(** ** The output files in the response *)
















